(** * ser20: the simdjson-backed JSON archives

    A shallow embedding of [include/ser20/archives/simdjson.hpp]: the
    write-side archive [JSONOutputArchive] (node-state stack, name counter,
    pending name) and the read-side archive [JSONInputArchive] (iterator
    stack with name search), together with the interface of the two external
    collaborators they drive: the streaming writer and the parsed document. *)

From Stdlib Require Import ZArith List String Ascii Bool Lia DecimalString.
From Stdlib Require Import PrimFloat SpecFloat FloatOps.
Import ListNotations.

Set Warnings "-register-all".


Local Open Scope string_scope.
Local Open Scope list_scope.
Local Open Scope Z_scope.

(** ** Machine integers

    Fixed-width integers are carried as [Z]; the range of a type and the
    wrap-around of a narrowing [static_cast] are written out. *)

Definition in_int32 (z : Z) : bool := (- 2 ^ 31 <=? z) && (z <? 2 ^ 31).
Definition in_uint32 (z : Z) : bool := (0 <=? z) && (z <? 2 ^ 32).
Definition in_int64 (z : Z) : bool := (- 2 ^ 63 <=? z) && (z <? 2 ^ 63).
Definition in_uint64 (z : Z) : bool := (0 <=? z) && (z <? 2 ^ 64).

(** [static_cast<T>] to an unsigned [T] of [w] bits: the value modulo [2^w]. *)
Definition cast_unsigned (w z : Z) : Z := z mod 2 ^ w.

(** [static_cast<T>] to a signed [T] of [w] bits: the value congruent to [z]
    modulo [2^w] in [[-2^(w-1), 2^(w-1))]. *)
Definition cast_signed (w z : Z) : Z :=
  (z + 2 ^ (w - 1)) mod 2 ^ w - 2 ^ (w - 1).

(** [std::to_string] of an unsigned integer. *)
Definition to_string (n : Z) : string :=
  NilZero.string_of_uint (N.to_uint (Z.to_N n)).

(** A [double] is an IEEE binary64. *)
Definition double : Type := float.

(** Conversion of an integer to the nearest [double]. *)
Definition double_of_Z (z : Z) : double :=
  SF2Prim (binary_normalize prec emax z 0 false).

(** ** The streaming writer *)

(** Modelled from the spec: the pretty-printing writer (RapidJSON's
    [PrettyWriter], not part of this header) is an external collaborator;
    the archive only calls its primitives: begin/end object, begin/end
    array, one typed write per scalar.  A [token] is one such call. *)
Inductive token : Type :=
| TkStartObject
| TkEndObject
| TkStartArray
| TkEndArray
| TkBool (b : bool)
| TkInt (i : Z)
| TkUint (u : Z)
| TkInt64 (i : Z)
| TkUint64 (u : Z)
| TkDouble (d : double)
| TkString (s : string)
| TkNull.

(** Modelled from the spec: the writer is the log of the calls made to it,
    in the order they were made. *)
Definition JSONWriter : Type := list token.

(** Nesting depth left open by a token sequence: begins minus ends. *)
Fixpoint open_depth (ts : list token) : Z :=
  match ts with
  | [] => 0
  | TkStartObject :: r | TkStartArray :: r => open_depth r + 1
  | TkEndObject :: r | TkEndArray :: r => open_depth r - 1
  | _ :: r => open_depth r
  end.

(** ** The parsed document *)

(** Modelled from the spec: the parsed tree (simdjson's [dom::element], not
    part of this header) offers object iteration over (key, value) pairs in
    document order, array iteration, and typed scalar extraction that fails
    on a type mismatch.  An integer that fits a signed 64-bit word is stored
    signed, a larger one unsigned. *)
Inductive element : Type :=
| JNull
| JBool (b : bool)
| JInt64 (i : Z)
| JUint64 (u : Z)
| JDouble (d : double)
| JString (s : string)
| JArray (items : list element)
| JObject (members : list (string * element)).

Inductive error_code : Type :=
| INCORRECT_TYPE
| NUMBER_OUT_OF_RANGE.

Definition simdjson_result (A : Type) : Type := (error_code + A)%type.

(** Modelled from the spec: the typed getters.  A getter of the wrong JSON
    type fails with [INCORRECT_TYPE]; an integer getter fails with
    [NUMBER_OUT_OF_RANGE] on a stored integer outside its 64-bit range; the
    [double] getter converts a stored integer. *)
Definition get_int64 (e : element) : simdjson_result Z :=
  match e with
  | JInt64 i => inr i
  | JUint64 u => if 2 ^ 63 <=? u then inl NUMBER_OUT_OF_RANGE else inr u
  | _ => inl INCORRECT_TYPE
  end.

Definition get_uint64 (e : element) : simdjson_result Z :=
  match e with
  | JUint64 u => inr u
  | JInt64 i => if i <? 0 then inl NUMBER_OUT_OF_RANGE else inr i
  | _ => inl INCORRECT_TYPE
  end.

Definition get_double (e : element) : simdjson_result double :=
  match e with
  | JDouble d => inr d
  | JInt64 i => inr (double_of_Z i)
  | JUint64 u => inr (double_of_Z u)
  | _ => inl INCORRECT_TYPE
  end.

Definition get_bool (e : element) : simdjson_result bool :=
  match e with
  | JBool b => inr b
  | _ => inl INCORRECT_TYPE
  end.

Definition get_string (e : element) : simdjson_result string :=
  match e with
  | JString s => inr s
  | _ => inl INCORRECT_TYPE
  end.

Definition is_null (e : element) : bool :=
  match e with JNull => true | _ => false end.

Definition is_array (e : element) : bool :=
  match e with JArray _ => true | _ => false end.

Definition is_object (e : element) : bool :=
  match e with JObject _ => true | _ => false end.

(** ** From the writer's output to the parsed document

    The text the writer printed is what the parser reads.  Structure tokens
    nest, a string in key position of an object is the member's key, a
    string keeps its characters (it is UTF-8 text; escaping is the writer's
    and the parser's business), an integer keeps its value.  How a [double]
    survives its decimal text is not decided here: [read_back d] is the
    [double] the parser recovers from the digits the writer printed for [d]
    at the configured number of decimal places, [None] when those are not a
    JSON number. *)

(** Modelled from the spec: the compounds the parser has open, innermost
    first, each with what it holds so far (in reverse). *)
Inductive frame : Type :=
| FArray (rev_items : list element)
| FObject (rev_members : list (string * element)) (key : option string).

Record builder : Type := mkBuilder {
  frames : list frame;
  root : option element
}.

(** Modelled from the spec: a finished value goes into the innermost open
    compound; in an object a string first fills the key, the next value
    the member. *)
Definition put (v : element) (b : builder) : option builder :=
  match root b with
  | Some _ => None
  | None =>
      match frames b with
      | [] => Some (mkBuilder [] (Some v))
      | FArray xs :: fs => Some (mkBuilder (FArray (v :: xs) :: fs) None)
      | FObject ms (Some k) :: fs =>
          Some (mkBuilder (FObject ((k, v) :: ms) None :: fs) None)
      | FObject ms None :: fs =>
          match v with
          | JString k => Some (mkBuilder (FObject ms (Some k) :: fs) None)
          | _ => None
          end
      end
  end.

(** Modelled from the spec: how the parser stores an integer literal. *)
Definition integer_element (z : Z) : option element :=
  if in_int64 z then Some (JInt64 z)
  else if in_uint64 z then Some (JUint64 z)
  else None.

Section Parse.

Variable read_back : double -> option double.

Definition opens (b : builder) : bool :=
  match root b, frames b with
  | Some _, _ => false
  | None, FObject _ None :: _ => false
  | None, _ => true
  end.

(** Modelled from the spec: the element a scalar token is read back as. *)
Definition scalar_element (t : token) : option element :=
  match t with
  | TkBool x => Some (JBool x)
  | TkInt z | TkUint z | TkInt64 z | TkUint64 z => integer_element z
  | TkDouble d =>
      match read_back d with
      | Some d' => Some (JDouble d')
      | None => None
      end
  | TkString s => Some (JString s)
  | TkNull => Some JNull
  | _ => None
  end.

(** Modelled from the spec: one token read by the parser. *)
Definition feed (b : builder) (t : token) : option builder :=
  match t with
  | TkStartObject =>
      if opens b then Some (mkBuilder (FObject [] None :: frames b) None)
      else None
  | TkStartArray =>
      if opens b then Some (mkBuilder (FArray [] :: frames b) None)
      else None
  | TkEndObject =>
      match root b, frames b with
      | None, FObject ms None :: fs =>
          put (JObject (rev ms)) (mkBuilder fs None)
      | _, _ => None
      end
  | TkEndArray =>
      match root b, frames b with
      | None, FArray xs :: fs => put (JArray (rev xs)) (mkBuilder fs None)
      | _, _ => None
      end
  | _ =>
      match scalar_element t with
      | Some e => put e b
      | None => None
      end
  end.

Fixpoint feed_all (b : builder) (ts : list token) : option builder :=
  match ts with
  | [] => Some b
  | t :: r =>
      match feed b t with
      | Some b' => feed_all b' r
      | None => None
      end
  end.

(** Modelled from the spec: the document of a complete output; [None] when
    the tokens are not one complete JSON value. *)
Definition parse (ts : list token) : option element :=
  match feed_all (mkBuilder [] None) ts with
  | Some b =>
      match frames b with
      | [] => root b
      | _ :: _ => None
      end
  | None => None
  end.

End Parse.

(** ** The byte-to-text codec

    The codec that embeds a binary blob in a JSON string
    ([ser20/external/base64.hpp], not part of the archive header) is
    standard base64: three bytes become four characters of the 64-character
    alphabet, a last group of one or two bytes is padded with ['='], and the
    decoder reads alphabet characters up to the first character outside the
    alphabet. *)

Module base64.

Local Open Scope N_scope.

(** Modelled from the spec: the base64 alphabet. *)
Definition chars : string :=
  "ABCDEFGHIJKLMNOPQRSTUVWXYZabcdefghijklmnopqrstuvwxyz0123456789+/".

Definition char_at (n : N) : ascii :=
  match String.get (N.to_nat n) chars with
  | Some c => c
  | None => "="%char
  end.

Fixpoint find_from (c : ascii) (s : string) (i : N) : option N :=
  match s with
  | EmptyString => None
  | String x r => if Ascii.eqb x c then Some i else find_from c r (i + 1)
  end.

Definition find (c : ascii) : N :=
  match find_from c chars 0 with
  | Some i => i
  | None => 255
  end.

Definition is_base64 (c : ascii) : bool :=
  match find_from c chars 0 with
  | Some _ => true
  | None => false
  end.

Definition byte_of_N (n : N) : Byte.byte :=
  match Byte.of_N (n mod 256) with
  | Some b => b
  | None => Byte.x00
  end.

(** Modelled from the spec: the four 6-bit groups of three bytes. *)
Definition group4 (a b c : N) : N * N * N * N :=
  (a / 4, (a mod 4) * 16 + b / 16, (b mod 16) * 4 + c / 64, c mod 64).

(** Modelled from the spec: the three bytes of four 6-bit groups. *)
Definition group3 (s0 s1 s2 s3 : N) : N * N * N :=
  ((s0 * 4 + s1 / 16) mod 256,
   ((s1 mod 16) * 16 + s2 / 4) mod 256,
   ((s2 mod 4) * 64 + s3) mod 256).

(** Modelled from the spec: [base64::encode]. *)
Fixpoint encode (bytes_to_encode : list Byte.byte) : string :=
  match bytes_to_encode with
  | [] => EmptyString
  | [a] =>
      let '(s0, s1, _, _) := group4 (Byte.to_N a) 0 0 in
      String (char_at s0) (String (char_at s1) "==")
  | [a; b] =>
      let '(s0, s1, s2, _) := group4 (Byte.to_N a) (Byte.to_N b) 0 in
      String (char_at s0) (String (char_at s1) (String (char_at s2) "="))
  | a :: b :: c :: rest =>
      let '(s0, s1, s2, s3) :=
        group4 (Byte.to_N a) (Byte.to_N b) (Byte.to_N c) in
      String (char_at s0) (String (char_at s1)
        (String (char_at s2) (String (char_at s3) (encode rest))))
  end.

(** What the decoder emits for the groups left over when its input ends:
    one byte less than the number of groups. *)
Definition flush (pending : list N) : list Byte.byte :=
  match pending with
  | [s0; s1] =>
      let '(a, _, _) := group3 s0 s1 0 0 in [byte_of_N a]
  | [s0; s1; s2] =>
      let '(a, b, _) := group3 s0 s1 s2 0 in [byte_of_N a; byte_of_N b]
  | _ => []
  end.

(** Modelled from the spec: the loop of [base64::decode], with the groups
    read since the last complete group of four. *)
Fixpoint decode_from (encoded_string : string) (pending : list N)
  : list Byte.byte :=
  match encoded_string with
  | EmptyString => flush pending
  | String c rest =>
      if negb (Ascii.eqb c "=") && is_base64 c then
        match pending with
        | [s0; s1; s2] =>
            let '(a, b, d) := group3 s0 s1 s2 (find c) in
            byte_of_N a :: byte_of_N b :: byte_of_N d :: decode_from rest []
        | _ => decode_from rest (pending ++ [find c])
        end
      else flush pending
  end.

(** Modelled from the spec: [base64::decode]. *)
Definition decode (encoded_string : string) : list Byte.byte :=
  decode_from encoded_string [].

End base64.

(** ** The write-side archive *)

Inductive NodeType : Type := StartObject | InObject | StartArray | InArray.

(** The values [saveValue] is overloaded on. *)
Inductive scalar : Type :=
| VBool (b : bool)
| VInt (i : Z)
| VUint (u : Z)
| VInt64 (i : Z)
| VUint64 (u : Z)
| VDouble (d : double)
| VString (s : string)
| VNull.

(** The value lies in the range of its C++ type. *)
Definition well_typed (v : scalar) : bool :=
  match v with
  | VInt i => in_int32 i
  | VUint u => in_uint32 u
  | VInt64 i => in_int64 i
  | VUint64 u => in_uint64 u
  | _ => true
  end.

Module JSONOutputArchive.

(** [std::stack]s are lists with the top first; [top()] and [pop()] of an
    empty stack are undefined behaviour, here [None]. *)
Record archive : Type := mkArchive {
  itsWriter : JSONWriter;
  itsNextName : option string;
  itsNameCounter : list Z;
  itsNodeStack : list NodeType
}.

Definition write (t : token) (ar : archive) : archive :=
  mkArchive (itsWriter ar ++ [t]) (itsNextName ar) (itsNameCounter ar)
    (itsNodeStack ar).

Definition set_top (n : NodeType) (ar : archive) : archive :=
  mkArchive (itsWriter ar) (itsNextName ar) (itsNameCounter ar)
    (n :: tl (itsNodeStack ar)).

(** The constructor: the options only configure the writer (decimal places,
    indentation); the root level is seeded as [StartObject]. *)
Definition construct : archive := mkArchive [] None [0] [StartObject].

(** The destructor. *)
Definition destroy (ar : archive) : option archive :=
  match itsNodeStack ar with
  | [] => None
  | InObject :: _ => Some (write TkEndObject ar)
  | InArray :: _ => Some (write TkEndArray ar)
  | _ :: _ => Some ar
  end.

Definition setNextName (name : option string) (ar : archive) : archive :=
  mkArchive (itsWriter ar) name (itsNameCounter ar) (itsNodeStack ar).

Definition token_of (v : scalar) : token :=
  match v with
  | VBool b => TkBool b
  | VInt i => TkInt i
  | VUint u => TkUint u
  | VInt64 i => TkInt64 i
  | VUint64 u => TkUint64 u
  | VDouble d => TkDouble d
  | VString s => TkString s
  | VNull => TkNull
  end.

Definition saveValue (v : scalar) (ar : archive) : archive :=
  write (token_of v) ar.

(** The string fallback of [saveValue] for exotic arithmetic types:
    [format] is [operator<<] into a [stringstream] at [max_digits10]
    precision. *)
Definition saveValue_exotic {T : Type} (format : T -> string) (t : T)
    (ar : archive) : archive :=
  saveValue (VString (format t)) ar.

Definition writeName (ar : archive) : option archive :=
  match itsNodeStack ar with
  | [] => None
  | nodeType :: _ =>
      let ar1 :=
        match nodeType with
        | StartArray => set_top InArray (write TkStartArray ar)
        | StartObject => write TkStartObject (set_top InObject ar)
        | _ => ar
        end in
      (* [nodeType] is a reference to the top of the stack: the test below
         reads the state just assigned. *)
      match itsNodeStack ar1 with
      | InArray :: _ => Some ar1
      | _ =>
          match itsNextName ar1 with
          | None =>
              match itsNameCounter ar1 with
              | [] => None
              | c :: cs =>
                  let name := ("value" ++ to_string c)%string in
                  Some (saveValue (VString name)
                          (mkArchive (itsWriter ar1) (itsNextName ar1)
                             ((c + 1) mod 2 ^ 32 :: cs) (itsNodeStack ar1)))
              end
          | Some name =>
              Some (setNextName None (saveValue (VString name) ar1))
          end
      end
  end.

Definition startNode (ar : archive) : option archive :=
  match writeName ar with
  | Some ar1 =>
      Some (mkArchive (itsWriter ar1) (itsNextName ar1)
              (0 :: itsNameCounter ar1) (StartObject :: itsNodeStack ar1))
  | None => None
  end.

Definition finishNode (ar : archive) : option archive :=
  match itsNodeStack ar, itsNameCounter ar with
  | top :: nodes, _ :: counters =>
      let ar1 :=
        match top with
        | StartArray => write TkEndArray (write TkStartArray ar)
        | InArray => write TkEndArray ar
        | StartObject => write TkEndObject (write TkStartObject ar)
        | InObject => write TkEndObject ar
        end in
      Some (mkArchive (itsWriter ar1) (itsNextName ar1) counters nodes)
  | _, _ => None
  end.

Definition makeArray (ar : archive) : option archive :=
  match itsNodeStack ar with
  | [] => None
  | _ :: _ => Some (set_top StartArray ar)
  end.

Definition saveBinaryValue (data : list Byte.byte) (name : option string)
    (ar : archive) : option archive :=
  match writeName (setNextName name ar) with
  | Some ar1 => Some (saveValue (VString (base64.encode data)) ar1)
  | None => None
  end.

(** A sequence of archive calls, each run if the one before was defined. *)
Fixpoint run (calls : list (archive -> option archive)) (ar : archive)
  : option archive :=
  match calls with
  | [] => Some ar
  | f :: r =>
      match f ar with
      | Some ar1 => run r ar1
      | None => None
      end
  end.

(** The tokens of a whole archive lifetime: construct, the calls, destroy. *)
Definition output (calls : list (archive -> option archive))
  : option JSONWriter :=
  match run calls construct with
  | Some ar =>
      match destroy ar with
      | Some ar1 => Some (itsWriter ar1)
      | None => None
      end
  | None => None
  end.

(** What the framework does for one scalar: the prologue calls
    [writeName], the save function [saveValue]. *)
Definition save (v : scalar) (ar : archive) : option archive :=
  match writeName ar with
  | Some ar1 => Some (saveValue v ar1)
  | None => None
  end.

(** A name-value pair: [setNextName], then the value. *)
Definition save_nvp (name : string) (v : scalar) (ar : archive)
  : option archive :=
  save v (setNextName (Some name) ar).

(** The same for an exotic arithmetic value. *)
Definition save_exotic {T : Type} (format : T -> string) (t : T)
    (ar : archive) : option archive :=
  match writeName ar with
  | Some ar1 => Some (saveValue_exotic format t ar1)
  | None => None
  end.

End JSONOutputArchive.

(** ** The read-side archive *)

Inductive exn : Type :=
| Exception (what : string)
| simdjson_error (code : error_code)
| std_exception (what : string).

(** A call returns, throws, or has undefined behaviour; the state it leaves
    is kept in both of the first two cases. *)
Inductive outcome (S A : Type) : Type :=
| Return (a : A) (s : S)
| Throw (e : exn) (s : S)
| Undefined.

Arguments Return {S A} a s.
Arguments Throw {S A} e s.
Arguments Undefined {S A}.

Definition bind {S A B : Type} (m : S -> outcome S A)
    (f : A -> S -> outcome S B) : S -> outcome S B :=
  fun s =>
    match m s with
    | Return a s1 => f a s1
    | Throw e s1 => Throw e s1
    | Undefined => Undefined
    end.

Definition ret {S A : Type} (a : A) : S -> outcome S A := fun s => Return a s.

Definition throw {S A : Type} (e : exn) : S -> outcome S A :=
  fun s => Throw e s.

(** [.value()] of a [simdjson_result]: the value, or a thrown
    [simdjson_error]. *)
Definition value_of {S A : Type} (r : simdjson_result A) : S -> outcome S A :=
  match r with
  | inr a => ret a
  | inl code => throw (simdjson_error code)
  end.

Declare Scope archive_scope.
Delimit Scope archive_scope with archive.
Notation "x <- m ;; k" := (bind m (fun x => k))
  (at level 61, m at next level, right associativity) : archive_scope.
Notation "m ;; k" := (bind m (fun _ => k))
  (at level 61, right associativity) : archive_scope.

(** The types [loadValue] is overloaded on. *)
Inductive ctype : Type :=
| TBool | TInt | TUint | TInt64 | TUint64 | TDouble | TString | TNull.

Definition type_of (v : scalar) : ctype :=
  match v with
  | VBool _ => TBool
  | VInt _ => TInt
  | VUint _ => TUint
  | VInt64 _ => TInt64
  | VUint64 _ => TUint64
  | VDouble _ => TDouble
  | VString _ => TString
  | VNull => TNull
  end.

(** ** C strings

    A [const char*] is read as a C string: the characters up to the first
    NUL.  A name given by the caller is a C string and holds no NUL, so
    [c_str] leaves it as it is; a key of the document can hold one (JSON
    has an escape for it), and [key_c_str ()] points to its characters. *)
Fixpoint c_str (s : string) : string :=
  match s with
  | EmptyString => EmptyString
  | String c r =>
      if Ascii.eqb c Ascii.zero then EmptyString else String c (c_str r)
  end.

(** [std::strcmp]: zero when the two C strings are equal, else the sign of
    the first difference. *)
Definition strcmp (lhs rhs : string) : Z :=
  if String.eqb (c_str lhs) (c_str rhs) then 0
  else if String.ltb (c_str lhs) (c_str rhs) then - 1 else 1.

(** The keys of an object as [name ()] hands them out, each read as a C
    string. *)
Definition c_keys (members : list (string * element)) : list string :=
  map (fun m => c_str (fst m)) members.

Module JSONInputArchive.

Local Open Scope archive_scope.

Inductive Type_ : Type := Array | Object | Null_.

(** An iterator of the document is a position in the sequence it ranges
    over: begin is position 0, end the length. *)
Record Iterator : Type := mkIterator {
  itsObjectRange : list (string * element);
  itsObjectItCurrent : nat;
  itsArrayRange : list element;
  itsArrayItCurrent : nat;
  itsType : Type_
}.

Definition itsObjectItEnd (it : Iterator) : nat :=
  List.length (itsObjectRange it).

Definition itsArrayItEnd (it : Iterator) : nat :=
  List.length (itsArrayRange it).

Definition Iterator_default : Iterator := mkIterator [] 0 [] 0 Null_.

Definition Iterator_object (members : list (string * element)) : Iterator :=
  mkIterator members 0 [] 0
    (if (0 =? List.length members)%nat then Null_ else Object).

Definition Iterator_array (items : list element) : Iterator :=
  mkIterator [] 0 items 0
    (if (0 =? List.length items)%nat then Null_ else Array).

Definition set_object_current (i : nat) (it : Iterator) : Iterator :=
  mkIterator (itsObjectRange it) i (itsArrayRange it)
    (itsArrayItCurrent it) (itsType it).

Definition set_array_current (i : nat) (it : Iterator) : Iterator :=
  mkIterator (itsObjectRange it) (itsObjectItCurrent it) (itsArrayRange it)
    i (itsType it).

(** [operator++] *)
Definition advance (it : Iterator) : Iterator :=
  match itsType it with
  | Array =>
      if (itsArrayItCurrent it =? itsArrayItEnd it)%nat then it
      else set_array_current (S (itsArrayItCurrent it)) it
  | Object =>
      if (itsObjectItCurrent it =? itsObjectItEnd it)%nat then it
      else set_object_current (S (itsObjectItCurrent it)) it
  | Null_ => it
  end.

(** Dereferencing a position outside the range is undefined. *)
Definition value : Iterator -> outcome Iterator element := fun it =>
  match itsType it with
  | Array =>
      if (itsArrayItCurrent it =? itsArrayItEnd it)%nat
      then Throw (Exception "No more objects in input") it
      else
        match nth_error (itsArrayRange it) (itsArrayItCurrent it) with
        | Some e => Return e it
        | None => Undefined
        end
  | Object =>
      if (itsObjectItCurrent it =? itsObjectItEnd it)%nat
      then Throw (Exception "No more objects in input") it
      else
        match nth_error (itsObjectRange it) (itsObjectItCurrent it) with
        | Some (_, e) => Return e it
        | None => Undefined
        end
  | Null_ =>
      Throw (Exception
        "JSONInputArchive internal error: null or empty iterator to object or array!")
        it
  end.

(** [name ()] returns [key_c_str ()], a pointer to the characters of the
    key, here the key; read as a C string it ends at the key's first NUL,
    which is what [strcmp] in [search] sees of it. *)
Definition name (it : Iterator) : option string :=
  match itsType it with
  | Object =>
      if (itsObjectItCurrent it =? itsObjectItEnd it)%nat then None
      else
        match nth_error (itsObjectRange it) (itsObjectItCurrent it) with
        | Some (k, _) => Some k
        | None => None
        end
  | _ => None
  end.

(** The loop of [Iterator::search] over the members from position [i] on:
    the position it stops at, and whether it stopped on a match.
    Modelled from the spec: [key_equals] is an exact match of the whole key
    with the characters of [searchName]. *)
Fixpoint scan (searchName : string) (members : list (string * element))
    (i : nat) : nat * bool :=
  match members with
  | [] => (i, false)
  | (k, _) :: rest =>
      if String.eqb k searchName then (i, true)
      else scan searchName rest (S i)
  end.

(** The [const char*] it is given becomes a [std::string_view] for
    [key_equals] and a [std::string] for the message: its C string. *)
Definition Iterator_search (searchName : string)
  : Iterator -> outcome Iterator unit := fun it =>
  match itsType it with
  | Object =>
      let '(i, found) := scan (c_str searchName) (itsObjectRange it) 0%nat in
      if found then Return tt (set_object_current i it)
      else
        Throw (Exception ("JSON Parsing failed - provided NVP (" ++
                          c_str searchName ++ ") not found")%string)
          (set_object_current i it)
  | _ =>
      Throw (Exception "Cannot search for a name in a non-object JSON node")
        it
  end.

Definition isValid (it : Iterator) : bool :=
  match itsType it with
  | Array => negb (itsArrayItCurrent it =? itsArrayItEnd it)%nat
  | Object => negb (itsObjectItCurrent it =? itsObjectItEnd it)%nat
  | Null_ => false
  end.

(** [itsIteratorStack] is a [std::vector]; its [back()] is the head of the
    list.  [back()] and [pop_back()] of an empty vector are undefined. *)
Record archive : Type := mkArchive {
  itsNextName : option string;
  itsDocument : element;
  itsIteratorStack : list Iterator
}.

Definition M (A : Type) : Type := archive -> outcome archive A.

Definition set_name (n : option string) (ar : archive) : archive :=
  mkArchive n (itsDocument ar) (itsIteratorStack ar).

Definition set_stack (st : list Iterator) (ar : archive) : archive :=
  mkArchive (itsNextName ar) (itsDocument ar) st.

(** A member function of [itsIteratorStack.back()]. *)
Definition back {A : Type} (m : Iterator -> outcome Iterator A) : M A :=
  fun ar =>
    match itsIteratorStack ar with
    | [] => Undefined
    | it :: rest =>
        match m it with
        | Return a it1 => Return a (set_stack (it1 :: rest) ar)
        | Throw e it1 => Throw e (set_stack (it1 :: rest) ar)
        | Undefined => Undefined
        end
    end.

Definition emplace_back (it : Iterator) : M unit :=
  fun ar => Return tt (set_stack (it :: itsIteratorStack ar) ar).

Definition Init : M unit := fun ar =>
  match itsDocument ar with
  | JArray arr => emplace_back (Iterator_array arr) ar
  | JObject obj => emplace_back (Iterator_object obj) ar
  | _ => Throw (Exception "JSON root element is not an object or array") ar
  end.

(** The constructors, once the buffer is parsed into [doc]. *)
Definition construct (doc : element) : outcome archive unit :=
  Init (mkArchive None doc []).

Definition setNextName (n : option string) : M unit :=
  fun ar => Return tt (set_name n ar).

Definition getNodeName : M (option string) :=
  back (fun it => Return (name it) it).

(** The pending name is compared with the key under the cursor by
    [std::strcmp], both as C strings; only when they differ does
    [Iterator::search] look for the whole key. *)
Definition search : M unit := fun ar =>
  let localNextName := itsNextName ar in
  let ar := set_name None ar in
  match localNextName with
  | Some n =>
      (actualName <- getNodeName ;;
       match actualName with
       | Some a =>
           if negb (strcmp n a =? 0) then back (Iterator_search n)
           else ret tt
       | None => back (Iterator_search n)
       end) ar
  | None => Return tt ar
  end.

Definition push_children (currentValue : element) : M unit :=
  match currentValue with
  | JArray arr => emplace_back (Iterator_array arr)
  | JObject obj => emplace_back (Iterator_object obj)
  | _ => throw (Exception "Current JSON node is neither an array nor an object")
  end.

Definition startNode : M unit :=
  search ;;
  currentValue <- back value ;;
  push_children currentValue.

Definition finishNode : M unit := fun ar =>
  match itsIteratorStack ar with
  | [] => Undefined
  | _ :: [] => Return tt (set_stack [] ar)
  | _ :: parent :: rest => Return tt (set_stack (advance parent :: rest) ar)
  end.

(** The shape shared by the [loadValue] overloads: [search], extract with
    a getter, advance. *)
Definition load {A : Type} (get : element -> simdjson_result A) : M A :=
  search ;;
  e <- back value ;;
  val <- value_of (get e) ;;
  back (fun it => Return tt (advance it)) ;;
  ret val.

Definition map_result {A B : Type} (f : A -> B) (r : simdjson_result A)
  : simdjson_result B :=
  match r with
  | inr a => inr (f a)
  | inl c => inl c
  end.

(** Signed [T] of [w] bits, narrower than [int64_t]. *)
Definition loadValue_small_signed (w : Z) : M Z :=
  load (fun e => map_result (cast_signed w) (get_int64 e)).

(** Unsigned [T] of [w] bits, narrower than [uint64_t], not [bool]. *)
Definition loadValue_small_unsigned (w : Z) : M Z :=
  load (fun e => map_result (cast_unsigned w) (get_uint64 e)).

Definition loadValue_bool : M bool := load get_bool.
Definition loadValue_int64 : M Z := load get_int64.
Definition loadValue_uint64 : M Z := load get_uint64.
Definition loadValue_double : M double := load get_double.
Definition loadValue_string : M string := load get_string.

(** Modelled from the spec: the assertion macro is defined outside this
    header; a value of the wrong JSON type is a hard error. *)
Definition RAPIDJSON_ASSERT (x : bool) : M unit :=
  if x then ret tt
  else throw (Exception "rapidjson internal assertion failure").

Definition loadValue_nullptr : M unit :=
  search ;;
  e <- back value ;;
  RAPIDJSON_ASSERT (is_null e) ;;
  back (fun it => Return tt (advance it)).

(** The string fallback for exotic arithmetic types: [stringToNumber] is
    [std::stoll], [std::stoull] or [std::stold]. *)
Definition loadValue_exotic {T : Type} (stringToNumber : string -> exn + T)
  : M T :=
  encoded <- loadValue_string ;;
  match stringToNumber encoded with
  | inr val => ret val
  | inl e => throw e
  end.

(** The overload chosen for each type. *)
Definition loadValue (t : ctype) : M scalar :=
  match t with
  | TBool => b <- loadValue_bool ;; ret (VBool b)
  | TInt => i <- loadValue_small_signed 32 ;; ret (VInt i)
  | TUint => u <- loadValue_small_unsigned 32 ;; ret (VUint u)
  | TInt64 => i <- loadValue_int64 ;; ret (VInt64 i)
  | TUint64 => u <- loadValue_uint64 ;; ret (VUint64 u)
  | TDouble => d <- loadValue_double ;; ret (VDouble d)
  | TString => s <- loadValue_string ;; ret (VString s)
  | TNull => loadValue_nullptr ;; ret VNull
  end.

(** Modelled from the spec: [size()] of an array or object, its number of
    children. *)
Definition size_of (e : element) : simdjson_result nat :=
  match e with
  | JArray arr => inr (List.length arr)
  | JObject obj => inr (List.length obj)
  | _ => inl INCORRECT_TYPE
  end.

Definition loadSize : M nat := fun ar =>
  match itsIteratorStack ar with
  | [_] => value_of (size_of (itsDocument ar)) ar
  | _ :: parent :: _ =>
      match value parent with
      | Return parentValue _ =>
          if is_array parentValue || is_object parentValue
          then value_of (size_of parentValue) ar
          else Throw (Exception
                 "Parent JSON node is neither an array nor an object") ar
      | Throw e _ => Throw e ar
      | Undefined => Undefined
      end
  | [] => Undefined
  end.

(** [loadBinaryValue (data, size, name)]: the state is the archive together
    with the memory [data] points to; copying [size] bytes into a shorter
    buffer is undefined. *)
Definition loadBinaryValue (size : nat) (name : option string)
  : archive * list Byte.byte -> outcome (archive * list Byte.byte) unit :=
  fun '(ar, data) =>
    match loadValue_string (set_name name ar) with
    | Return encoded ar1 =>
        let decoded := base64.decode encoded in
        if negb (size =? List.length decoded)%nat
        then Throw (Exception
               "Decoded binary data size does not match specified size")
               (ar1, data)
        else if (List.length data <? List.length decoded)%nat then Undefined
        else Return tt
               (set_name None ar1, decoded ++ skipn (List.length decoded) data)
    | Throw e ar1 => Throw e (ar1, data)
    | Undefined => Undefined
    end.

End JSONInputArchive.

(** ** A write pass followed by a read pass *)

Definition result_of {S A : Type} (o : outcome S A) : option (exn + A) :=
  match o with
  | Return a _ => Some (inr a)
  | Throw e _ => Some (inl e)
  | Undefined => None
  end.

Definition state_of {S A : Type} (o : outcome S A) : option S :=
  match o with
  | Return _ s => Some s
  | Throw _ s => Some s
  | Undefined => None
  end.

Section Passes.

Variable read_back : double -> option double.

(** The input archive constructed on a buffer holding [ts]: the parse
    ([ParseDocument], which throws "Failed to parse JSON: " and the parser's
    message when the buffer is not a JSON document; the message is cut
    before the colon here), then [Init]. *)
Definition open_input (ts : JSONWriter)
  : outcome JSONInputArchive.archive unit :=
  match parse read_back ts with
  | Some doc => JSONInputArchive.construct doc
  | None =>
      Throw (Exception "Failed to parse JSON")
        (JSONInputArchive.mkArchive None JNull [])
  end.

(** Read [reader] from what [calls] wrote. *)
Definition roundtrip {A : Type}
    (calls : list (JSONOutputArchive.archive ->
                   option JSONOutputArchive.archive))
    (reader : JSONInputArchive.M A)
  : outcome JSONInputArchive.archive A :=
  match JSONOutputArchive.output calls with
  | Some ts => bind (fun _ => open_input ts) (fun _ => reader)
                 (JSONInputArchive.mkArchive None JNull [])
  | None => Undefined
  end.

End Passes.


(** ** Auxiliary definitions for the statements *)

(** What the [loadValue] overload for type [t] makes of the element [e]. *)
Definition extract (t : ctype) (e : element) : exn + scalar :=
  let lift {A} (f : A -> scalar) (r : simdjson_result A) : exn + scalar :=
    match r with
    | inr a => inr (f a)
    | inl c => inl (simdjson_error c)
    end in
  match t with
  | TBool => lift VBool (get_bool e)
  | TInt => lift (fun i => VInt (cast_signed 32 i)) (get_int64 e)
  | TUint => lift (fun u => VUint (cast_unsigned 32 u)) (get_uint64 e)
  | TInt64 => lift VInt64 (get_int64 e)
  | TUint64 => lift VUint64 (get_uint64 e)
  | TDouble => lift VDouble (get_double e)
  | TString => lift VString (get_string e)
  | TNull =>
      if is_null e then inr VNull
      else inl (Exception "rapidjson internal assertion failure")
  end.

(** The part of [loadValue] after the search. *)
Definition read_current (t : ctype) : JSONInputArchive.M scalar :=
  (e <- JSONInputArchive.back JSONInputArchive.value ;;
   match extract t e with
   | inr v =>
       JSONInputArchive.back
         (fun it => Return tt (JSONInputArchive.advance it)) ;; ret v
   | inl ex => throw ex
   end)%archive.

(** The writer's text for the value is read back exactly: always so except
    for a [double], where it is up to the digits printed. *)
Definition exact_on (read_back : double -> option double) (v : scalar) : Prop :=
  match v with
  | VDouble d => read_back d = Some d
  | _ => True
  end.

(** Tokens [writeName] emits to open the level on first use. *)
Definition opening (n : NodeType) : list token :=
  match n with
  | StartObject => [TkStartObject]
  | StartArray => [TkStartArray]
  | _ => []
  end.

Definition is_array_level (n : NodeType) : bool :=
  match n with
  | StartArray | InArray => true
  | _ => false
  end.

(** The key [writeName] emits, and what it leaves of the pending name and
    the counter. *)
Definition key_of (pending : option string) (c : Z) : string :=
  match pending with
  | Some n => n
  | None => ("value" ++ to_string c)%string
  end.

Definition counter_after (pending : option string) (c : Z) : Z :=
  match pending with
  | Some _ => c
  | None => (c + 1) mod 2 ^ 32
  end.

(** [n] compounds nested inside one another, each opened by a write, none
    finished: the state a caller is in who stops [n] levels deep. *)
Fixpoint nested (n : nat) (v : scalar) (ar : JSONOutputArchive.archive)
  : option JSONOutputArchive.archive :=
  match n with
  | O => JSONOutputArchive.save v ar
  | S k =>
      match JSONOutputArchive.startNode ar with
      | Some ar1 => nested k v ar1
      | None => None
      end
  end.

(** What the destructor writes for the level on top. *)
Definition closing (n : NodeType) : list token :=
  match n with
  | InObject => [TkEndObject]
  | InArray => [TkEndArray]
  | _ => []
  end.


(** A blob written by [saveBinaryValue] and read by [loadBinaryValue] with
    declared size [size] into the buffer [dst]. *)
Definition binary_roundtrip (read_back : double -> option double)
    (data : list Byte.byte) (name : option string) (size : nat)
    (dst : list Byte.byte)
  : outcome (JSONInputArchive.archive * list Byte.byte) unit :=
  match JSONOutputArchive.output
          [JSONOutputArchive.saveBinaryValue data name] with
  | Some ts =>
      match open_input read_back ts with
      | Return _ ar => JSONInputArchive.loadBinaryValue size name (ar, dst)
      | Throw e ar => Throw e (ar, dst)
      | Undefined => Undefined
      end
  | None => Undefined
  end.

(** ** Disciplined use of the write side *)

(** The calls the framework makes on the write side: a scalar (prologue and
    save function), the prologue of a compound ([startNode], then
    [makeArray] when it carries a size tag), its epilogue ([finishNode]);
    each of the first two after [setNextName] when the value is a
    name-value pair. *)
Inductive call : Type :=
| CallSave (name : option string) (v : scalar)
| CallStart (name : option string) (array : bool)
| CallFinish.

Definition with_name (name : option string) (ar : JSONOutputArchive.archive)
  : JSONOutputArchive.archive :=
  match name with
  | Some n => JSONOutputArchive.setNextName (Some n) ar
  | None => ar
  end.

Definition exec (c : call) (ar : JSONOutputArchive.archive)
  : option JSONOutputArchive.archive :=
  match c with
  | CallSave name v => JSONOutputArchive.save v (with_name name ar)
  | CallStart name array =>
      match JSONOutputArchive.startNode (with_name name ar) with
      | Some ar1 =>
          if array then JSONOutputArchive.makeArray ar1 else Some ar1
      | None => None
      end
  | CallFinish => JSONOutputArchive.finishNode ar
  end.

(** Every compound started is finished. *)
Inductive balanced : list call -> Prop :=
| balanced_nil : balanced []
| balanced_save name v rest :
    balanced rest -> balanced (CallSave name v :: rest)
| balanced_node name array body rest :
    balanced body -> balanced rest ->
    balanced (CallStart name array :: body ++ CallFinish :: rest).

(** The scalars of the calls are read back as some element. *)
Definition readable (read_back : double -> option double) (c : call) : Prop :=
  match c with
  | CallSave _ v =>
      exists e, scalar_element read_back (JSONOutputArchive.token_of v) = Some e
  | _ => True
  end.

(** The parser's open compounds under the level on top of the node stack:
    each enclosing level is open and waits for the value being written. *)
Fixpoint awaiting (nodes : list NodeType) (fs : list frame) : Prop :=
  match nodes, fs with
  | [], [] => True
  | InObject :: nodes', FObject _ (Some _) :: fs' => awaiting nodes' fs'
  | InArray :: nodes', FArray _ :: fs' => awaiting nodes' fs'
  | _, _ => False
  end.

(** The parser's open compounds for a node stack between two values: the
    top level is not opened yet, or open and ready for its next member. *)
Definition in_step (nodes : list NodeType) (fs : list frame) : Prop :=
  match nodes with
  | [] => False
  | (StartObject | StartArray) :: below => awaiting below fs
  | InObject :: below =>
      match fs with
      | FObject _ None :: fs' => awaiting below fs'
      | _ => False
      end
  | InArray :: below =>
      match fs with
      | FArray _ :: fs' => awaiting below fs'
      | _ => False
      end
  end.

(** The archive and the parser reading its output so far agree. *)
Definition consistent (read_back : double -> option double)
    (ar : JSONOutputArchive.archive) : Prop :=
  exists b,
    feed_all read_back (mkBuilder [] None) (JSONOutputArchive.itsWriter ar)
      = Some b /\
    root b = None /\
    in_step (JSONOutputArchive.itsNodeStack ar) (frames b) /\
    List.length (JSONOutputArchive.itsNameCounter ar) =
    List.length (JSONOutputArchive.itsNodeStack ar).

Definition opened (n : NodeType) : NodeType :=
  match n with
  | StartObject | InObject => InObject
  | StartArray | InArray => InArray
  end.

(** [std::stoull] in base 10, as the C++ standard library has it (it is
    not part of this header), for running the string fallback on a
    concrete input: leading white space is skipped, a sign is read, then
    the longest run of decimal digits; what follows is ignored.  Without a
    digit it throws [std::invalid_argument], on a magnitude of [2^64] or
    more [std::out_of_range]; a negated value wraps as an unsigned one. *)
Definition isspace (c : ascii) : bool :=
  let n := N_of_ascii c in
  (n =? 32)%N || ((9 <=? n) && (n <=? 13))%N.

Fixpoint skip_space (s : string) : string :=
  match s with
  | String c r => if isspace c then skip_space r else s
  | EmptyString => EmptyString
  end.

Definition digit_of (c : ascii) : option Z :=
  let n := Z.of_N (N_of_ascii c) in
  if (48 <=? n) && (n <=? 57) then Some (n - 48) else None.

(** The value of the longest run of digits [s] starts with, after the
    digits already read. *)
Fixpoint digits (s : string) (read : option Z) : option Z :=
  match s with
  | String c r =>
      match digit_of c with
      | Some d =>
          digits r (Some (10 * match read with Some v => v | None => 0 end + d))
      | None => read
      end
  | EmptyString => read
  end.

Definition stoull (s : string) : exn + Z :=
  let s := skip_space s in
  let '(negative, s) :=
    match s with
    | String "-" r => (true, r)
    | String "+" r => (false, r)
    | _ => (false, s)
    end in
  match digits s None with
  | None => inl (std_exception "stoull")
  | Some v =>
      if 2 ^ 64 <=? v then inl (std_exception "stoull")
      else inr (if negative then (- v) mod 2 ^ 64 else v)
  end.

(** The writer and the parser on a [double] at their best, when the
    configured precision loses nothing: the decimal text of a finite
    [double] is read back as that [double].  An infinity or a NaN has no
    JSON number, and what the writer leaves in its place is not read
    back. *)
Definition read_back_finite (d : double) : option double :=
  if PrimFloat.is_finite d then Some d else None.

(** The boundary values of the 64-bit types, and one value of each other
    type. *)
Definition boundary_values : list scalar :=
  [VInt64 0; VInt64 (2 ^ 31 - 1); VInt64 (2 ^ 31); VInt64 (2 ^ 63 - 1);
   VInt64 (- 2 ^ 63);
   VUint64 0; VUint64 (2 ^ 31 - 1); VUint64 (2 ^ 31); VUint64 (2 ^ 63 - 1);
   VUint64 (2 ^ 63); VUint64 (2 ^ 64 - 1);
   VInt (- 2 ^ 31); VInt (2 ^ 31 - 1); VUint 0; VUint (2 ^ 32 - 1);
   VBool true; VBool false; VString "text"; VString EmptyString; VNull;
   VDouble 0.5%float].

(** ** Trees of values *)

(** A value as the framework serializes it: a scalar, or a compound whose
    serialization function visits its children in order; either may come
    wrapped in a name-value pair; a compound is a sequence when its
    serialization starts with a size tag. *)
Inductive item : Type :=
| Leaf (name : option string) (v : scalar)
| Branch (name : option string) (array : bool) (children : list item).

Definition item_name (i : item) : option string :=
  match i with
  | Leaf n _ | Branch n _ _ => n
  end.

(** The calls the framework makes on the write side for a value. *)
Fixpoint calls_of (i : item) : list call :=
  match i with
  | Leaf n v => [CallSave n v]
  | Branch n a cs => CallStart n a :: flat_map calls_of cs ++ [CallFinish]
  end.

(** The element a scalar of the write side is parsed back as, when its text
    is read back exactly. *)
Definition stored (v : scalar) : element :=
  match v with
  | VBool b => JBool b
  | VInt z | VUint z | VInt64 z | VUint64 z =>
      if in_int64 z then JInt64 z else JUint64 z
  | VDouble d => JDouble d
  | VString s => JString s
  | VNull => JNull
  end.

(** The keys [writeName] gives to successive members of one object, from
    the names they come with and the counter of the level. *)
Fixpoint keys_from (c : Z) (names : list (option string)) : list string :=
  match names with
  | [] => []
  | n :: r => key_of n c :: keys_from (counter_after n c) r
  end.

(** The counter of the level after these members. *)
Fixpoint counter_from (c : Z) (names : list (option string)) : Z :=
  match names with
  | [] => c
  | n :: r => counter_from (counter_after n c) r
  end.

(** The JSON value of a tree. *)
Fixpoint elem_of (i : item) : element :=
  match i with
  | Leaf _ v => stored v
  | Branch _ a cs =>
      if a then JArray (map elem_of cs)
      else JObject (combine (keys_from 0 (map item_name cs)) (map elem_of cs))
  end.

(** The tokens of the members of an object. *)
Fixpoint member_tokens (keys : list string) (values : list (list token))
  : list token :=
  match keys, values with
  | k :: ks, ts :: r => TkString k :: ts ++ member_tokens ks r
  | _, _ => []
  end.

(** The tokens of the value of a tree. *)
Fixpoint value_tokens (i : item) : list token :=
  match i with
  | Leaf _ v => [JSONOutputArchive.token_of v]
  | Branch _ a cs =>
      if a then TkStartArray :: flat_map value_tokens cs ++ [TkEndArray]
      else
        TkStartObject ::
        member_tokens (keys_from 0 (map item_name cs)) (map value_tokens cs) ++
        [TkEndObject]
  end.

(** Every scalar lies in the range of its type and is read back exactly,
    and the elements of a sequence come without a name. *)
Inductive good (read_back : double -> option double) : item -> Prop :=
| good_leaf n v :
    well_typed v = true -> exact_on read_back v -> good read_back (Leaf n v)
| good_branch n a cs :
    Forall (good read_back) cs ->
    (a = true -> Forall (fun c => item_name c = None) cs) ->
    good read_back (Branch n a cs).

(** What opening the level lazily emits before the first of [l], and the
    state of the level after them. *)
Definition lazy_opening (l : list item) (top : NodeType) : list token :=
  match l with
  | [] => []
  | _ :: _ => opening top
  end.

Definition top_after (l : list item) (top : NodeType) : NodeType :=
  match l with
  | [] => top
  | _ :: _ => opened top
  end.

(** One member written at an object level. *)
Definition writes_member (i : item) : Prop :=
  forall w c cs top nodes,
    is_array_level top = false ->
    JSONOutputArchive.run (map exec (calls_of i))
      (JSONOutputArchive.mkArchive w None (c :: cs) (top :: nodes)) =
    Some (JSONOutputArchive.mkArchive
            (w ++ opening top ++
             TkString (key_of (item_name i) c) :: value_tokens i)
            None (counter_after (item_name i) c :: cs) (InObject :: nodes)).

(** One element written at an array level. *)
Definition writes_element (i : item) : Prop :=
  forall w cs top nodes,
    is_array_level top = true ->
    item_name i = None ->
    JSONOutputArchive.run (map exec (calls_of i))
      (JSONOutputArchive.mkArchive w None cs (top :: nodes)) =
    Some (JSONOutputArchive.mkArchive (w ++ opening top ++ value_tokens i)
            None cs (InArray :: nodes)).

(** The parser reads the tokens of a value as that value. *)
Definition parses (read_back : double -> option double) (i : item) : Prop :=
  forall b, feed_all read_back b (value_tokens i) = put (elem_of i) b.

(** The load function of a name-value pair: [setNextName], then the
    value. *)
Definition named {A : Type} (n : option string) (m : JSONInputArchive.M A)
  : JSONInputArchive.M A :=
  match n with
  | Some s => (JSONInputArchive.setNextName (Some s) ;; m)%archive
  | None => m
  end.

(** The first [k] of the values, each read with [f]. *)
Fixpoint read_first (f : item -> JSONInputArchive.M item) (k : nat)
    (l : list item) {struct l} : JSONInputArchive.M (list item) :=
  match l, k with
  | c :: r, S k' =>
      (c' <- f c ;; r' <- read_first f k' r ;; ret (c' :: r'))%archive
  | _, _ => ret []
  end.

(** The calls the framework makes on the read side for a value shaped like
    [i]: a scalar is loaded with the overload of its type; the prologue of
    a compound is [startNode], its epilogue [finishNode]; a sequence loads
    its size tag and reads that many elements. *)
Fixpoint read_item (i : item) : JSONInputArchive.M item :=
  match i with
  | Leaf n v =>
      (v' <- named n (JSONInputArchive.loadValue (type_of v)) ;;
       ret (Leaf n v'))%archive
  | Branch n a cs =>
      (named n JSONInputArchive.startNode ;;
       size <- (if a then JSONInputArchive.loadSize
                else ret (List.length cs)) ;;
       cs' <- read_first read_item size cs ;;
       JSONInputArchive.finishNode ;;
       ret (Branch n a cs'))%archive
  end.

(** One member read at an object cursor. *)
Definition reads_member (i : item) : Prop :=
  forall doc it rest j c,
    JSONInputArchive.itsType it = JSONInputArchive.Object ->
    JSONInputArchive.itsObjectItCurrent it = j ->
    nth_error (JSONInputArchive.itsObjectRange it) j =
      Some (key_of (item_name i) c, elem_of i) ->
    read_item i (JSONInputArchive.mkArchive None doc (it :: rest)) =
    Return i
      (JSONInputArchive.mkArchive None doc
         (JSONInputArchive.set_object_current (S j) it :: rest)).

(** One element read at an array cursor. *)
Definition reads_element (i : item) : Prop :=
  forall doc it rest j,
    JSONInputArchive.itsType it = JSONInputArchive.Array ->
    JSONInputArchive.itsArrayItCurrent it = j ->
    nth_error (JSONInputArchive.itsArrayRange it) j = Some (elem_of i) ->
    item_name i = None ->
    read_item i (JSONInputArchive.mkArchive None doc (it :: rest)) =
    Return i
      (JSONInputArchive.mkArchive None doc
         (JSONInputArchive.set_array_current (S j) it :: rest)).

(** A record with a named scalar, a named sequence holding a scalar, a
    record and an empty sequence, an empty record and an unnamed number. *)
Definition sample_tree : list item :=
  [Leaf (Some "id") (VInt 7);
   Branch (Some "tags") true
     [Leaf None (VString "a"); Branch None false [Leaf None VNull];
      Branch None true []];
   Branch None false [];
   Leaf None (VUint64 (2 ^ 64 - 1))].

(** ** Invariants of the two archives *)

(** The two stacks of the write side go together, and only the level on top
    can still be unopened. *)
Definition levels_ok (ar : JSONOutputArchive.archive) : Prop :=
  JSONOutputArchive.itsNodeStack ar <> [] /\
  List.length (JSONOutputArchive.itsNameCounter ar) =
  List.length (JSONOutputArchive.itsNodeStack ar) /\
  Forall (fun n => opened n = n) (tl (JSONOutputArchive.itsNodeStack ar)).

(** The compounds a sequence of calls starts and does not finish. *)
Fixpoint unfinished (cs : list call) : Z :=
  match cs with
  | [] => 0
  | CallStart _ _ :: r => unfinished r + 1
  | CallFinish :: r => unfinished r - 1
  | CallSave _ _ :: r => unfinished r
  end.

(** The writer has as many compounds open as the node stack has levels
    opened: all those under the top, and the top when it is. *)
Definition depth_ok (ar : JSONOutputArchive.archive) : Prop :=
  levels_ok ar /\
  open_depth (JSONOutputArchive.itsWriter ar ++
              closing (hd StartObject (JSONOutputArchive.itsNodeStack ar))) =
  Z.of_nat (List.length (tl (JSONOutputArchive.itsNodeStack ar))).

(** Both positions of a cursor lie within their ranges. *)
Definition in_range (it : JSONInputArchive.Iterator) : Prop :=
  (JSONInputArchive.itsObjectItCurrent it <=
   JSONInputArchive.itsObjectItEnd it)%nat /\
  (JSONInputArchive.itsArrayItCurrent it <=
   JSONInputArchive.itsArrayItEnd it)%nat.

(** The cursor ranges over the children of the compound [e]. *)
Definition ranges_over (it : JSONInputArchive.Iterator) (e : element) : Prop :=
  match e with
  | JArray arr =>
      JSONInputArchive.itsArrayRange it = arr /\
      JSONInputArchive.itsObjectRange it = [] /\
      JSONInputArchive.itsType it =
        JSONInputArchive.itsType (JSONInputArchive.Iterator_array arr)
  | JObject obj =>
      JSONInputArchive.itsObjectRange it = obj /\
      JSONInputArchive.itsArrayRange it = [] /\
      JSONInputArchive.itsType it =
        JSONInputArchive.itsType (JSONInputArchive.Iterator_object obj)
  | _ => False
  end.

(** The cursor stack follows the document: the bottom cursor ranges over
    the root, every other one over the value its parent is on. *)
Fixpoint linked (doc : element) (stack : list JSONInputArchive.Iterator)
  : Prop :=
  match stack with
  | [] => False
  | it :: below =>
      match below with
      | [] => ranges_over it doc
      | parent :: _ =>
          (exists e,
             JSONInputArchive.value parent = Return e parent /\
             ranges_over it e) /\
          linked doc below
      end
  end.

Definition sound (ar : JSONInputArchive.archive) : Prop :=
  linked (JSONInputArchive.itsDocument ar)
    (JSONInputArchive.itsIteratorStack ar) /\
  Forall in_range (JSONInputArchive.itsIteratorStack ar).

(** A call that keeps the archive sound and has no undefined behaviour on a
    sound archive. *)
Definition safe {A : Type} (m : JSONInputArchive.M A) : Prop :=
  forall ar, sound ar ->
    match m ar with
    | Return _ ar' | Throw _ ar' => sound ar'
    | Undefined => False
    end.

(** The same cursor at another position within its range. *)
Definition moved (it it' : JSONInputArchive.Iterator) : Prop :=
  JSONInputArchive.itsObjectRange it' = JSONInputArchive.itsObjectRange it /\
  JSONInputArchive.itsArrayRange it' = JSONInputArchive.itsArrayRange it /\
  JSONInputArchive.itsType it' = JSONInputArchive.itsType it /\
  in_range it'.

(** A call that has no undefined behaviour when the cursor on top is within
    its range, and at most moves that cursor: the document and the cursors
    below are left as they were, whether the call returns or throws. *)
Definition keeps_level {A : Type} (m : JSONInputArchive.M A) : Prop :=
  forall p doc it rest,
    in_range it ->
    match m (JSONInputArchive.mkArchive p doc (it :: rest)) with
    | Return _ ar' | Throw _ ar' =>
        exists p' it',
          ar' = JSONInputArchive.mkArchive p' doc (it' :: rest) /\
          moved it it'
    | Undefined => False
    end.

(** The number of children the cursor ranges over. *)
Definition children (it : JSONInputArchive.Iterator) : nat :=
  (JSONInputArchive.itsObjectItEnd it + JSONInputArchive.itsArrayItEnd it)%nat.

(** What dereferencing throws on a cursor that is not on a value. *)
Definition exhausted (it : JSONInputArchive.Iterator) : exn :=
  match JSONInputArchive.itsType it with
  | JSONInputArchive.Null_ =>
      Exception
        "JSONInputArchive internal error: null or empty iterator to object or array!"
  | _ => Exception "No more objects in input"
  end.


(** ** The flavours of [long]

    [long] is [bits] wide, 32 or 64 depending on the platform. *)

(** [saveLong], signed: through [saveValue (int32_t)] when [long] is as wide
    as [int32_t], through [saveValue (int64_t)] otherwise. *)
Definition saveLong (bits l : Z) (ar : JSONOutputArchive.archive)
  : JSONOutputArchive.archive :=
  if bits =? 32
  then JSONOutputArchive.saveValue (VInt (cast_signed 32 l)) ar
  else JSONOutputArchive.saveValue (VInt64 (cast_signed 64 l)) ar.

(** [saveLong], unsigned. *)
Definition saveLong_unsigned (bits lu : Z) (ar : JSONOutputArchive.archive)
  : JSONOutputArchive.archive :=
  if bits =? 32
  then JSONOutputArchive.saveValue (VUint (cast_unsigned 32 lu)) ar
  else JSONOutputArchive.saveValue (VUint64 (cast_unsigned 64 lu)) ar.

(** What the framework does for a [long]: the prologue calls [writeName],
    the save function [saveValue], which forwards to [saveLong] (where
    [long] is itself [int] or [int64_t] the overload of that type is called
    directly, with the same effect). *)
Definition save_long (unsigned : bool) (bits l : Z)
    (ar : JSONOutputArchive.archive) : option JSONOutputArchive.archive :=
  match JSONOutputArchive.writeName ar with
  | Some ar1 =>
      Some (if unsigned then saveLong_unsigned bits l ar1
            else saveLong bits l ar1)
  | None => None
  end.

(** [loadLong], signed: the referenced [long] is read as [int32_t] or
    [int64_t], whichever has its width. *)
Definition loadLong (bits : Z) : JSONInputArchive.M Z :=
  if bits =? 32 then JSONInputArchive.loadValue_small_signed 32
  else JSONInputArchive.loadValue_int64.

(** [loadLong], unsigned. *)
Definition loadLong_unsigned (bits : Z) : JSONInputArchive.M Z :=
  if bits =? 32 then JSONInputArchive.loadValue_small_unsigned 32
  else JSONInputArchive.loadValue_uint64.

(** The overload chosen for a [long]: [loadLong] when [long] is at least as
    wide as [int64_t], the overload for small types otherwise. *)
Definition loadValue_long (unsigned : bool) (bits : Z)
  : JSONInputArchive.M Z :=
  if 64 <=? bits
  then if unsigned then loadLong_unsigned bits else loadLong bits
  else if unsigned then JSONInputArchive.loadValue_small_unsigned bits
       else JSONInputArchive.loadValue_small_signed bits.

(** The values of a [long] of [bits] bits. *)
Definition long_range (unsigned : bool) (bits l : Z) : Prop :=
  if unsigned then 0 <= l < 2 ^ bits
  else - 2 ^ (bits - 1) <= l < 2 ^ (bits - 1).

Arguments JSONInputArchive.name : simpl never.
Arguments JSONInputArchive.value : simpl never.
Arguments JSONInputArchive.advance : simpl never.
Arguments JSONInputArchive.Iterator_search : simpl never.

(** * Proofs *)

(** ** Sample runs *)

(** The RFC 4648 test vectors of base64. *)
Example base64_vectors :
  base64.encode [] = EmptyString /\
  base64.encode [Byte.x66] = "Zg==" /\
  base64.encode [Byte.x66; Byte.x6f] = "Zm8=" /\
  base64.encode [Byte.x66; Byte.x6f; Byte.x6f] = "Zm9v" /\
  base64.encode [Byte.x66; Byte.x6f; Byte.x6f; Byte.x62] = "Zm9vYg==" /\
  base64.decode "Zm9vYmE=" =
    [Byte.x66; Byte.x6f; Byte.x6f; Byte.x62; Byte.x61] /\
  base64.decode "Zm9vYmFy" =
    [Byte.x66; Byte.x6f; Byte.x6f; Byte.x62; Byte.x61; Byte.x72].
Proof. repeat split. Qed.

(** C strings, and [std::stoull] on a few inputs. *)
Example c_string_samples :
  c_str "name" = "name" /\
  c_str (String "a" (String Ascii.zero "b")) = "a" /\
  strcmp "a" (String "a" (String Ascii.zero "b")) = 0 /\
  strcmp "a" "b" = - 1 /\
  stoull "12x" = inr 12 /\
  stoull "  +7" = inr 7 /\
  stoull "-1" = inr (2 ^ 64 - 1) /\
  stoull "18446744073709551615" = inr (2 ^ 64 - 1) /\
  stoull "18446744073709551616" = inl (std_exception "stoull") /\
  stoull "x12" = inl (std_exception "stoull") /\
  stoull EmptyString = inl (std_exception "stoull").
Proof. repeat split. Qed.

Example to_string_samples :
  to_string 0 = "0" /\ to_string 10 = "10" /\
  to_string 4294967295 = "4294967295".
Proof. repeat split. Qed.

(** A record with a named field, a nested sequence and an unnamed field. *)
Example sample_document :
  option_map (parse Some)
    (JSONOutputArchive.output
       [JSONOutputArchive.save_nvp "id" (VUint64 (2 ^ 63));
        JSONOutputArchive.startNode;
        JSONOutputArchive.makeArray;
        JSONOutputArchive.save (VInt (-1));
        JSONOutputArchive.save (VBool true);
        JSONOutputArchive.finishNode;
        JSONOutputArchive.save VNull])
  = Some (Some (JObject
       [("id", JUint64 (2 ^ 63));
        ("value0", JArray [JInt64 (-1); JBool true]);
        ("value1", JNull)])).
Proof. reflexivity. Qed.

(** ** Integer ranges and casts *)

Lemma cast_signed_id w z :
  0 < w -> - 2 ^ (w - 1) <= z < 2 ^ (w - 1) -> cast_signed w z = z.
Proof.
  intros Hw Hz. unfold cast_signed.
  assert (E : 2 ^ w = 2 * 2 ^ (w - 1)).
  { replace w with (Z.succ (w - 1)) at 1 by lia. apply Z.pow_succ_r. lia. }
  rewrite Z.mod_small; lia.
Qed.

Ltac range_facts :=
  repeat match goal with
  | H : in_int32 _ = true |- _ =>
      unfold in_int32 in H; apply andb_true_iff in H; destruct H
  | H : in_uint32 _ = true |- _ =>
      unfold in_uint32 in H; apply andb_true_iff in H; destruct H
  | H : in_int64 _ = true |- _ =>
      unfold in_int64 in H; apply andb_true_iff in H; destruct H
  | H : in_uint64 _ = true |- _ =>
      unfold in_uint64 in H; apply andb_true_iff in H; destruct H
  | H : in_int64 _ = false |- _ =>
      unfold in_int64 in H; apply andb_false_iff in H
  | H : (_ <=? _) = true |- _ => apply Z.leb_le in H
  | H : (_ <? _) = true |- _ => apply Z.ltb_lt in H
  | H : (_ <=? _) = false |- _ => apply Z.leb_gt in H
  | H : (_ <? _) = false |- _ => apply Z.ltb_ge in H
  end.

Lemma in_int64_intro z : - 2 ^ 63 <= z < 2 ^ 63 -> in_int64 z = true.
Proof.
  intros H. unfold in_int64. apply andb_true_iff.
  rewrite Z.leb_le, Z.ltb_lt. lia.
Qed.

Lemma cast_signed_spec w z :
  0 < w ->
  - 2 ^ (w - 1) <= cast_signed w z < 2 ^ (w - 1) /\
  cast_signed w z mod 2 ^ w = z mod 2 ^ w.
Proof.
  intros Hw. unfold cast_signed.
  assert (E : 2 ^ w = 2 * 2 ^ (w - 1)).
  { replace w with (Z.succ (w - 1)) at 1 by lia. apply Z.pow_succ_r. lia. }
  assert (Hp : 0 < 2 ^ (w - 1)) by (apply Z.pow_pos_nonneg; lia).
  pose proof (Z.mod_pos_bound (z + 2 ^ (w - 1)) (2 ^ w) ltac:(lia)) as Hb.
  split; [lia|].
  rewrite Zminus_mod, Zmod_mod, <- Zminus_mod. f_equal. lia.
Qed.

(** ** The codec is lossless *)

Section Base64.

Import base64.
Local Open Scope N_scope.

Lemma char_at_spec n :
  n < 64 ->
  find (char_at n) = n /\ is_base64 (char_at n) = true /\
  Ascii.eqb (char_at n) "=" = false.
Proof.
  intros H.
  assert (E : n = N.of_nat (N.to_nat n)) by lia.
  assert (Hn : (N.to_nat n < 64)%nat) by lia.
  rewrite E. generalize dependent (N.to_nat n). clear.
  intros m _ Hm.
  do 64 (destruct m as [|m]; [vm_compute; auto|]). lia.
Qed.

Lemma group_roundtrip a b c :
  a < 256 -> b < 256 -> c < 256 ->
  let '(s0, s1, s2, s3) := group4 a b c in
  s0 < 64 /\ s1 < 64 /\ s2 < 64 /\ s3 < 64 /\
  group3 s0 s1 s2 s3 = (a, b, c).
Proof.
  intros Ha Hb Hc. unfold group4, group3.
  repeat match goal with |- _ /\ _ => split end;
    try (f_equal; [f_equal|]);
    zify; Z.to_euclidean_division_equations; lia.
Qed.

Lemma byte_of_to_N b : byte_of_N (Byte.to_N b) = b.
Proof.
  unfold byte_of_N. pose proof (Byte.to_N_bounded b).
  rewrite N.mod_small by lia. now rewrite Byte.of_to_N.
Qed.

Lemma to_N_lt b : Byte.to_N b < 256.
Proof. pose proof (Byte.to_N_bounded b). lia. Qed.

Lemma decode_group a b c rest :
  let '(s0, s1, s2, s3) := group4 (Byte.to_N a) (Byte.to_N b) (Byte.to_N c) in
  decode_from
    (String (char_at s0) (String (char_at s1)
       (String (char_at s2) (String (char_at s3) rest)))) []
  = a :: b :: c :: decode_from rest [].
Proof.
  pose proof (group_roundtrip _ _ _ (to_N_lt a) (to_N_lt b) (to_N_lt c)) as H.
  destruct (group4 (Byte.to_N a) (Byte.to_N b) (Byte.to_N c))
    as [[[s0 s1] s2] s3].
  destruct H as (H0 & H1 & H2 & H3 & E).
  destruct (char_at_spec s0 H0) as (F0 & B0 & P0).
  destruct (char_at_spec s1 H1) as (F1 & B1 & P1).
  destruct (char_at_spec s2 H2) as (F2 & B2 & P2).
  destruct (char_at_spec s3 H3) as (F3 & B3 & P3).
  cbn [decode_from]. rewrite P0, B0, P1, B1, P2, B2, P3, B3.
  cbn [negb andb app]. rewrite F0, F1, F2, F3, E.
  now rewrite !byte_of_to_N.
Qed.

Lemma decode_encode : forall data, decode (encode data) = data.
Proof.
  unfold decode.
  fix IH 1. intros [|a [|b [|c rest]]].
  - reflexivity.
  - cbn [encode].
    pose proof (group_roundtrip _ 0 0 (to_N_lt a) eq_refl eq_refl) as H.
    destruct (group4 (Byte.to_N a) 0 0) as [[[s0 s1] s2] s3].
    destruct H as (H0 & H1 & H2 & H3 & E).
    destruct (char_at_spec s0 H0) as (F0 & B0 & P0).
    destruct (char_at_spec s1 H1) as (F1 & B1 & P1).
    cbn [decode_from]. rewrite P0, B0, P1, B1.
    cbn [negb andb app Ascii.eqb Bool.eqb flush]. rewrite F0, F1.
    unfold group3 in *. injection E as Ea _ _.
    now rewrite Ea, byte_of_to_N.
  - cbn [encode].
    pose proof (group_roundtrip _ _ 0 (to_N_lt a) (to_N_lt b) eq_refl) as H.
    destruct (group4 (Byte.to_N a) (Byte.to_N b) 0) as [[[s0 s1] s2] s3].
    destruct H as (H0 & H1 & H2 & H3 & E).
    destruct (char_at_spec s0 H0) as (F0 & B0 & P0).
    destruct (char_at_spec s1 H1) as (F1 & B1 & P1).
    destruct (char_at_spec s2 H2) as (F2 & B2 & P2).
    cbn [decode_from]. rewrite P0, B0, P1, B1, P2, B2.
    cbn [negb andb app Ascii.eqb Bool.eqb flush]. rewrite F0, F1, F2.
    unfold group3 in *. injection E as Ea Eb _.
    now rewrite Ea, Eb, !byte_of_to_N.
  - cbn [encode].
    pose proof (decode_group a b c (encode rest)) as H.
    destruct (group4 (Byte.to_N a) (Byte.to_N b) (Byte.to_N c))
      as [[[s0 s1] s2] s3].
    rewrite H. now rewrite IH.
Qed.

End Base64.

(** ** Tokens and documents *)

Lemma open_depth_app ts1 ts2 :
  open_depth (ts1 ++ ts2) = open_depth ts1 + open_depth ts2.
Proof.
  induction ts1 as [|t ts1 IH]; [reflexivity|].
  destruct t; cbn [open_depth app]; lia.
Qed.

Lemma feed_scalar rb b t e :
  scalar_element rb t = Some e -> feed rb b t = put e b.
Proof.
  intros H. destruct t; cbn [scalar_element] in H; try discriminate;
    cbn [feed scalar_element]; rewrite ?H; try reflexivity.
  all: inversion H; reflexivity.
Qed.

Lemma parse_member rb k t e :
  scalar_element rb t = Some e ->
  parse rb [TkStartObject; TkString k; t; TkEndObject] = Some (JObject [(k, e)]).
Proof.
  intros H. unfold parse. simpl.
  destruct t; simpl in *; try discriminate; try rewrite H; simpl;
    try reflexivity; congruence.
Qed.

Lemma put_frames v b b' :
  put v b = Some b' -> List.length (frames b') = List.length (frames b).
Proof.
  unfold put. destruct b as [fs r]; cbn [root frames].
  destruct r; [discriminate|].
  destruct fs as [|[xs|ms [k|]] fs]; try (intros H; inversion H; reflexivity).
  destruct v; try discriminate. intros H; inversion H; reflexivity.
Qed.

Lemma feed_depth rb b t b' :
  feed rb b t = Some b' ->
  Z.of_nat (List.length (frames b')) =
  Z.of_nat (List.length (frames b)) + open_depth [t].
Proof.
  destruct b as [fs r].
  destruct t; cbn [feed open_depth root frames];
    try (destruct (scalar_element rb _); [|discriminate]; intros H;
         apply put_frames in H; cbn [frames] in H; lia).
  - destruct (opens _); [|discriminate]. intros H; inversion H.
    cbn [frames List.length]. lia.
  - destruct r; [discriminate|].
    destruct fs as [|[xs|ms [k|]] fs]; try discriminate.
    intros H. apply put_frames in H. cbn [frames List.length] in *. lia.
  - destruct (opens _); [|discriminate]. intros H; inversion H.
    cbn [frames List.length]. lia.
  - destruct r; [discriminate|].
    destruct fs as [|[xs|ms k] fs]; try discriminate.
    intros H. apply put_frames in H. cbn [frames List.length] in *. lia.
Qed.

Lemma feed_all_depth rb : forall ts b b',
  feed_all rb b ts = Some b' ->
  Z.of_nat (List.length (frames b')) =
  Z.of_nat (List.length (frames b)) + open_depth ts.
Proof.
  induction ts as [|t ts IH]; intros b b' H; cbn [feed_all] in H.
  - inversion H. cbn. lia.
  - destruct (feed rb b t) as [b1|] eqn:Hf; [|discriminate].
    apply IH in H. apply feed_depth in Hf.
    change (t :: ts) with ([t] ++ ts). rewrite open_depth_app. lia.
Qed.

(** A token sequence that leaves a compound open is not a document. *)
Lemma parse_closed rb ts e : parse rb ts = Some e -> open_depth ts = 0.
Proof.
  unfold parse. destruct (feed_all rb _ ts) as [b|] eqn:H; [|discriminate].
  apply feed_all_depth in H. cbn [frames List.length] in H.
  destruct (frames b); [|discriminate]. cbn in H. lia.
Qed.

Lemma feed_all_app rb ts1 : forall ts2 b,
  feed_all rb b (ts1 ++ ts2) =
  match feed_all rb b ts1 with
  | Some b1 => feed_all rb b1 ts2
  | None => None
  end.
Proof.
  induction ts1 as [|t ts1 IH]; intros ts2 b; [reflexivity|].
  cbn [app feed_all]. destruct (feed rb b t); [apply IH|reflexivity].
Qed.

(** Scalars fed into an open array pile up as its items. *)
Lemma feed_all_items rb : forall vs es xs fs,
  Forall2 (fun v e =>
             scalar_element rb (JSONOutputArchive.token_of v) = Some e)
    vs es ->
  feed_all rb (mkBuilder (FArray xs :: fs) None)
    (map JSONOutputArchive.token_of vs) =
  Some (mkBuilder (FArray (rev es ++ xs) :: fs) None).
Proof.
  induction vs as [|v vs IH]; intros es xs fs H; inversion H; subst.
  - reflexivity.
  - cbn [map feed_all]. rewrite (feed_scalar rb _ _ _ H2).
    cbn [put root frames]. rewrite (IH _ _ _ H4).
    cbn [rev]. now rewrite <- app_assoc.
Qed.

(** A well-typed scalar is read back from its own token as itself. *)
Lemma extract_token rb v :
  well_typed v = true -> exact_on rb v ->
  exists e, scalar_element rb (JSONOutputArchive.token_of v) = Some e /\
            extract (type_of v) e = inr v.
Proof.
  intros Hw Hx. destruct v; cbn [well_typed exact_on] in *;
    cbn [JSONOutputArchive.token_of type_of scalar_element extract].
  - eexists; split; reflexivity.
  - exists (JInt64 i). range_facts. unfold integer_element.
    rewrite in_int64_intro by lia. split; [reflexivity|].
    cbn. rewrite cast_signed_id; [reflexivity|lia|lia].
  - exists (JInt64 u). range_facts. unfold integer_element.
    rewrite in_int64_intro by lia. split; [reflexivity|].
    cbn [get_uint64]. destruct (Z.ltb_spec u 0); [lia|].
    unfold cast_unsigned. rewrite Z.mod_small by lia. reflexivity.
  - exists (JInt64 i). unfold integer_element. rewrite Hw.
    split; reflexivity.
  - unfold integer_element. rewrite Hw.
    destruct (in_int64 u) eqn:Hi; eexists; (split; [reflexivity|]).
    + range_facts. cbn [get_uint64].
      destruct (Z.ltb_spec u 0); [lia|reflexivity].
    + reflexivity.
  - exists (JDouble d). rewrite Hx. split; reflexivity.
  - eexists; split; reflexivity.
  - eexists; split; reflexivity.
Qed.


(** ** The write side *)

Section WriteSide.

Import JSONOutputArchive.

Lemma output_save v :
  output [save v] =
  Some [TkStartObject; TkString "value0"; token_of v; TkEndObject].
Proof. reflexivity. Qed.

Lemma output_save_nvp n v :
  output [save_nvp n v] =
  Some [TkStartObject; TkString n; token_of v; TkEndObject].
Proof. reflexivity. Qed.


Lemma output_save_exotic T (format : T -> string) (t : T) :
  output [save_exotic format t] =
  Some [TkStartObject; TkString "value0"; TkString (format t); TkEndObject].
Proof. reflexivity. Qed.

Lemma output_three a b c va vb vc :
  output [save_nvp a va; save_nvp b vb; save_nvp c vc] =
  Some [TkStartObject; TkString a; token_of va; TkString b; token_of vb;
        TkString c; token_of vc; TkEndObject].
Proof. reflexivity. Qed.

Lemma app_assoc1 {A} (l : list A) x y : (l ++ [x]) ++ [y] = l ++ [x; y].
Proof. now rewrite <- app_assoc. Qed.

Lemma writeName_object w p c cs top nodes :
  is_array_level top = false ->
  writeName (mkArchive w p (c :: cs) (top :: nodes)) =
  Some (mkArchive (w ++ opening top ++ [TkString (key_of p c)]) None
          (counter_after p c :: cs) (InObject :: nodes)).
Proof.
  intros Ht. destruct top; try discriminate; destruct p;
    cbv [writeName set_top write saveValue setNextName token_of itsWriter
         itsNextName itsNameCounter itsNodeStack tl key_of counter_after
         opening];
    rewrite <- ?app_assoc; reflexivity.
Qed.

Lemma writeName_array w p cs top nodes :
  is_array_level top = true ->
  writeName (mkArchive w p cs (top :: nodes)) =
  Some (mkArchive (w ++ opening top) p cs (InArray :: nodes)).
Proof.
  intros Ht. destruct top; try discriminate;
    cbv [writeName set_top write saveValue setNextName token_of itsWriter
         itsNextName itsNameCounter itsNodeStack tl opening];
    rewrite ?app_nil_r; reflexivity.
Qed.

Lemma save_object v w p c cs top nodes :
  is_array_level top = false ->
  save v (mkArchive w p (c :: cs) (top :: nodes)) =
  Some (mkArchive (w ++ opening top ++ [TkString (key_of p c); token_of v])
          None (counter_after p c :: cs) (InObject :: nodes)).
Proof.
  intros Ht. unfold save. rewrite writeName_object by exact Ht.
  cbv [saveValue write itsWriter itsNextName itsNameCounter itsNodeStack].
  now rewrite <- !app_assoc.
Qed.

Lemma save_array v w p cs top nodes :
  is_array_level top = true ->
  save v (mkArchive w p cs (top :: nodes)) =
  Some (mkArchive (w ++ opening top ++ [token_of v]) p cs (InArray :: nodes)).
Proof.
  intros Ht. unfold save. rewrite writeName_array by exact Ht.
  cbv [saveValue write itsWriter itsNextName itsNameCounter itsNodeStack].
  now rewrite <- !app_assoc.
Qed.

(** *** Unnamed members *)

(** C5.  With no name pending, [writeName] at an object level emits the key
    "value" followed by the level's counter and increments the counter; a
    started node begins with counter zero; so three unnamed scalars in one
    compound get the keys "value0", "value1", "value2" in that order. *)
Theorem unnamed_members_are_numbered :
  (forall w c cs top nodes,
     is_array_level top = false ->
     writeName (mkArchive w None (c :: cs) (top :: nodes)) =
     Some (mkArchive
             (w ++ opening top ++ [TkString ("value" ++ to_string c)%string])
             None ((c + 1) mod 2 ^ 32 :: cs) (InObject :: nodes))) /\
  (forall ar ar1,
     startNode ar = Some ar1 ->
     exists cs nodes,
       itsNameCounter ar1 = 0 :: cs /\ itsNodeStack ar1 = StartObject :: nodes) /\
  (forall ar ar1 v1 v2 v3,
     itsNextName ar = None ->
     startNode ar = Some ar1 ->
     run [save v1; save v2; save v3] ar1 =
     Some (mkArchive
             (itsWriter ar1 ++
              [TkStartObject; TkString "value0"; token_of v1;
               TkString "value1"; token_of v2;
               TkString "value2"; token_of v3])
             None (3 :: tl (itsNameCounter ar1))
             (InObject :: tl (itsNodeStack ar1)))) /\
  (forall v1 v2 v3,
     output [save v1; save v2; save v3] =
     Some [TkStartObject; TkString "value0"; token_of v1;
           TkString "value1"; token_of v2;
           TkString "value2"; token_of v3; TkEndObject]).
Proof.
  split; [|split; [|split]]; [| | |reflexivity].
  - intros w c cs top nodes Ht. now rewrite writeName_object.
  - intros ar ar1 H. unfold startNode in H.
    destruct (writeName ar) as [a|]; [|discriminate].
    inversion H; subst. cbn. eauto.
  - intros ar ar1 v1 v2 v3 Hp H. unfold startNode in H.
    destruct (writeName ar) as [a|] eqn:Hw; [|discriminate].
    assert (Ha : itsNextName a = None).
    { destruct ar as [w p cs ns]. cbn in Hp. subst p.
      destruct ns as [|top nodes]; [discriminate|].
      destruct (is_array_level top) eqn:Ht.
      - rewrite writeName_array in Hw by auto. now inversion Hw.
      - destruct cs as [|c cs]; [destruct top; discriminate|].
        rewrite writeName_object in Hw by auto. now inversion Hw. }
    inversion H; subst. cbn [itsNameCounter itsNodeStack itsWriter tl].
    rewrite Ha. cbn [run].
    rewrite save_object by reflexivity.
    rewrite save_object by reflexivity.
    rewrite save_object by reflexivity.
    cbv [opening key_of counter_after].
    repeat rewrite <- app_assoc. reflexivity.
Qed.

Lemma unnamed_members_are_numbered_witness :
  run [startNode; save (VInt 7); save (VBool true); save VNull] construct =
  Some (mkArchive
          [TkStartObject; TkString "value0";
           TkStartObject; TkString "value0"; TkInt 7;
           TkString "value1"; TkBool true; TkString "value2"; TkNull]
          None [3; 1] [InObject; InObject]).
Proof.
  exact (proj1 (proj2 (proj2 unnamed_members_are_numbered))
           construct
           (mkArchive [TkStartObject; TkString "value0"] None [0; 1]
              [StartObject; InObject])
           (VInt 7) (VBool true) VNull eq_refl eq_refl).
Defined.

Lemma destroy_spec ar top nodes :
  itsNodeStack ar = top :: nodes ->
  destroy ar =
  Some (mkArchive (itsWriter ar ++ closing top) (itsNextName ar)
          (itsNameCounter ar) (itsNodeStack ar)).
Proof.
  destruct ar as [w p cs ns]. cbn [itsNodeStack]. intros ->.
  destruct top; cbn; rewrite ?app_nil_r; reflexivity.
Qed.

Lemma nested_spec v : forall n w cs nodes,
  exists w' cs' nodes',
    nested n v (mkArchive w None (0 :: cs) (StartObject :: nodes)) =
    Some (mkArchive w' None cs' (InObject :: nodes')) /\
    open_depth w' = open_depth w + Z.of_nat n + 1 /\
    List.length nodes' = (n + List.length nodes)%nat.
Proof.
  induction n as [|n IH]; intros w cs nodes.
  - cbn [nested]. rewrite save_object by reflexivity.
    do 3 eexists. split; [reflexivity|]. split; [|reflexivity].
    rewrite open_depth_app. destruct v; cbn; lia.
  - cbn [nested]. unfold startNode.
    rewrite writeName_object by reflexivity.
    cbn [itsWriter itsNextName itsNameCounter itsNodeStack].
    destruct (IH (w ++ opening StartObject ++ [TkString (key_of None 0)])
                (counter_after None 0 :: cs) (InObject :: nodes))
      as (w' & cs' & nodes' & Hn & Hd & Hl).
    exists w', cs', nodes'. split; [exact Hn|]. split.
    + rewrite Hd, !open_depth_app. cbn. lia.
    + rewrite Hl. cbn. lia.
Qed.


(** *** Empty compounds, written *)

Lemma startNode_object w p c cs top nodes :
  is_array_level top = false ->
  startNode (mkArchive w p (c :: cs) (top :: nodes)) =
  Some (mkArchive (w ++ opening top ++ [TkString (key_of p c)]) None
          (0 :: counter_after p c :: cs) (StartObject :: InObject :: nodes)).
Proof.
  intros Ht. unfold startNode. now rewrite writeName_object by exact Ht.
Qed.

Lemma startNode_array w p cs top nodes :
  is_array_level top = true ->
  startNode (mkArchive w p cs (top :: nodes)) =
  Some (mkArchive (w ++ opening top) p (0 :: cs)
          (StartObject :: InArray :: nodes)).
Proof.
  intros Ht. unfold startNode. now rewrite writeName_array by exact Ht.
Qed.

Lemma startNode_pushes ar ar1 :
  startNode ar = Some ar1 ->
  exists cs nodes,
    itsNameCounter ar1 = 0 :: cs /\ itsNodeStack ar1 = StartObject :: nodes.
Proof.
  unfold startNode. destruct (writeName ar) as [a|]; [|discriminate].
  intros H; inversion H; subst. cbn. eauto.
Qed.

Lemma empty_node_written ar ar1 :
  startNode ar = Some ar1 ->
  finishNode ar1 =
    Some (mkArchive (itsWriter ar1 ++ [TkStartObject; TkEndObject])
            (itsNextName ar1) (tl (itsNameCounter ar1))
            (tl (itsNodeStack ar1))) /\
  match makeArray ar1 with
  | Some ar2 =>
      finishNode ar2 =
      Some (mkArchive (itsWriter ar1 ++ [TkStartArray; TkEndArray])
              (itsNextName ar1) (tl (itsNameCounter ar1))
              (tl (itsNodeStack ar1)))
  | None => False
  end.
Proof.
  intros H. destruct (startNode_pushes ar ar1 H) as (cs & nodes & Hc & Hn).
  destruct ar1 as [w p cs1 ns1]. cbn in Hc, Hn. subst cs1 ns1.
  split; cbn; now rewrite app_assoc1.
Qed.

Lemma output_empty_object :
  output [startNode; finishNode] =
  Some [TkStartObject; TkString "value0"; TkStartObject; TkEndObject;
        TkEndObject].
Proof. reflexivity. Qed.

Lemma output_empty_array :
  output [startNode; makeArray; finishNode] =
  Some [TkStartObject; TkString "value0"; TkStartArray; TkEndArray;
        TkEndObject].
Proof. reflexivity. Qed.

Lemma output_saveBinaryValue data name :
  output [saveBinaryValue data name] =
  Some [TkStartObject; TkString (key_of name 0);
        TkString (base64.encode data); TkEndObject].
Proof. destruct name; reflexivity. Qed.

(** *** The pending name, write side *)

(** C8 as stated fails: at an array level [writeName] returns with the
    name still pending, and the name becomes the key of the first member of
    the node started next. *)
Lemma pending_name_counterexample :
  option_map itsNextName
    (run [makeArray; save (VInt 1);
          fun ar => Some (setNextName (Some "x") ar);
          writeName] construct)
  = Some (Some "x") /\
  option_map itsWriter
    (run [makeArray; save (VInt 1);
          fun ar => Some (setNextName (Some "x") ar);
          save (VInt 2); startNode; save (VInt 3)] construct)
  = Some [TkStartArray; TkInt 1; TkInt 2;
          TkStartObject; TkString "x"; TkInt 3].
Proof. split; reflexivity. Qed.

Lemma writeName_clears_at_object w p c cs top nodes :
  is_array_level top = false ->
  exists ar,
    writeName (mkArchive w p (c :: cs) (top :: nodes)) = Some ar /\
    itsNextName ar = None /\
    itsWriter ar = w ++ opening top ++ [TkString (key_of p c)].
Proof.
  intros Ht. eexists. split; [now apply writeName_object|]. split; reflexivity.
Qed.

(** *** Sequences, written *)

Lemma run_app calls1 : forall calls2 ar,
  run (calls1 ++ calls2) ar =
  match run calls1 ar with
  | Some ar1 => run calls2 ar1
  | None => None
  end.
Proof.
  induction calls1 as [|f calls1 IH]; intros calls2 ar; [reflexivity|].
  cbn [app run]. destruct (f ar); [apply IH|reflexivity].
Qed.

Lemma run_saves_in_array : forall vs w p cs nodes,
  run (map save vs) (mkArchive w p cs (InArray :: nodes)) =
  Some (mkArchive (w ++ map token_of vs) p cs (InArray :: nodes)).
Proof.
  induction vs as [|v vs IH]; intros w p cs nodes; cbn [map run].
  - now rewrite app_nil_r.
  - rewrite save_array by reflexivity. cbn [opening app].
    rewrite IH. now rewrite <- app_assoc.
Qed.

Lemma run_sequence vs w p c cs nodes :
  run ([makeArray] ++ map save vs ++ [finishNode])
    (mkArchive w p (c :: cs) (StartObject :: nodes)) =
  Some (mkArchive (w ++ [TkStartArray] ++ map token_of vs ++ [TkEndArray])
          p cs nodes).
Proof.
  cbn [app run].
  cbv [makeArray itsNodeStack set_top itsWriter itsNextName itsNameCounter tl].
  destruct vs as [|v vs].
  - cbn. now rewrite app_assoc1.
  - cbn [map app run]. rewrite save_array by reflexivity.
    rewrite run_app, run_saves_in_array. cbn [run].
    unfold finishNode.
    cbn [itsNodeStack itsNameCounter itsWriter itsNextName write opening].
    repeat (rewrite <- app_assoc; cbn [app]). reflexivity.
Qed.

Lemma output_sequence vs :
  output ([startNode; makeArray] ++ map save vs ++ [finishNode]) =
  Some ([TkStartObject; TkString "value0"; TkStartArray] ++
        map token_of vs ++ [TkEndArray; TkEndObject]).
Proof.
  unfold output.
  change ([startNode; makeArray] ++ map save vs ++ [finishNode])
    with (startNode :: ([makeArray] ++ map save vs ++ [finishNode])).
  cbn [run].
  change (startNode construct)
    with (Some (mkArchive [TkStartObject; TkString "value0"] None [0; 1]
                  [StartObject; InObject])).
  cbv iota beta. rewrite run_sequence.
  cbn [destroy itsNodeStack write itsWriter].
  repeat (rewrite <- app_assoc; cbn [app]). reflexivity.
Qed.

End WriteSide.

(** ** Disciplined use of the write side *)

Section Discipline.

Import JSONOutputArchive.
Variable rb : double -> option double.

Lemma awaiting_opens nodes fs :
  awaiting nodes fs -> opens (mkBuilder fs None) = true.
Proof.
  destruct nodes as [|[] nodes], fs as [|[xs|ms [k|]] fs]; cbn;
    try contradiction; reflexivity.
Qed.

Lemma with_name_stack name ar :
  itsNodeStack (with_name name ar) = itsNodeStack ar /\
  itsNameCounter (with_name name ar) = itsNameCounter ar /\
  itsWriter (with_name name ar) = itsWriter ar.
Proof. destruct name; repeat split. Qed.

(** Feeding the tokens a write appends. *)
Lemma feed_more ar b ts :
  feed_all rb (mkBuilder [] None) (itsWriter ar) = Some b ->
  feed_all rb (mkBuilder [] None) (itsWriter ar ++ ts) = feed_all rb b ts.
Proof. intros H. now rewrite feed_all_app, H. Qed.

Lemma save_step name v ar top below :
  consistent rb ar ->
  itsNodeStack ar = top :: below ->
  readable rb (CallSave name v) ->
  exists ar',
    exec (CallSave name v) ar = Some ar' /\
    consistent rb ar' /\
    itsNodeStack ar' = opened top :: below.
Proof.
  intros (b & Hf & Hr & Hs & Hl) Hst (e & He). cbn [exec].
  destruct (with_name_stack name ar) as (E1 & E2 & E3).
  destruct (with_name name ar) as [w p cs ns] eqn:Hw.
  cbn [itsNodeStack itsNameCounter itsWriter] in E1, E2, E3.
  rewrite Hst in E1. subst ns. rewrite <- E3 in Hf. rewrite <- E2 in Hl.
  rewrite Hst in Hl, Hs. clear E2 E3 Hw Hst.
  destruct b as [fs r]. cbn [root frames] in *. subst r.
  destruct (is_array_level top) eqn:Ht.
  - rewrite save_array by exact Ht. eexists. split; [reflexivity|].
    split; [|destruct top; try discriminate; reflexivity].
    unfold consistent. cbn [itsWriter itsNodeStack itsNameCounter].
    rewrite (feed_more (mkArchive w p cs (top :: below)) _ _ Hf).
    destruct top; try discriminate; cbn [in_step opening app] in *.
    + (* StartArray *)
      cbn [feed_all feed]. rewrite (awaiting_opens _ _ Hs).
      cbn [frames]. rewrite (feed_scalar rb _ _ _ He). cbn [put root frames].
      eexists. split; [reflexivity|]. cbn. auto.
    + (* InArray *)
      destruct fs as [|[xs|ms k] fs]; try contradiction.
      cbn [feed_all]. rewrite (feed_scalar rb _ _ _ He). cbn [put root frames].
      eexists. split; [reflexivity|]. cbn. auto.
  - destruct cs as [|c cs]; [discriminate|].
    rewrite save_object by exact Ht. eexists. split; [reflexivity|].
    split; [|destruct top; try discriminate; reflexivity].
    unfold consistent. cbn [itsWriter itsNodeStack itsNameCounter].
    rewrite (feed_more (mkArchive w p (c :: cs) (top :: below)) _ _ Hf).
    destruct top; try discriminate; cbn [in_step opening app] in *.
    + (* StartObject *)
      cbn [feed_all feed]. rewrite (awaiting_opens _ _ Hs).
      cbn [frames scalar_element put root].
      rewrite (feed_scalar rb _ _ _ He). cbn [put root frames].
      eexists. split; [reflexivity|]. cbn. auto.
    + (* InObject *)
      destruct fs as [|[xs|ms [k|]] fs]; try contradiction.
      cbn [feed_all feed scalar_element put root frames].
      rewrite (feed_scalar rb _ _ _ He). cbn [put root frames].
      eexists. split; [reflexivity|]. cbn. auto.
Qed.

Lemma put_awaiting v parent below fs :
  awaiting (parent :: below) fs ->
  exists b,
    put v (mkBuilder fs None) = Some b /\ root b = None /\
    in_step (parent :: below) (frames b).
Proof.
  destruct parent, fs as [|[xs|ms [k|]] fs]; cbn; try contradiction;
    intros H; eexists; (split; [reflexivity|]); cbn; auto.
Qed.

Lemma start_step name array ar top below :
  consistent rb ar ->
  itsNodeStack ar = top :: below ->
  exists ar',
    exec (CallStart name array) ar = Some ar' /\
    consistent rb ar' /\
    itsNodeStack ar' =
      (if array then StartArray else StartObject) :: opened top :: below.
Proof.
  intros (b & Hf & Hr & Hs & Hl) Hst. cbn [exec].
  destruct (with_name_stack name ar) as (E1 & E2 & E3).
  destruct (with_name name ar) as [w p cs ns] eqn:Hw.
  cbn [itsNodeStack itsNameCounter itsWriter] in E1, E2, E3.
  rewrite Hst in E1. subst ns. rewrite <- E3 in Hf. rewrite <- E2 in Hl.
  rewrite Hst in Hl, Hs. clear E2 E3 Hw Hst.
  destruct b as [fs r]. cbn [root frames] in *. subst r.
  destruct (is_array_level top) eqn:Ht.
  - rewrite startNode_array by exact Ht.
    exists (mkArchive (w ++ opening top) p (0 :: cs)
              ((if array then StartArray else StartObject)
               :: InArray :: below)).
    split; [destruct array; reflexivity|].
    split; [|destruct top; try discriminate; reflexivity].
    unfold consistent. cbn [itsWriter itsNodeStack itsNameCounter].
    rewrite (feed_more (mkArchive w p cs (top :: below)) _ _ Hf).
    destruct top; try discriminate; cbn [in_step opening app] in *.
    + cbn [feed_all feed]. rewrite (awaiting_opens _ _ Hs). cbn [frames].
      eexists. split; [reflexivity|]. destruct array; cbn; auto.
    + destruct fs as [|[xs|ms k] fs]; try contradiction.
      cbn [feed_all]. eexists. split; [reflexivity|].
      destruct array; cbn; auto.
  - destruct cs as [|c cs]; [discriminate|].
    rewrite startNode_object by exact Ht.
    exists (mkArchive (w ++ opening top ++ [TkString (key_of p c)]) None
              (0 :: counter_after p c :: cs)
              ((if array then StartArray else StartObject)
               :: InObject :: below)).
    split; [destruct array; reflexivity|].
    split; [|destruct top; try discriminate; reflexivity].
    unfold consistent. cbn [itsWriter itsNodeStack itsNameCounter].
    rewrite (feed_more (mkArchive w p (c :: cs) (top :: below)) _ _ Hf).
    destruct top; try discriminate; cbn [in_step opening app] in *.
    + cbn [feed_all feed]. rewrite (awaiting_opens _ _ Hs).
      cbn [frames scalar_element put root].
      eexists. split; [reflexivity|]. destruct array; cbn; auto.
    + destruct fs as [|[xs|ms [k|]] fs]; try contradiction.
      cbn [feed_all feed scalar_element put root frames].
      eexists. split; [reflexivity|]. destruct array; cbn; auto.
Qed.

Lemma finish_step ar top parent below :
  consistent rb ar ->
  itsNodeStack ar = top :: parent :: below ->
  exists ar',
    exec CallFinish ar = Some ar' /\
    consistent rb ar' /\
    itsNodeStack ar' = parent :: below.
Proof.
  intros (b & Hf & Hr & Hs & Hl) Hst. cbn [exec].
  destruct ar as [w p cs ns]. cbn [itsNodeStack itsNameCounter itsWriter] in *.
  subst ns. destruct cs as [|c cs]; [discriminate|].
  destruct b as [fs r]. cbn [root frames] in *. subst r.
  unfold finishNode. cbn [itsNodeStack itsNameCounter].
  eexists. split; [reflexivity|]. split; [|reflexivity].
  unfold consistent. cbn [itsWriter itsNodeStack itsNameCounter].
  assert (Hlen : List.length cs = List.length (parent :: below))
    by (cbn in *; lia).
  destruct top; cbn [write itsWriter in_step] in *.
  - (* StartObject *)
    rewrite app_assoc1.
    rewrite (feed_more (mkArchive w p (c :: cs) []) _ _ Hf).
    cbn [feed_all feed]. rewrite (awaiting_opens _ _ Hs). cbn [frames root].
    destruct (put_awaiting (JObject (rev [])) _ _ _ Hs) as (b' & Hp & Hr' & Hi).
    rewrite Hp. eauto.
  - (* InObject *)
    destruct fs as [|[xs|ms [k|]] fs]; try contradiction.
    rewrite (feed_more (mkArchive w p (c :: cs) []) _ _ Hf).
    cbn [feed_all feed frames root].
    destruct (put_awaiting (JObject (rev ms)) _ _ _ Hs) as (b' & Hp & Hr' & Hi).
    rewrite Hp. eauto.
  - (* StartArray *)
    rewrite app_assoc1.
    rewrite (feed_more (mkArchive w p (c :: cs) []) _ _ Hf).
    cbn [feed_all feed]. rewrite (awaiting_opens _ _ Hs). cbn [frames root].
    destruct (put_awaiting (JArray (rev [])) _ _ _ Hs) as (b' & Hp & Hr' & Hi).
    rewrite Hp. eauto.
  - (* InArray *)
    destruct fs as [|[xs|ms k] fs]; try contradiction.
    rewrite (feed_more (mkArchive w p (c :: cs) []) _ _ Hf).
    cbn [feed_all feed frames root].
    destruct (put_awaiting (JArray (rev xs)) _ _ _ Hs) as (b' & Hp & Hr' & Hi).
    rewrite Hp. eauto.
Qed.

Lemma opened_opened n : opened (opened n) = opened n.
Proof. now destruct n. Qed.

Lemma balanced_run cs :
  balanced cs ->
  Forall (readable rb) cs ->
  forall ar top below,
    consistent rb ar ->
    itsNodeStack ar = top :: below ->
    exists ar',
      run (map exec cs) ar = Some ar' /\
      consistent rb ar' /\
      itsNodeStack ar' =
        match cs with [] => top | _ :: _ => opened top end :: below.
Proof.
  induction 1 as [|name v rest _ IH|name array body rest _ IHb _ IHr];
    intros Hok ar top below Hc Hst.
  - exists ar. auto.
  - inversion Hok as [|? ? Hv Hrest]; subst.
    destruct (save_step name v ar top below Hc Hst Hv) as (ar1 & E1 & C1 & S1).
    destruct (IH Hrest ar1 _ _ C1 S1) as (ar2 & E2 & C2 & S2).
    exists ar2. cbn [map run]. rewrite E1. split; [exact E2|].
    split; [exact C2|]. rewrite S2. destruct rest; now rewrite ?opened_opened.
  - inversion Hok as [|? ? _ Hrest0]; subst.
    apply Forall_app in Hrest0. destruct Hrest0 as [Hbody Hfin].
    inversion Hfin as [|? ? _ Hrest]; subst.
    destruct (start_step name array ar top below Hc Hst) as (ar1 & E1 & C1 & S1).
    destruct (IHb Hbody ar1 _ _ C1 S1) as (ar2 & E2 & C2 & S2).
    destruct (finish_step ar2 _ _ _ C2 S2) as (ar3 & E3 & C3 & S3).
    destruct (IHr Hrest ar3 _ _ C3 S3) as (ar4 & E4 & C4 & S4).
    exists ar4. cbn [map run]. rewrite E1, map_app, run_app, E2.
    cbn [map run]. rewrite E3. split; [exact E4|].
    split; [exact C4|]. rewrite S4. destruct rest; now rewrite ?opened_opened.
Qed.

Lemma consistent_construct : consistent rb construct.
Proof. exists (mkBuilder [] None). cbn. auto. Qed.

(** Calls in which every started compound is finished leave only the root
    open, and the destructor completes the document. *)
Lemma balanced_output_parses cs :
  balanced cs -> cs <> [] -> Forall (readable rb) cs ->
  exists ts members,
    output (map exec cs) = Some ts /\
    parse rb ts = Some (JObject members).
Proof.
  intros Hb Hne Hok.
  destruct (balanced_run cs Hb Hok construct StartObject []
              consistent_construct eq_refl) as (ar & Hrun & Hc & Hst).
  destruct cs as [|c cs]; [contradiction|]. cbn [opened] in Hst.
  destruct Hc as (b & Hf & Hr & Hs & _). rewrite Hst in Hs.
  destruct b as [fs r]. cbn [root frames in_step] in *. subst r.
  destruct fs as [|[xs|ms [k|]] [|f fs]]; try contradiction.
  exists (itsWriter ar ++ [TkEndObject]), (rev ms).
  unfold output. rewrite Hrun. unfold destroy. rewrite Hst.
  split; [reflexivity|].
  unfold parse. rewrite (feed_more ar _ _ Hf). reflexivity.
Qed.

End Discipline.

(** ** C strings *)

Lemma c_str_idempotent : forall s, c_str (c_str s) = c_str s.
Proof.
  induction s as [| c r IH]; [reflexivity |]. cbn [c_str].
  destruct (Ascii.eqb c Ascii.zero) eqn:E; [reflexivity |].
  cbn [c_str]. now rewrite E, IH.
Qed.

Lemma strcmp_zero lhs rhs : strcmp lhs rhs = 0 <-> c_str lhs = c_str rhs.
Proof.
  unfold strcmp. destruct (String.eqb_spec (c_str lhs) (c_str rhs)) as [E | E].
  - tauto.
  - split; [| contradiction].
    now destruct (String.ltb (c_str lhs) (c_str rhs)).
Qed.

Lemma strcmp_same lhs rhs :
  c_str lhs = c_str rhs -> (strcmp lhs rhs =? 0) = true.
Proof. intros E. apply Z.eqb_eq. now apply strcmp_zero. Qed.

Lemma strcmp_differ lhs rhs :
  c_str lhs <> c_str rhs -> (strcmp lhs rhs =? 0) = false.
Proof. intros E. apply Z.eqb_neq. intros H. now apply E, strcmp_zero. Qed.

(** ** The read side *)

Section ReadSide.

Import JSONInputArchive.
Local Open Scope archive_scope.

Ltac step_archive :=
  cbv [load bind search getNodeName back ret throw value_of set_name
       set_stack emplace_back setNextName itsNextName itsIteratorStack
       itsDocument startNode push_children].

(** Reading at the current position. *)
Lemma load_here {A} (get : element -> simdjson_result A) doc it rest e x :
  value it = Return e it ->
  get e = inr x ->
  load get (mkArchive None doc (it :: rest)) =
  Return x (mkArchive None doc (advance it :: rest)).
Proof.
  intros Hv Hg. step_archive. rewrite Hv. step_archive. rewrite Hg. reflexivity.
Qed.

Lemma load_named_here {A} (get : element -> simdjson_result A) doc it rest n e x :
  name it = Some n ->
  value it = Return e it ->
  get e = inr x ->
  load get (mkArchive (Some n) doc (it :: rest)) =
  Return x (mkArchive None doc (advance it :: rest)).
Proof.
  intros Hn Hv Hg. step_archive.
  rewrite Hn. rewrite (strcmp_same n n eq_refl). cbn [negb]. step_archive.
  rewrite Hv. step_archive. rewrite Hg. reflexivity.
Qed.

Lemma loadValue_decompose t ar :
  loadValue t ar = (search ;; read_current t) ar.
Proof.
  destruct t;
    cbv [loadValue loadValue_bool loadValue_small_signed
         loadValue_small_unsigned loadValue_int64 loadValue_uint64
         loadValue_double loadValue_string loadValue_nullptr load bind
         read_current ret throw value_of map_result RAPIDJSON_ASSERT extract];
    destruct (search ar) as [[] s|ex s|]; try reflexivity;
    destruct (back value s) as [e s1|ex s1|]; try reflexivity;
    match goal with
    | |- context [match ?g e with _ => _ end] => destruct (g e)
    end; try reflexivity;
    destruct (back _ s1); reflexivity.
Qed.

Lemma scan_NoDup n : forall ms i0 j e,
  NoDup (map fst ms) -> nth_error ms j = Some (n, e) ->
  scan n ms i0 = ((i0 + j)%nat, true).
Proof.
  induction ms as [|[k e0] ms IH]; intros i0 j e Hnd Hj.
  - destruct j; discriminate.
  - destruct j as [|j]; cbn [nth_error] in Hj.
    + inversion Hj; subst. cbn [scan]. rewrite String.eqb_refl.
      f_equal. lia.
    + cbn [map fst] in Hnd. inversion Hnd as [|? ? Hk Hnd']; subst.
      assert (Hkn : k <> n).
      { intros ->. apply Hk. apply nth_error_In in Hj.
        change n with (fst (n, e)). now apply in_map. }
      cbn [scan]. rewrite (proj2 (String.eqb_neq k n) Hkn).
      rewrite (IH (S i0) j e Hnd' Hj). f_equal. lia.
Qed.

Lemma scan_absent n : forall ms i0,
  ~ In n (map fst ms) -> scan n ms i0 = ((i0 + List.length ms)%nat, false).
Proof.
  induction ms as [|[k e0] ms IH]; intros i0 Hn.
  - cbn. f_equal. lia.
  - cbn [scan]. cbn [map fst] in Hn.
    assert (Hkn : k <> n) by (intros ->; apply Hn; now left).
    rewrite (proj2 (String.eqb_neq k n) Hkn).
    rewrite IH by (intros H; apply Hn; now right).
    cbn [List.length]. f_equal. lia.
Qed.

Lemma nth_error_NoDup_key (ms : list (string * element)) i j n e e' :
  NoDup (map fst ms) ->
  nth_error ms i = Some (n, e) -> nth_error ms j = Some (n, e') ->
  i = j.
Proof.
  intros Hnd Hi Hj.
  apply (proj1 (NoDup_nth_error (map fst ms)) Hnd).
  - rewrite length_map. apply nth_error_Some. congruence.
  - rewrite !nth_error_map, Hi, Hj. reflexivity.
Qed.

Lemma object_at it i k e :
  itsType it = Object ->
  itsObjectItCurrent it = i ->
  nth_error (itsObjectRange it) i = Some (k, e) ->
  value it = Return e it /\ name it = Some k /\
  advance it = set_object_current (S i) it.
Proof.
  intros Ht Hc Hn.
  assert (Hlt : (i <? itsObjectItEnd it)%nat = true).
  { apply Nat.ltb_lt. unfold itsObjectItEnd. apply nth_error_Some. congruence. }
  assert (Hne : (i =? itsObjectItEnd it)%nat = false).
  { apply Nat.eqb_neq. apply Nat.ltb_lt in Hlt. lia. }
  unfold value, name, advance. rewrite Ht, Hc, Hne, Hn. auto.
Qed.

Lemma read_current_object t p doc it rest i k e v :
  itsType it = Object ->
  itsObjectItCurrent it = i ->
  nth_error (itsObjectRange it) i = Some (k, e) ->
  extract t e = inr v ->
  read_current t (mkArchive p doc (it :: rest)) =
  Return v (mkArchive p doc (set_object_current (S i) it :: rest)).
Proof.
  intros Ht Hc Hn He.
  destruct (object_at it i k e Ht Hc Hn) as (Hv & _ & Ha).
  unfold read_current. step_archive. rewrite Hv. step_archive.
  rewrite He. step_archive. rewrite Ha. reflexivity.
Qed.

(** An unnamed read takes the member at the cursor and moves one on. *)
Lemma loadValue_sequential t doc it rest i k e v :
  itsType it = Object ->
  itsObjectItCurrent it = i ->
  nth_error (itsObjectRange it) i = Some (k, e) ->
  extract t e = inr v ->
  loadValue t (mkArchive None doc (it :: rest)) =
  Return v (mkArchive None doc (set_object_current (S i) it :: rest)).
Proof.
  intros Ht Hc Hn He. rewrite loadValue_decompose.
  unfold bind at 1. cbv [search itsNextName set_name itsDocument
    itsIteratorStack].
  now apply read_current_object with (k := k) (e := e).
Qed.

Lemma NoDup_c_keys ms : NoDup (c_keys ms) -> NoDup (map fst ms).
Proof.
  unfold c_keys. rewrite <- (map_map fst c_str). apply NoDup_map_inv.
Qed.

Lemma nth_error_NoDup_c_key (ms : list (string * element)) i j k k' e e' :
  NoDup (c_keys ms) ->
  nth_error ms i = Some (k, e) -> nth_error ms j = Some (k', e') ->
  c_str k = c_str k' ->
  i = j.
Proof.
  intros Hnd Hi Hj Hk.
  apply (proj1 (NoDup_nth_error (c_keys ms)) Hnd).
  - unfold c_keys. rewrite length_map. apply nth_error_Some. congruence.
  - unfold c_keys. rewrite !nth_error_map, Hi, Hj. cbn. now rewrite Hk.
Qed.

Lemma name_at it a :
  name it = Some a ->
  exists e, nth_error (itsObjectRange it) (itsObjectItCurrent it) = Some (a, e).
Proof.
  unfold name. destruct (itsType it); try discriminate.
  destruct (itsObjectItCurrent it =? itsObjectItEnd it)%nat; [discriminate|].
  destruct (nth_error (itsObjectRange it) (itsObjectItCurrent it))
    as [[k e]|]; [|discriminate].
  intros H; inversion H; subst. now exists e.
Qed.

(** A named search whose name, as a C string, is the key under the cursor
    does not move the cursor. *)
Lemma search_on_name doc it rest n a :
  name it = Some a ->
  c_str n = c_str a ->
  search (mkArchive (Some n) doc (it :: rest)) =
  Return tt (mkArchive None doc (it :: rest)).
Proof.
  intros Ha E. step_archive. rewrite Ha, (strcmp_same n a E).
  reflexivity.
Qed.

(** A named search on an object whose keys are distinct as C strings lands
    on the member whose key is that name, wherever the cursor was. *)
Lemma search_by_name doc it rest n i e :
  itsType it = Object ->
  NoDup (c_keys (itsObjectRange it)) ->
  nth_error (itsObjectRange it) i = Some (c_str n, e) ->
  search (mkArchive (Some n) doc (it :: rest)) =
  Return tt (mkArchive None doc (set_object_current i it :: rest)).
Proof.
  intros Ht Hnd Hn.
  assert (Hscan : Iterator_search n it = Return tt (set_object_current i it)).
  { unfold Iterator_search. rewrite Ht.
    rewrite (scan_NoDup (c_str n) _ 0 i e (NoDup_c_keys _ Hnd) Hn).
    reflexivity. }
  destruct (name it) as [a|] eqn:Ha.
  - destruct (String.eqb_spec (c_str n) (c_str a)) as [E|E].
    + (* the cursor is already on the name *)
      rewrite (search_on_name doc it rest n a Ha E).
      destruct (name_at it a Ha) as (e' & Hc).
      rewrite (nth_error_NoDup_c_key _ _ _ _ _ _ _ Hnd Hn Hc)
        by now rewrite c_str_idempotent.
      destruct it; reflexivity.
    + step_archive. rewrite Ha, (strcmp_differ n a E). cbn [negb].
      rewrite Hscan. reflexivity.
  - step_archive. rewrite Ha, Hscan. reflexivity.
Qed.

Lemma loadValue_by_name t doc it rest n i e v :
  itsType it = Object ->
  NoDup (c_keys (itsObjectRange it)) ->
  nth_error (itsObjectRange it) i = Some (c_str n, e) ->
  extract t e = inr v ->
  loadValue t (mkArchive (Some n) doc (it :: rest)) =
  Return v (mkArchive None doc (set_object_current (S i) it :: rest)).
Proof.
  intros Ht Hnd Hn He. rewrite loadValue_decompose.
  unfold bind at 1. rewrite (search_by_name doc it rest n i e Ht Hnd Hn).
  rewrite read_current_object with (i := i) (k := c_str n) (e := e) (v := v);
    auto.
Qed.

(** A named read whose name is the key under the cursor. *)
Lemma loadValue_on_name t doc it rest n i e v :
  itsType it = Object ->
  itsObjectItCurrent it = i ->
  nth_error (itsObjectRange it) i = Some (n, e) ->
  extract t e = inr v ->
  loadValue t (mkArchive (Some n) doc (it :: rest)) =
  Return v (mkArchive None doc (set_object_current (S i) it :: rest)).
Proof.
  intros Ht Hc Hn He. rewrite loadValue_decompose.
  destruct (object_at it i n e Ht Hc Hn) as (_ & Hname & _).
  unfold bind at 1. rewrite (search_on_name doc it rest n n Hname eq_refl).
  now apply read_current_object with (k := n) (e := e).
Qed.

Lemma open_single rb k t e :
  scalar_element rb t = Some e ->
  open_input rb [TkStartObject; TkString k; t; TkEndObject] =
  Return tt (mkArchive None (JObject [(k, e)])
               [mkIterator [(k, e)] 0 [] 0 Object]).
Proof.
  intros H. unfold open_input. rewrite (parse_member rb k t e H). reflexivity.
Qed.

Lemma open_three rb a b c ta tb tc ea eb ec :
  scalar_element rb ta = Some ea ->
  scalar_element rb tb = Some eb ->
  scalar_element rb tc = Some ec ->
  open_input rb [TkStartObject; TkString a; ta; TkString b; tb;
                 TkString c; tc; TkEndObject] =
  let ms := [(a, ea); (b, eb); (c, ec)] in
  Return tt (mkArchive None (JObject ms) [mkIterator ms 0 [] 0 Object]).
Proof.
  intros Ha Hb Hc. unfold open_input, parse.
  cbn [feed_all feed opens root frames scalar_element put].
  rewrite (feed_scalar rb _ ta ea Ha). cbn [put root frames feed_all feed scalar_element].
  rewrite (feed_scalar rb _ tb eb Hb). cbn [put root frames feed_all feed scalar_element].
  rewrite (feed_scalar rb _ tc ec Hc). cbn [put root frames feed_all feed scalar_element].
  reflexivity.
Qed.

(** *** Failed searches *)

(** C3 as stated fails: the failed search moves the cursor, here from the
    first member to the end of the range. *)
Lemma search_absent_counterexample :
  let it := Iterator_object [("a", JInt64 1)] in
  let doc := JObject [("a", JInt64 1)] in
  search (mkArchive (Some "z") doc [it]) =
    Throw (Exception "JSON Parsing failed - provided NVP (z) not found")
      (mkArchive None doc [set_object_current 1 it]) /\
  itsObjectItCurrent it = 0%nat /\
  itsObjectItCurrent (set_object_current 1 it) = 1%nat /\
  isValid it = true /\
  isValid (set_object_current 1 it) = false.
Proof. repeat split. Qed.

(** C3 (amended).  On a cursor over a non-empty object, resolving a
    pending name that is none of the object's keys, each read as a C
    string, throws the not-found error naming it; the pending name is
    cleared and the cursor is left at the end of the key range. *)
Theorem search_absent_name doc it rest n :
  itsType it = Object ->
  ~ In (c_str n) (c_keys (itsObjectRange it)) ->
  search (mkArchive (Some n) doc (it :: rest)) =
  Throw (Exception ("JSON Parsing failed - provided NVP (" ++ c_str n ++
                    ") not found")%string)
    (mkArchive None doc
       (set_object_current (itsObjectItEnd it) it :: rest)).
Proof.
  intros Ht Hn.
  assert (Hkeys : ~ In (c_str n) (map fst (itsObjectRange it))).
  { intros H. apply Hn. unfold c_keys.
    apply in_map_iff in H. destruct H as ([k e] & Hk & Hin). cbn in Hk.
    apply in_map_iff. exists (k, e). split; [| exact Hin].
    cbn. subst k. apply c_str_idempotent. }
  assert (Hs : Iterator_search n it =
               Throw (Exception ("JSON Parsing failed - provided NVP (" ++
                                 c_str n ++ ") not found")%string)
                 (set_object_current (itsObjectItEnd it) it)).
  { unfold Iterator_search. rewrite Ht.
    rewrite (scan_absent (c_str n) _ 0%nat Hkeys). reflexivity. }
  step_archive.
  destruct (name it) as [a|] eqn:Ha.
  - rewrite strcmp_differ.
    + cbn [negb]. now rewrite Hs.
    + intros E. apply Hn. rewrite E. unfold c_keys.
      change (c_str a) with ((fun m : string * element => c_str (fst m))
                               (a, JNull)).
      destruct (name_at it a Ha) as (e & Hc). apply nth_error_In in Hc.
      apply in_map_iff. exists (a, e). now split.
  - now rewrite Hs.
Qed.

Lemma search_absent_name_witness :
  search (mkArchive (Some "z") (JObject [("a", JInt64 1); ("b", JNull)])
            [set_object_current 1
               (Iterator_object [("a", JInt64 1); ("b", JNull)])]) =
  Throw (Exception "JSON Parsing failed - provided NVP (z) not found")
    (mkArchive None (JObject [("a", JInt64 1); ("b", JNull)])
       [set_object_current 2
          (Iterator_object [("a", JInt64 1); ("b", JNull)])]).
Proof.
  apply (search_absent_name (JObject [("a", JInt64 1); ("b", JNull)])
           (set_object_current 1
              (Iterator_object [("a", JInt64 1); ("b", JNull)])) [] "z").
  - reflexivity.
  - cbn. intros [H|[H|[]]]; discriminate.
Defined.

(** *** Searching an array *)


(** C9.  When the cursor on top of the stack is an array cursor, resolving
    a pending name throws: [search] fails, and so do [startNode] and every
    [loadValue] called with a name pending; nothing is read by position. *)
Theorem search_on_array_throws doc it rest n :
  itsType it = Array ->
  let ar := mkArchive (Some n) doc (it :: rest) in
  let thrown := Exception "Cannot search for a name in a non-object JSON node" in
  let left := mkArchive None doc (it :: rest) in
  search ar = Throw thrown left /\
  startNode ar = Throw thrown left /\
  (forall t, loadValue t ar = Throw thrown left).
Proof.
  intros Ht ar thrown left.
  assert (Hs : search ar = Throw thrown left).
  { subst ar thrown left. step_archive.
    assert (Hn : name it = None) by (unfold name; now rewrite Ht).
    rewrite Hn. unfold Iterator_search. now rewrite Ht. }
  split; [exact Hs|]. split.
  - unfold startNode, bind. now rewrite Hs.
  - intros t. rewrite loadValue_decompose. unfold bind. now rewrite Hs.
Qed.

Lemma search_on_array_throws_witness :
  let it := set_array_current 1 (Iterator_array [JInt64 1; JInt64 2]) in
  loadValue TInt64 (mkArchive (Some "x") (JArray [JInt64 1; JInt64 2]) [it]) =
  Throw (Exception "Cannot search for a name in a non-object JSON node")
    (mkArchive None (JArray [JInt64 1; JInt64 2]) [it]).
Proof.
  intros it.
  exact (proj2 (proj2
    (search_on_array_throws (JArray [JInt64 1; JInt64 2]) it [] "x" eq_refl))
    TInt64).
Defined.

(** *** Narrow integers *)

(** C10 as stated fails: [-1] lies outside the range of an 8-bit unsigned
    target and [2^63] outside that of a 32-bit signed one, and neither is
    accepted: the 64-bit getter rejects them, [loadValue] throws and the
    cursor stays. *)
Lemma narrow_load_counterexample :
  let doc := JArray [JInt64 (- 1); JUint64 (2 ^ 63)] in
  let it := Iterator_array [JInt64 (- 1); JUint64 (2 ^ 63)] in
  loadValue_small_unsigned 8 (mkArchive None doc [it]) =
    Throw (simdjson_error NUMBER_OUT_OF_RANGE) (mkArchive None doc [it]) /\
  loadValue_small_signed 32 (mkArchive None doc [advance it]) =
    Throw (simdjson_error NUMBER_OUT_OF_RANGE)
      (mkArchive None doc [advance it]) /\
  result_of (roundtrip Some [JSONOutputArchive.save (VInt (- 1))]
               (loadValue_small_unsigned 8)) =
    Some (inl (simdjson_error NUMBER_OUT_OF_RANGE)) /\
  result_of (roundtrip Some [JSONOutputArchive.save (VUint64 (2 ^ 63))]
               (loadValue_small_signed 32)) =
    Some (inl (simdjson_error NUMBER_OUT_OF_RANGE)).
Proof. repeat split. Qed.

(** C10 (amended).  For a signed or unsigned target of [w < 64] bits,
    [loadValue] takes the number from the 64-bit getter and casts it with
    no range check of its own: whatever the getter returns is accepted and
    reduced modulo [2^w], also when it lies outside the target's range.  A
    number the getter itself rejects (a negative one for an unsigned
    target, one of [2^63] or more for a signed one) is reported as the
    getter's failure and not consumed. *)
Theorem narrow_load_wraps w doc it rest e :
  0 < w < 64 ->
  value it = Return e it ->
  let ar := mkArchive None doc (it :: rest) in
  let ar' := mkArchive None doc (advance it :: rest) in
  (forall z,
     get_int64 e = inr z ->
     loadValue_small_signed w ar = Return (cast_signed w z) ar' /\
     - 2 ^ (w - 1) <= cast_signed w z < 2 ^ (w - 1) /\
     cast_signed w z mod 2 ^ w = z mod 2 ^ w) /\
  (forall z,
     get_uint64 e = inr z ->
     loadValue_small_unsigned w ar = Return (z mod 2 ^ w) ar') /\
  (forall c,
     get_int64 e = inl c ->
     loadValue_small_signed w ar = Throw (simdjson_error c) ar) /\
  (forall c,
     get_uint64 e = inl c ->
     loadValue_small_unsigned w ar = Throw (simdjson_error c) ar).
Proof.
  intros Hw Hv ar ar'. split; [|split; [|split]].
  - intros z Hg. split; [|apply cast_signed_spec; lia].
    unfold loadValue_small_signed. apply load_here with (e := e); auto.
    unfold map_result. now rewrite Hg.
  - intros z Hg. unfold loadValue_small_unsigned.
    apply load_here with (e := e); auto.
    unfold map_result. now rewrite Hg.
  - intros c Hg. unfold loadValue_small_signed, ar. step_archive.
    rewrite Hv. step_archive. unfold map_result. now rewrite Hg.
  - intros c Hg. unfold loadValue_small_unsigned, ar. step_archive.
    rewrite Hv. step_archive. unfold map_result. now rewrite Hg.
Qed.

Lemma narrow_load_wraps_witness :
  let doc := JArray [JInt64 (2 ^ 31); JInt64 (2 ^ 32 + 5)] in
  let it := Iterator_array [JInt64 (2 ^ 31); JInt64 (2 ^ 32 + 5)] in
  in_int32 (2 ^ 31) = false /\
  loadValue_small_signed 32 (mkArchive None doc [it]) =
    Return (- 2 ^ 31) (mkArchive None doc [advance it]) /\
  in_uint32 (2 ^ 32 + 5) = false /\
  loadValue_small_unsigned 32 (mkArchive None doc [advance it]) =
    Return 5 (mkArchive None doc [advance (advance it)]).
Proof.
  intros doc it. split; [reflexivity|]. split; [|split; [reflexivity|]].
  - exact (proj1 (proj1 (narrow_load_wraps 32 doc it [] (JInt64 (2 ^ 31))
                           (conj eq_refl eq_refl) eq_refl)
                    (2 ^ 31) eq_refl)).
  - exact (proj1 (proj2 (narrow_load_wraps 32 doc (advance it) []
                           (JInt64 (2 ^ 32 + 5))
                           (conj eq_refl eq_refl) eq_refl))
             (2 ^ 32 + 5) eq_refl).
Defined.

(** *** Round trips *)

(** C1 as stated fails: an infinity is a value of [double], the text the
    writer leaves for it is not JSON, and the input archive cannot be
    constructed on the output. *)
Lemma double_roundtrip_counterexample :
  well_typed (VDouble infinity) = true /\
  read_back_finite infinity = None /\
  result_of
    (roundtrip read_back_finite [JSONOutputArchive.save (VDouble infinity)]
       (loadValue TDouble)) =
  Some (inl (Exception "Failed to parse JSON")).
Proof. repeat split. Qed.

(** C1 (amended).  A [bool], a 32- or 64-bit signed or unsigned integer
    (over its whole range), a string or null written by [saveValue] (after
    the prologue's [writeName], unnamed or under a name) and read back by
    the [loadValue] overload of the same type is the value written.  A
    [double] is loaded as the [double] the parser reads from the text the
    writer printed for it: the value written exactly when that text reads
    back as it, and a parse failure at construction when the text is not a
    JSON number.  A value of a wider arithmetic type goes through the
    string fallback unchanged by the archive: what is loaded is
    [stringToNumber] of the text [format] produced, the value written when
    the two conversions invert each other on it. *)
Theorem scalar_roundtrip (read_back : double -> option double) :
  (forall v, well_typed v = true -> exact_on read_back v ->
     result_of (roundtrip read_back [JSONOutputArchive.save v] (loadValue (type_of v)))
       = Some (inr v) /\
     forall n,
       result_of (roundtrip read_back [JSONOutputArchive.save_nvp n v]
                    (setNextName (Some n) ;; loadValue (type_of v)))
       = Some (inr v)) /\
  (forall d,
     result_of (roundtrip read_back [JSONOutputArchive.save (VDouble d)]
                  (loadValue TDouble))
       = match read_back d with
         | Some d' => Some (inr (VDouble d'))
         | None => Some (inl (Exception "Failed to parse JSON"))
         end) /\
  (forall d,
     result_of (roundtrip read_back [JSONOutputArchive.save (VDouble d)]
                  (loadValue TDouble)) = Some (inr (VDouble d)) <->
     read_back d = Some d) /\
  (forall (T : Type) (format : T -> string)
          (stringToNumber : string -> exn + T) (t : T),
     result_of (roundtrip read_back [JSONOutputArchive.save_exotic format t]
                  (loadValue_exotic stringToNumber))
       = Some (stringToNumber (format t)) /\
     (stringToNumber (format t) = inr t ->
      result_of (roundtrip read_back [JSONOutputArchive.save_exotic format t]
                   (loadValue_exotic stringToNumber)) = Some (inr t))).
Proof.
  assert (Hdouble : forall d,
     result_of (roundtrip read_back [JSONOutputArchive.save (VDouble d)]
                  (loadValue TDouble))
       = match read_back d with
         | Some d' => Some (inr (VDouble d'))
         | None => Some (inl (Exception "Failed to parse JSON"))
         end).
  { intros d. unfold roundtrip. rewrite output_save.
    cbn [JSONOutputArchive.token_of]. unfold bind at 1.
    destruct (read_back d) as [d'|] eqn:Hd.
    + rewrite (open_single read_back "value0" (TkDouble d) (JDouble d'))
        by (cbn; now rewrite Hd).
      rewrite loadValue_sequential
        with (i := 0%nat) (k := "value0") (e := JDouble d')
             (v := VDouble d'); auto.
    + unfold open_input, parse. cbn. now rewrite Hd. }
  assert (Hexotic : forall (T : Type) (format : T -> string)
          (stringToNumber : string -> exn + T) (t : T),
     result_of (roundtrip read_back [JSONOutputArchive.save_exotic format t]
                  (loadValue_exotic stringToNumber))
       = Some (stringToNumber (format t))).
  { intros T format stringToNumber t. unfold roundtrip.
    rewrite output_save_exotic. unfold bind at 1.
    rewrite (open_single read_back _ (TkString (format t))
               (JString (format t)) eq_refl).
    unfold loadValue_exotic, loadValue_string. unfold bind at 1.
    rewrite load_here with (e := JString (format t)) (x := format t);
      try reflexivity.
    destruct (stringToNumber (format t)); reflexivity. }
  split; [|split; [exact Hdouble | split]].
  - intros v Hw Hx.
    destruct (extract_token read_back v Hw Hx) as (e & Hs & He).
    split; [|intros n]; unfold roundtrip.
    + rewrite output_save. unfold bind at 1.
      rewrite (open_single read_back _ _ e Hs).
      rewrite loadValue_sequential
        with (i := 0%nat) (k := "value0") (e := e) (v := v);
        auto.
    + rewrite output_save_nvp. unfold bind at 1.
      rewrite (open_single read_back _ _ e Hs).
      unfold bind at 1. cbv [setNextName set_name itsDocument itsIteratorStack].
      rewrite loadValue_on_name with (i := 0%nat) (e := e) (v := v);
        auto.
  - intros d. rewrite Hdouble. destruct (read_back d) as [d'|].
    + split; intros H; inversion H; reflexivity.
    + split; discriminate.
  - intros T format stringToNumber t. split; [apply Hexotic |].
    intros H. now rewrite Hexotic, H.
Qed.

Lemma scalar_roundtrip_witness :
  Forall (fun v =>
            result_of (roundtrip Some [JSONOutputArchive.save v]
                         (loadValue (type_of v))) = Some (inr v) /\
            result_of (roundtrip Some [JSONOutputArchive.save_nvp "n" v]
                         (setNextName (Some "n") ;; loadValue (type_of v)))
            = Some (inr v))
    boundary_values /\
  result_of
    (roundtrip Some [JSONOutputArchive.save_exotic to_string (2 ^ 64 - 1)]
       (loadValue_exotic stoull)) = Some (inr (2 ^ 64 - 1)).
Proof.
  split.
  - unfold boundary_values.
    repeat match goal with
    | |- Forall _ (?v :: _) =>
        constructor;
        [destruct (proj1 (scalar_roundtrip Some) v) as [H1 H2];
         [reflexivity | first [exact I | reflexivity] |
          split; [exact H1 | exact (H2 "n")]] |]
    end.
    constructor.
  - exact (proj2 (proj2 (proj2 (proj2 (scalar_roundtrip Some))) Z to_string
                    stoull (2 ^ 64 - 1)) eq_refl).
Defined.

(** C2.  An object written with fields [a], [b], [c] in that order (three
    distinct names, C strings as every name is), read by name in the order
    [c], [a], [b], yields the values that reading sequentially yields for
    [a], [b], [c]; and at any object level whose keys are distinct as C
    strings, a named read lands on the member whose key is that name
    wherever the cursor was, and the next unnamed read takes the member
    after it. *)
Theorem named_reads_in_any_order (read_back : double -> option double) :
  (forall a b c va vb vc,
     c_str a = a -> c_str b = b -> c_str c = c ->
     a <> b -> a <> c -> b <> c ->
     well_typed va = true -> well_typed vb = true -> well_typed vc = true ->
     exact_on read_back va -> exact_on read_back vb ->
     exact_on read_back vc ->
     let written := [JSONOutputArchive.save_nvp a va; JSONOutputArchive.save_nvp b vb; JSONOutputArchive.save_nvp c vc] in
     result_of (roundtrip read_back written
       (setNextName (Some c) ;; z <- loadValue (type_of vc) ;;
        setNextName (Some a) ;; x <- loadValue (type_of va) ;;
        setNextName (Some b) ;; y <- loadValue (type_of vb) ;;
        ret (x, y, z)))
     = Some (inr (va, vb, vc)) /\
     result_of (roundtrip read_back written
       (x <- loadValue (type_of va) ;;
        y <- loadValue (type_of vb) ;;
        z <- loadValue (type_of vc) ;;
        ret (x, y, z)))
     = Some (inr (va, vb, vc))) /\
  (forall doc it rest n i e t v,
     itsType it = Object ->
     NoDup (c_keys (itsObjectRange it)) ->
     nth_error (itsObjectRange it) i = Some (c_str n, e) ->
     extract t e = inr v ->
     (setNextName (Some n) ;; loadValue t) (mkArchive None doc (it :: rest))
     = Return v (mkArchive None doc (set_object_current (S i) it :: rest)) /\
     forall k' e' t' v',
       nth_error (itsObjectRange it) (S i) = Some (k', e') ->
       extract t' e' = inr v' ->
       (setNextName (Some n) ;; loadValue t ;; loadValue t')
         (mkArchive None doc (it :: rest))
       = Return v'
           (mkArchive None doc (set_object_current (S (S i)) it :: rest))).
Proof.
  split.
  - intros a b c va vb vc Ca Cb Cc Hab Hac Hbc Hwa Hwb Hwc Hxa Hxb Hxc written.
    destruct (extract_token read_back va Hwa Hxa) as (ea & Hsa & Hea).
    destruct (extract_token read_back vb Hwb Hxb) as (eb & Hsb & Heb).
    destruct (extract_token read_back vc Hwc Hxc) as (ec & Hsc & Hec).
    assert (Hnd : NoDup (c_keys [(a, ea); (b, eb); (c, ec)])).
    { cbn. rewrite Ca, Cb, Cc.
      repeat constructor; cbn; intuition congruence. }
    subst written. unfold roundtrip. rewrite output_three.
    split; unfold bind at 1;
      rewrite (open_three read_back a b c _ _ _ ea eb ec Hsa Hsb Hsc);
      cbv zeta.
    + unfold bind at 1. cbv [setNextName set_name itsDocument itsIteratorStack].
      unfold bind at 1.
      rewrite loadValue_by_name with (i := 2%nat) (e := ec) (v := vc);
        [| reflexivity | exact Hnd | cbn; now rewrite Cc | exact Hec].
      unfold bind at 1. cbv [setNextName set_name itsDocument itsIteratorStack].
      unfold bind at 1.
      rewrite loadValue_by_name with (i := 0%nat) (e := ea) (v := va);
        [| reflexivity | exact Hnd | cbn; now rewrite Ca | exact Hea].
      unfold bind at 1. cbv [setNextName set_name itsDocument itsIteratorStack].
      unfold bind at 1.
      rewrite loadValue_by_name with (i := 1%nat) (e := eb) (v := vb);
        [| reflexivity | exact Hnd | cbn; now rewrite Cb | exact Heb].
      reflexivity.
    + unfold bind at 1.
      rewrite loadValue_sequential
        with (i := 0%nat) (k := a) (e := ea) (v := va); auto.
      unfold bind at 1.
      rewrite loadValue_sequential
        with (i := 1%nat) (k := b) (e := eb) (v := vb); auto.
      unfold bind at 1.
      rewrite loadValue_sequential
        with (i := 2%nat) (k := c) (e := ec) (v := vc); auto.
  - intros doc it rest n i e t v Ht Hnd Hn He.
    assert (H1 : (setNextName (Some n) ;; loadValue t)
                   (mkArchive None doc (it :: rest))
                 = Return v (mkArchive None doc
                               (set_object_current (S i) it :: rest))).
    { unfold bind at 1.
      cbv [setNextName set_name itsDocument itsIteratorStack].
      now apply loadValue_by_name with (e := e). }
    split; [exact H1|].
    intros k' e' t' v' Hn' He'.
    unfold bind at 1. cbv [setNextName set_name itsDocument itsIteratorStack].
    unfold bind at 1.
    rewrite loadValue_by_name with (i := i) (e := e) (v := v); auto.
    rewrite loadValue_sequential
      with (it := set_object_current (S i) it) (i := S i) (k := k')
           (e := e') (v := v'); auto.
Qed.

Lemma named_reads_in_any_order_witness :
  result_of (roundtrip Some
    [JSONOutputArchive.save_nvp "a" (VInt 1);
     JSONOutputArchive.save_nvp "b" (VString "two");
     JSONOutputArchive.save_nvp "c" (VUint64 (2 ^ 64 - 1))]
    (setNextName (Some "c") ;; z <- loadValue TUint64 ;;
     setNextName (Some "a") ;; x <- loadValue TInt ;;
     setNextName (Some "b") ;; y <- loadValue TString ;;
     ret (x, y, z)))
  = Some (inr (VInt 1, VString "two", VUint64 (2 ^ 64 - 1))).
Proof.
  exact (proj1 (proj1 (named_reads_in_any_order Some)
    "a" "b" "c" (VInt 1) (VString "two") (VUint64 (2 ^ 64 - 1))
    eq_refl eq_refl eq_refl
    ltac:(discriminate) ltac:(discriminate) ltac:(discriminate)
    eq_refl eq_refl eq_refl I I I)).
Defined.


(** *** Empty compounds, read *)

Lemma startNode_loadSize_empty doc it rest e :
  value it = Return e it ->
  e = JObject [] \/ e = JArray [] ->
  (startNode ;; loadSize) (mkArchive None doc (it :: rest)) =
  Return 0%nat (mkArchive None doc (Iterator_default :: it :: rest)).
Proof.
  intros Hv He. unfold startNode, loadSize. step_archive. rewrite Hv.
  destruct He as [-> | ->]; cbn [Iterator_object Iterator_array
    List.length Nat.eqb is_array is_object orb size_of];
    rewrite Hv; reflexivity.
Qed.

(** C6.  A node started and finished at once is written as an empty
    compound: begin-object, end-object, that is [{}], or after [makeArray]
    begin-array, end-array, that is [[]], never as nothing; read back, the
    empty compound is entered by [startNode] and [loadSize] reports zero
    children. *)
Theorem empty_compound_roundtrip (read_back : double -> option double) :
  (forall ar ar1,
     JSONOutputArchive.startNode ar = Some ar1 ->
     JSONOutputArchive.finishNode ar1 =
       Some (JSONOutputArchive.mkArchive
               (JSONOutputArchive.itsWriter ar1 ++
                [TkStartObject; TkEndObject])
               (JSONOutputArchive.itsNextName ar1)
               (tl (JSONOutputArchive.itsNameCounter ar1))
               (tl (JSONOutputArchive.itsNodeStack ar1))) /\
     match JSONOutputArchive.makeArray ar1 with
     | Some ar2 =>
         JSONOutputArchive.finishNode ar2 =
         Some (JSONOutputArchive.mkArchive
                 (JSONOutputArchive.itsWriter ar1 ++
                  [TkStartArray; TkEndArray])
                 (JSONOutputArchive.itsNextName ar1)
                 (tl (JSONOutputArchive.itsNameCounter ar1))
                 (tl (JSONOutputArchive.itsNodeStack ar1)))
     | None => False
     end) /\
  option_map (parse read_back)
    (JSONOutputArchive.output
       [JSONOutputArchive.startNode; JSONOutputArchive.finishNode])
  = Some (Some (JObject [("value0", JObject [])])) /\
  option_map (parse read_back)
    (JSONOutputArchive.output
       [JSONOutputArchive.startNode; JSONOutputArchive.makeArray;
        JSONOutputArchive.finishNode])
  = Some (Some (JObject [("value0", JArray [])])) /\
  result_of
    (roundtrip read_back
       [JSONOutputArchive.startNode; JSONOutputArchive.finishNode]
       (startNode ;; loadSize)) = Some (inr 0%nat) /\
  result_of
    (roundtrip read_back
       [JSONOutputArchive.startNode; JSONOutputArchive.makeArray;
        JSONOutputArchive.finishNode]
       (startNode ;; loadSize)) = Some (inr 0%nat) /\
  (forall doc it rest e,
     value it = Return e it ->
     e = JObject [] \/ e = JArray [] ->
     (startNode ;; loadSize) (mkArchive None doc (it :: rest)) =
     Return 0%nat (mkArchive None doc (Iterator_default :: it :: rest))).
Proof.
  split; [exact empty_node_written|].
  split; [reflexivity|]. split; [reflexivity|].
  split; [reflexivity|]. split; [reflexivity|].
  exact startNode_loadSize_empty.
Qed.

Lemma empty_compound_roundtrip_witness :
  let doc := JArray [JString "x"; JArray []] in
  let it := set_array_current 1 (Iterator_array [JString "x"; JArray []]) in
  JSONOutputArchive.run
    [JSONOutputArchive.startNode; JSONOutputArchive.makeArray;
     JSONOutputArchive.finishNode]
    (JSONOutputArchive.mkArchive [TkStartArray; TkString "x"] None [0]
       [InArray]) =
  Some (JSONOutputArchive.mkArchive
          [TkStartArray; TkString "x"; TkStartArray; TkEndArray] None [0]
          [InArray]) /\
  (startNode ;; loadSize) (mkArchive None doc [it]) =
  Return 0%nat (mkArchive None doc [Iterator_default; it]).
Proof.
  intros doc it. split.
  - destruct (proj1 (empty_compound_roundtrip Some)
                (JSONOutputArchive.mkArchive [TkStartArray; TkString "x"]
                   None [0] [InArray])
                (JSONOutputArchive.mkArchive [TkStartArray; TkString "x"]
                   None [0; 0] [StartObject; InArray])
                eq_refl) as [_ H].
    exact H.
  - exact (proj2 (proj2 (proj2 (proj2 (proj2
             (empty_compound_roundtrip Some)))))
             doc it [] (JArray []) eq_refl (or_intror eq_refl)).
Defined.

(** *** Binary blobs *)

Lemma loadBinaryValue_spec ar name size dst s ar1 :
  loadValue_string (set_name name ar) = Return s ar1 ->
  (size <= List.length dst)%nat ->
  loadBinaryValue size name (ar, dst) =
  if (size =? List.length (base64.decode s))%nat
  then Return tt (set_name None ar1, base64.decode s ++ skipn size dst)
  else Throw (Exception
                "Decoded binary data size does not match specified size")
         (ar1, dst).
Proof.
  intros Hs Hd. unfold loadBinaryValue. rewrite Hs.
  destruct (Nat.eqb_spec size (List.length (base64.decode s))) as [E|E];
    cbn [negb]; [|reflexivity].
  rewrite <- E.
  destruct (Nat.ltb_spec (List.length dst) size); [lia|reflexivity].
Qed.

Lemma loadBinaryValue_throws ar name size dst e ar1 :
  loadValue_string (set_name name ar) = Throw e ar1 ->
  loadBinaryValue size name (ar, dst) = Throw e (ar1, dst).
Proof. intros Hs. unfold loadBinaryValue. now rewrite Hs. Qed.

Lemma loadValue_string_blob name s :
  let ms := [(key_of name 0, JString s)] in
  loadValue_string
    (mkArchive name (JObject ms) [mkIterator ms 0 [] 0 Object]) =
  Return s (mkArchive None (JObject ms) [mkIterator ms 1 [] 0 Object]).
Proof.
  intros ms. unfold loadValue_string. destruct name as [n|].
  - now apply load_named_here with (e := JString s).
  - now apply load_here with (e := JString s).
Qed.

Lemma binary_roundtrip_unfold rb data name size dst :
  let ms := [(key_of name 0, JString (base64.encode data))] in
  binary_roundtrip rb data name size dst =
  loadBinaryValue size name
    (mkArchive None (JObject ms) [mkIterator ms 0 [] 0 Object], dst).
Proof.
  intros ms. unfold binary_roundtrip.
  rewrite output_saveBinaryValue.
  now rewrite (open_single rb (key_of name 0)
                 (TkString (base64.encode data))
                 (JString (base64.encode data)) eq_refl).
Qed.

(** C7.  A buffer of N bytes saved by [saveBinaryValue] and loaded by
    [loadBinaryValue] with declared size N comes back byte for byte; with
    any other declared size the load throws and the destination buffer is
    as it was.  Whenever the string is read, [loadBinaryValue] throws
    exactly when the decoded length differs from the declared size, and a
    throw leaves the buffer unwritten. *)
Theorem binary_value_roundtrip (read_back : double -> option double) :
  (forall data name dst,
     (List.length data <= List.length dst)%nat ->
     result_of (binary_roundtrip read_back data name (List.length data) dst)
       = Some (inr tt) /\
     option_map snd
       (state_of (binary_roundtrip read_back data name (List.length data) dst))
       = Some (data ++ skipn (List.length data) dst)) /\
  (forall data name dst size,
     size <> List.length data ->
     result_of (binary_roundtrip read_back data name size dst)
       = Some (inl (Exception
            "Decoded binary data size does not match specified size")) /\
     option_map snd (state_of (binary_roundtrip read_back data name size dst))
       = Some dst) /\
  (forall ar name size dst s ar1,
     loadValue_string (set_name name ar) = Return s ar1 ->
     (size <= List.length dst)%nat ->
     loadBinaryValue size name (ar, dst) =
     if (size =? List.length (base64.decode s))%nat
     then Return tt (set_name None ar1, base64.decode s ++ skipn size dst)
     else Throw (Exception
                   "Decoded binary data size does not match specified size")
            (ar1, dst)) /\
  (forall ar name size dst e ar1,
     loadValue_string (set_name name ar) = Throw e ar1 ->
     loadBinaryValue size name (ar, dst) = Throw e (ar1, dst)).
Proof.
  split; [|split; [|split]].
  - intros data name dst Hd. rewrite binary_roundtrip_unfold. cbv zeta.
    rewrite loadBinaryValue_spec
      with (s := base64.encode data)
           (ar1 := mkArchive None
                     (JObject [(key_of name 0, JString (base64.encode data))])
                     [mkIterator
                        [(key_of name 0, JString (base64.encode data))]
                        1 [] 0 Object]).
    + rewrite decode_encode, Nat.eqb_refl. split; reflexivity.
    + apply loadValue_string_blob.
    + exact Hd.
  - intros data name dst size Hs. rewrite binary_roundtrip_unfold. cbv zeta.
    unfold loadBinaryValue.
    change (set_name name
              (mkArchive None
                 (JObject [(key_of name 0, JString (base64.encode data))])
                 [mkIterator
                    [(key_of name 0, JString (base64.encode data))]
                    0 [] 0 Object]))
      with (mkArchive name
              (JObject [(key_of name 0, JString (base64.encode data))])
              [mkIterator [(key_of name 0, JString (base64.encode data))]
                 0 [] 0 Object]).
    rewrite (loadValue_string_blob name (base64.encode data)).
    rewrite decode_encode.
    destruct (Nat.eqb_spec size (List.length data)); [contradiction|].
    split; reflexivity.
  - exact loadBinaryValue_spec.
  - exact loadBinaryValue_throws.
Qed.

Lemma binary_value_roundtrip_witness :
  let data := [Byte.x00; Byte.xff; Byte.x10; Byte.x7f] in
  let dst := [Byte.x2a; Byte.x2a; Byte.x2a; Byte.x2a; Byte.x2a; Byte.x2a] in
  option_map snd (state_of (binary_roundtrip Some data (Some "blob") 4 dst))
    = Some (data ++ [Byte.x2a; Byte.x2a]) /\
  result_of (binary_roundtrip Some data (Some "blob") 3 dst)
    = Some (inl (Exception
         "Decoded binary data size does not match specified size")) /\
  option_map snd (state_of (binary_roundtrip Some data (Some "blob") 3 dst))
    = Some dst.
Proof.
  intros data dst. split.
  - exact (proj2 (proj1 (binary_value_roundtrip Some) data (Some "blob") dst
                    ltac:(cbn; lia))).
  - exact (proj1 (proj2 (binary_value_roundtrip Some)) data (Some "blob") dst
             3%nat ltac:(discriminate)).
Defined.

(** *** The pending name, read side *)

Lemma back_keeps_name {A} (m : Iterator -> outcome Iterator A) ar ar' :
  state_of (back m ar) = Some ar' -> itsNextName ar' = itsNextName ar.
Proof.
  unfold back. destruct (itsIteratorStack ar) as [|it rest]; [discriminate|].
  destruct (m it); cbn; intros H; inversion H; reflexivity.
Qed.

Lemma state_of_bind {A B} (m : M A) (f : A -> M B) ar ar' :
  state_of (bind m f ar) = Some ar' ->
  (exists e, m ar = Throw e ar') \/
  (exists a s, m ar = Return a s /\ state_of (f a s) = Some ar').
Proof.
  unfold bind. destruct (m ar) as [a s|e s|]; cbn; intros H.
  - right. eauto.
  - left. inversion H. eauto.
  - discriminate.
Qed.

Lemma search_clears ar ar' :
  state_of (search ar) = Some ar' -> itsNextName ar' = None.
Proof.
  unfold search. destruct (itsNextName ar) as [n|].
  - intros H. apply state_of_bind in H.
    destruct H as [(e & H)|(a & s & H & Hs)].
    + assert (E : state_of (getNodeName (set_name None ar)) = Some ar')
        by now rewrite H.
      now apply back_keeps_name in E.
    + assert (E : state_of (getNodeName (set_name None ar)) = Some s)
        by now rewrite H.
      apply back_keeps_name in E. cbn in E.
      destruct a as [a|].
      * destruct (negb (strcmp n a =? 0)).
        -- apply back_keeps_name in Hs. congruence.
        -- inversion Hs. now subst.
      * apply back_keeps_name in Hs. congruence.
  - cbn. intros H; inversion H; reflexivity.
Qed.

Lemma read_current_keeps_name t ar ar' :
  state_of (read_current t ar) = Some ar' -> itsNextName ar' = itsNextName ar.
Proof.
  unfold read_current. intros H. apply state_of_bind in H.
  destruct H as [(e & H)|(a & s & H & Hs)].
  - apply (back_keeps_name value). now rewrite H.
  - assert (E : itsNextName s = itsNextName ar).
    { apply (back_keeps_name value). now rewrite H. }
    rewrite <- E. destruct (extract t a) as [ex|v].
    + inversion Hs. reflexivity.
    + apply state_of_bind in Hs.
      destruct Hs as [(e & Hs)|(u & s' & Hs & Hr)].
      * apply (back_keeps_name (fun it => Return tt (advance it))).
        now rewrite Hs.
      * inversion Hr; subst.
        apply (back_keeps_name (fun it => Return tt (advance it))).
        now rewrite Hs.
Qed.

Lemma loadValue_clears t ar ar' :
  state_of (loadValue t ar) = Some ar' -> itsNextName ar' = None.
Proof.
  rewrite loadValue_decompose. intros H. apply state_of_bind in H.
  destruct H as [(e & H)|(a & s & H & Hs)].
  - apply (search_clears ar). now rewrite H.
  - apply read_current_keeps_name in Hs. rewrite Hs.
    apply (search_clears ar). now rewrite H.
Qed.

Lemma startNode_clears ar ar' :
  state_of (startNode ar) = Some ar' -> itsNextName ar' = None.
Proof.
  unfold startNode. intros H. apply state_of_bind in H.
  destruct H as [(e & H)|(a & s & H & Hs)].
  - apply (search_clears ar). now rewrite H.
  - assert (E : itsNextName s = None)
      by (apply (search_clears ar); now rewrite H).
    apply state_of_bind in Hs.
    destruct Hs as [(e & Hs)|(v & s' & Hs & Hr)].
    + rewrite <- E. apply (back_keeps_name value). now rewrite Hs.
    + assert (E' : itsNextName s' = None).
      { rewrite <- E. apply (back_keeps_name value). now rewrite Hs. }
      destruct v; inversion Hr; subst; auto.
Qed.

(** C8 (amended).  Each archive has one pending-name slot and [setNextName]
    overwrites it.  On the read side every call that resolves a name
    ([search], hence [startNode] and each [loadValue]) leaves the slot
    empty, whether it returns or throws and whatever the level.  On the
    write side, at an object level, [writeName] (hence [startNode] and each
    scalar write) emits the pending name as the key and leaves the slot
    empty; at an array level no name is emitted. *)
Theorem pending_name_consumed :
  (forall n1 n2 ar,
     JSONOutputArchive.setNextName n2 (JSONOutputArchive.setNextName n1 ar)
     = JSONOutputArchive.setNextName n2 ar) /\
  (forall n1 n2 ar,
     (setNextName n1 ;; setNextName n2) ar = setNextName n2 ar) /\
  (forall n ar ar',
     (state_of ((setNextName n ;; search) ar) = Some ar' ->
      itsNextName ar' = None) /\
     (state_of ((setNextName n ;; startNode) ar) = Some ar' ->
      itsNextName ar' = None) /\
     (forall t,
        state_of ((setNextName n ;; loadValue t) ar) = Some ar' ->
        itsNextName ar' = None)) /\
  (forall n w p c cs top nodes v,
     is_array_level top = false ->
     let ar :=
       JSONOutputArchive.setNextName (Some n)
         (JSONOutputArchive.mkArchive w p (c :: cs) (top :: nodes)) in
     let written := w ++ opening top ++ [TkString n] in
     (exists ar',
        JSONOutputArchive.writeName ar = Some ar' /\
        JSONOutputArchive.itsNextName ar' = None /\
        JSONOutputArchive.itsWriter ar' = written) /\
     (exists ar',
        JSONOutputArchive.startNode ar = Some ar' /\
        JSONOutputArchive.itsNextName ar' = None /\
        JSONOutputArchive.itsWriter ar' = written) /\
     (exists ar',
        JSONOutputArchive.save v ar = Some ar' /\
        JSONOutputArchive.itsNextName ar' = None /\
        JSONOutputArchive.itsWriter ar' =
          written ++ [JSONOutputArchive.token_of v])) /\
  (forall n w p cs top nodes,
     is_array_level top = true ->
     exists ar',
       JSONOutputArchive.writeName
         (JSONOutputArchive.setNextName (Some n)
            (JSONOutputArchive.mkArchive w p cs (top :: nodes))) = Some ar' /\
       JSONOutputArchive.itsWriter ar' = w ++ opening top).
Proof.
  split; [reflexivity|]. split; [reflexivity|]. split; [|split].
  - intros n ar ar'. repeat split.
    + apply (search_clears (set_name n ar)).
    + apply (startNode_clears (set_name n ar)).
    + intros t. apply (loadValue_clears t (set_name n ar)).
  - intros n w p c cs top nodes v Ht ar written. subst ar written.
    cbv [JSONOutputArchive.setNextName JSONOutputArchive.itsWriter
         JSONOutputArchive.itsNameCounter JSONOutputArchive.itsNodeStack].
    split; [|split]; eexists.
    + rewrite writeName_object by exact Ht. repeat split.
    + rewrite startNode_object by exact Ht. repeat split.
    + rewrite save_object by exact Ht. split; [reflexivity|].
      split; [reflexivity|]. cbn. rewrite <- !app_assoc. reflexivity.
  - intros n w p cs top nodes Ht. eexists.
    cbv [JSONOutputArchive.setNextName JSONOutputArchive.itsWriter
         JSONOutputArchive.itsNameCounter JSONOutputArchive.itsNodeStack].
    rewrite writeName_array by exact Ht. split; reflexivity.
Qed.

Lemma pending_name_consumed_witness :
  let doc := JArray [JInt64 1] in
  let ar := mkArchive None doc [Iterator_array [JInt64 1]] in
  (forall ar',
     state_of ((setNextName (Some "x") ;; loadValue TInt64) ar) = Some ar' ->
     itsNextName ar' = None) /\
  exists ar',
    JSONOutputArchive.save (VInt 1)
      (JSONOutputArchive.setNextName (Some "x")
         JSONOutputArchive.construct) = Some ar' /\
    JSONOutputArchive.itsNextName ar' = None /\
    JSONOutputArchive.itsWriter ar' =
      [TkStartObject; TkString "x"; TkInt 1].
Proof.
  intros doc ar. split.
  - intros ar'.
    exact (proj2 (proj2 (proj1 (proj2 (proj2 pending_name_consumed))
                          (Some "x") ar ar')) TInt64).
  - exact (proj2 (proj2 (proj1 (proj2 (proj2 (proj2 pending_name_consumed)))
                   "x" [] None 0 [] StartObject [] (VInt 1) eq_refl))).
Defined.

(** *** Sequences, read *)

Lemma open_sequence rb vs es :
  Forall2 (fun v e =>
             scalar_element rb (JSONOutputArchive.token_of v) = Some e)
    vs es ->
  open_input rb ([TkStartObject; TkString "value0"; TkStartArray] ++
                 map JSONOutputArchive.token_of vs ++
                 [TkEndArray; TkEndObject]) =
  let ms := [("value0", JArray es)] in
  Return tt (mkArchive None (JObject ms) [mkIterator ms 0 [] 0 Object]).
Proof.
  intros H. unfold open_input, parse.
  cbn [app feed_all feed opens root frames scalar_element put].
  rewrite feed_all_app, (feed_all_items rb vs es [] _ H).
  cbn [feed_all feed root frames put]. rewrite app_nil_r, rev_involutive.
  reflexivity.
Qed.

Lemma read_back_all rb vs :
  Forall (fun v => well_typed v = true /\ exact_on rb v) vs ->
  exists es,
    Forall2 (fun v e =>
               scalar_element rb (JSONOutputArchive.token_of v) = Some e)
      vs es.
Proof.
  induction 1 as [|v vs [Hw Hx] _ (es & IH)].
  - exists []. constructor.
  - destruct (extract_token rb v Hw Hx) as (e & He & _).
    exists (e :: es). now constructor.
Qed.

(** X1.  Size inference: a sequence of [n] scalars written as a size-tagged
    node ([startNode], [makeArray], the elements, [finishNode]) carries no
    count; read back, [startNode] then [loadSize] reports [n]. *)
Theorem size_is_inferred (read_back : double -> option double) vs :
  Forall (fun v => well_typed v = true /\ exact_on read_back v) vs ->
  JSONOutputArchive.output
    ([JSONOutputArchive.startNode; JSONOutputArchive.makeArray] ++
     map JSONOutputArchive.save vs ++ [JSONOutputArchive.finishNode]) =
  Some ([TkStartObject; TkString "value0"; TkStartArray] ++
        map JSONOutputArchive.token_of vs ++ [TkEndArray; TkEndObject]) /\
  result_of
    (roundtrip read_back
       ([JSONOutputArchive.startNode; JSONOutputArchive.makeArray] ++
        map JSONOutputArchive.save vs ++ [JSONOutputArchive.finishNode])
       (startNode ;; loadSize)) = Some (inr (List.length vs)).
Proof.
  intros H. split; [apply output_sequence|].
  destruct (read_back_all read_back vs H) as (es & Hes).
  unfold roundtrip. rewrite output_sequence. unfold bind at 1.
  rewrite (open_sequence read_back vs es Hes). cbv zeta.
  unfold startNode, loadSize. step_archive.
  change (value (mkIterator [("value0", JArray es)] 0 [] 0 Object))
    with (Return (S := Iterator) (JArray es)
            (mkIterator [("value0", JArray es)] 0 [] 0 Object)).
  cbn [is_array orb size_of result_of]. 
  change (value (mkIterator [("value0", JArray es)] 0 [] 0 Object))
    with (Return (S := Iterator) (JArray es)
            (mkIterator [("value0", JArray es)] 0 [] 0 Object)).
  cbn [is_array orb size_of result_of value_of ret].
  now rewrite (Forall2_length Hes).
Qed.

Lemma size_is_inferred_witness :
  result_of
    (roundtrip Some
       [JSONOutputArchive.startNode; JSONOutputArchive.makeArray;
        JSONOutputArchive.save (VInt 1); JSONOutputArchive.save (VInt 2);
        JSONOutputArchive.save (VInt 3); JSONOutputArchive.save (VInt 4);
        JSONOutputArchive.save (VInt 5); JSONOutputArchive.finishNode]
       (startNode ;; loadSize)) = Some (inr 5%nat).
Proof.
  refine (proj2 (size_is_inferred Some
                   [VInt 1; VInt 2; VInt 3; VInt 4; VInt 5] _)).
  repeat constructor.
Defined.

End ReadSide.

(** ** Trees of values, written and read *)

Lemma item_induction (P : item -> Prop) :
  (forall n v, P (Leaf n v)) ->
  (forall n a cs, Forall P cs -> P (Branch n a cs)) ->
  forall i, P i.
Proof.
  intros Hleaf Hbranch. fix IH 1. intros [n v | n a cs].
  - apply Hleaf.
  - apply Hbranch. induction cs as [| c r IHr]; constructor.
    + apply IH.
    + exact IHr.
Qed.

Section TreeWrite.

Import JSONOutputArchive.

Lemma with_name_pending n w cs nodes :
  with_name n (mkArchive w None cs nodes) = mkArchive w n cs nodes.
Proof. now destruct n. Qed.

Lemma run_map_app l1 l2 ar :
  run (map exec (l1 ++ l2)) ar =
  match run (map exec l1) ar with
  | Some ar1 => run (map exec l2) ar1
  | None => None
  end.
Proof. rewrite map_app. apply run_app. Qed.

Lemma opening_opened top : opening (opened top) = [].
Proof. now destruct top. Qed.

Lemma opened_object top :
  is_array_level top = false -> opened top = InObject.
Proof. now destruct top. Qed.

Lemma opened_array top :
  is_array_level top = true -> opened top = InArray.
Proof. now destruct top. Qed.

Lemma writes_members l :
  Forall writes_member l ->
  forall w c cs top nodes,
    is_array_level top = false ->
    run (map exec (flat_map calls_of l))
      (mkArchive w None (c :: cs) (top :: nodes)) =
    Some (mkArchive
            (w ++ lazy_opening l top ++
             member_tokens (keys_from c (map item_name l))
               (map value_tokens l))
            None (counter_from c (map item_name l) :: cs)
            (top_after l top :: nodes)).
Proof.
  induction 1 as [| i r Hi _ IH]; intros w c cs top nodes Ht.
  - cbn. now rewrite app_nil_r.
  - cbn [flat_map]. rewrite run_map_app, (Hi w c cs top nodes Ht).
    rewrite (IH _ _ cs InObject nodes eq_refl).
    cbn [map keys_from counter_from member_tokens lazy_opening top_after].
    rewrite (opened_object top Ht). f_equal.
    f_equal; destruct r; cbn [lazy_opening top_after opened opening];
      rewrite <- ?app_assoc; cbn [app]; rewrite <- ?app_assoc; reflexivity.
Qed.

Lemma writes_elements l :
  Forall writes_element l ->
  Forall (fun c => item_name c = None) l ->
  forall w cs top nodes,
    is_array_level top = true ->
    run (map exec (flat_map calls_of l)) (mkArchive w None cs (top :: nodes)) =
    Some (mkArchive (w ++ lazy_opening l top ++ flat_map value_tokens l)
            None cs (top_after l top :: nodes)).
Proof.
  induction 1 as [| i r Hi _ IH]; intros Hn w cs top nodes Ht.
  - cbn. now rewrite app_nil_r.
  - inversion Hn as [| ? ? Hn1 Hn2]; subst.
    cbn [flat_map]. rewrite run_map_app, (Hi w cs top nodes Ht Hn1).
    rewrite (IH Hn2 _ cs InArray nodes eq_refl).
    cbn [lazy_opening top_after].
    rewrite (opened_array top Ht). f_equal.
    f_equal; destruct r; cbn [lazy_opening top_after opened opening flat_map];
      rewrite <- ?app_assoc; cbn [app]; rewrite <- ?app_assoc; reflexivity.
Qed.

(** The tokens of a compound, once its prologue has pushed the level: the
    children, then the epilogue. *)
Lemma writes_body a l w c0 cs nodes :
  Forall writes_member l -> Forall writes_element l ->
  (a = true -> Forall (fun c => item_name c = None) l) ->
  run (map exec (flat_map calls_of l ++ [CallFinish]))
    (mkArchive w None (c0 :: cs)
       ((if a then StartArray else StartObject) :: nodes)) =
  Some (mkArchive
          (w ++
           (if a then TkStartArray :: flat_map value_tokens l ++ [TkEndArray]
            else TkStartObject ::
                 member_tokens (keys_from c0 (map item_name l))
                   (map value_tokens l) ++ [TkEndObject]))
          None cs nodes).
Proof.
  intros Hm He Hn. rewrite run_map_app. destruct a.
  - rewrite (writes_elements l He (Hn eq_refl) w (c0 :: cs) StartArray nodes
               eq_refl).
    destruct l; cbn; cbv [write]; cbn; f_equal; f_equal;
      rewrite <- ?app_assoc; cbn; now rewrite <- ?app_assoc.
  - rewrite (writes_members l Hm w c0 cs StartObject nodes eq_refl).
    destruct l; cbn; cbv [write]; cbn; f_equal; f_equal;
      rewrite <- ?app_assoc; cbn; now rewrite <- ?app_assoc.
Qed.

Lemma writes_tree rb : forall i,
  good rb i -> writes_member i /\ writes_element i.
Proof.
  induction i as [n v | n a cs IH] using item_induction; intros Hg.
  - split.
    + intros w c cs top nodes Ht. cbn [calls_of map exec run item_name].
      rewrite with_name_pending, (save_object v w n c cs top nodes Ht).
      reflexivity.
    + intros w cs top nodes Ht Hn. cbn [item_name] in Hn. subst n.
      cbn [calls_of map exec run with_name].
      now rewrite (save_array v w None cs top nodes Ht).
  - inversion Hg as [| ? ? ? Hcs Hnames]; subst.
    assert (Hm : Forall writes_member cs).
    { rewrite Forall_forall in *. intros x Hx. now apply IH, Hcs. }
    assert (He : Forall writes_element cs).
    { rewrite Forall_forall in *. intros x Hx. now apply IH, Hcs. }
    split.
    + intros w c cs0 top nodes Ht.
      cbn [calls_of map run item_name]. cbv [exec].
      rewrite with_name_pending, (startNode_object w n c cs0 top nodes Ht).
      assert (Hstart :
        (if a then makeArray
           (mkArchive (w ++ opening top ++ [TkString (key_of n c)]) None
              (0 :: counter_after n c :: cs0)
              (StartObject :: InObject :: nodes))
         else Some (mkArchive (w ++ opening top ++ [TkString (key_of n c)])
                      None (0 :: counter_after n c :: cs0)
                      (StartObject :: InObject :: nodes))) =
        Some (mkArchive (w ++ opening top ++ [TkString (key_of n c)]) None
                (0 :: counter_after n c :: cs0)
                ((if a then StartArray else StartObject) :: InObject :: nodes))).
      { now destruct a. }
      rewrite Hstart.
      rewrite (writes_body a cs _ 0 _ _ Hm He Hnames).
      f_equal. f_equal. cbn [value_tokens].
      rewrite <- !app_assoc. cbn [app]. reflexivity.
    + intros w cs0 top nodes Ht Hn. cbn [item_name] in Hn. subst n.
      cbn [calls_of map run item_name]. cbv [exec with_name].
      rewrite (startNode_array w None cs0 top nodes Ht).
      assert (Hstart :
        (if a then makeArray
           (mkArchive (w ++ opening top) None (0 :: cs0)
              (StartObject :: InArray :: nodes))
         else Some (mkArchive (w ++ opening top) None (0 :: cs0)
                      (StartObject :: InArray :: nodes))) =
        Some (mkArchive (w ++ opening top) None (0 :: cs0)
                ((if a then StartArray else StartObject) :: InArray :: nodes))).
      { now destruct a. }
      rewrite Hstart.
      rewrite (writes_body a cs _ 0 _ _ Hm He Hnames).
      f_equal. f_equal. cbn [value_tokens].
      rewrite <- !app_assoc. reflexivity.
Qed.

End TreeWrite.

Lemma stored_token rb v :
  well_typed v = true -> exact_on rb v ->
  scalar_element rb (JSONOutputArchive.token_of v) = Some (stored v).
Proof.
  intros Hw He.
  destruct v; cbn in *; try reflexivity;
    cbv [integer_element];
    try (destruct (in_int64 _) eqn:E; [reflexivity |]).
  - (* VInt *) exfalso. cbv [in_int32 in_int64] in *. lia.
  - cbv [in_uint32 in_uint64] in *.
    destruct (_ : bool) eqn:E2 in |- *; [reflexivity | lia].
  - congruence.
  - now rewrite Hw.
  - now rewrite He.
Qed.

Lemma extract_stored v :
  well_typed v = true -> extract (type_of v) (stored v) = inr v.
Proof.
  intros Hw. destruct (extract_token Some v Hw) as (e & He & Hx).
  { now destruct v. }
  rewrite (stored_token Some v Hw) in He by now destruct v. congruence.
Qed.

Section TreeParse.

Variable rb : double -> option double.

Lemma put_compound_closed b e :
  opens b = false -> (forall s, e <> JString s) -> put e b = None.
Proof.
  intros Ho Hs. cbv [opens put] in *.
  destruct (root b); [reflexivity |].
  destruct (frames b) as [| [xs | ms [k |]] fs]; try discriminate.
  destruct e; try reflexivity. now destruct (Hs s).
Qed.

Lemma opens_root b : opens b = true -> b = mkBuilder (frames b) None.
Proof.
  destruct b as [fs [r |]]; cbn; [discriminate | reflexivity].
Qed.

Lemma parses_elements l :
  Forall (parses rb) l ->
  forall xs fs,
    feed_all rb (mkBuilder (FArray xs :: fs) None) (flat_map value_tokens l) =
    Some (mkBuilder (FArray (rev (map elem_of l) ++ xs) :: fs) None).
Proof.
  induction 1 as [| i r Hi _ IH]; intros xs fs; [reflexivity |].
  cbn [flat_map map rev]. rewrite feed_all_app, Hi. cbn [put root frames].
  rewrite IH, <- app_assoc. reflexivity.
Qed.

Lemma parses_members l :
  Forall (parses rb) l ->
  forall c ms fs,
    feed_all rb (mkBuilder (FObject ms None :: fs) None)
      (member_tokens (keys_from c (map item_name l)) (map value_tokens l)) =
    Some (mkBuilder
            (FObject
               (rev (combine (keys_from c (map item_name l)) (map elem_of l))
                ++ ms) None :: fs) None).
Proof.
  induction 1 as [| i r Hi _ IH]; intros c ms fs; [reflexivity |].
  cbn [map keys_from member_tokens combine rev feed_all].
  cbn [feed scalar_element put root frames].
  rewrite feed_all_app, Hi. cbn [put root frames].
  rewrite IH, <- app_assoc. reflexivity.
Qed.

Lemma parses_tree : forall i, good rb i -> parses rb i.
Proof.
  induction i as [n v | n a cs IH] using item_induction; intros Hg b.
  - inversion Hg as [? ? Hw He |]; subst. cbn [value_tokens elem_of feed_all].
    rewrite (feed_scalar rb b _ _ (stored_token rb v Hw He)).
    now destruct (put (stored v) b).
  - inversion Hg as [| ? ? ? Hcs Hnames]; subst.
    assert (Hp : Forall (parses rb) cs).
    { rewrite Forall_forall in *. intros x Hx. now apply IH, Hcs. }
    cbn [value_tokens elem_of]. destruct a.
    + cbn [feed_all feed]. destruct (opens b) eqn:Ho.
      * rewrite feed_all_app, parses_elements by exact Hp.
        cbn [feed_all feed root frames].
        rewrite app_nil_r, rev_involutive.
        rewrite <- (opens_root b Ho).
        now destruct (put _ b).
      * symmetry. apply put_compound_closed; [exact Ho | discriminate].
    + cbn [feed_all feed]. destruct (opens b) eqn:Ho.
      * rewrite feed_all_app, parses_members by exact Hp.
        cbn [feed_all feed root frames].
        rewrite app_nil_r, rev_involutive.
        rewrite <- (opens_root b Ho).
        now destruct (put _ b).
      * symmetry. apply put_compound_closed; [exact Ho | discriminate].
Qed.

End TreeParse.

Section TreeRead.

Import JSONInputArchive.
Local Open Scope archive_scope.

Lemma bind_Return {S A B : Type} (m : S -> outcome S A)
    (f : A -> S -> outcome S B) s a s1 :
  m s = Return a s1 -> bind m f s = f a s1.
Proof. intros H. cbv [bind]. now rewrite H. Qed.

Lemma array_at it i e :
  itsType it = Array ->
  itsArrayItCurrent it = i ->
  nth_error (itsArrayRange it) i = Some e ->
  value it = Return e it /\ name it = None /\
  advance it = set_array_current (S i) it.
Proof.
  intros Ht Hc Hn.
  assert (Hlt : (i < List.length (itsArrayRange it))%nat).
  { apply nth_error_Some. congruence. }
  cbv [value name advance itsArrayItEnd]. rewrite Ht, Hc.
  destruct (Nat.eqb_spec i (List.length (itsArrayRange it))); [lia |].
  now rewrite Hn.
Qed.

Lemma set_object_current_id it :
  set_object_current (itsObjectItCurrent it) it = it.
Proof. now destruct it. Qed.

Lemma set_array_current_id it :
  set_array_current (itsArrayItCurrent it) it = it.
Proof. now destruct it. Qed.

Lemma skipn_nth {A} (l : list A) : forall j x r,
  skipn j l = x :: r -> nth_error l j = Some x /\ skipn (S j) l = r.
Proof.
  induction l as [| y l IH]; intros [| j] x r H; cbn in *; try discriminate.
  - injection H as -> ->. now split.
  - now apply IH.
Qed.

(** The cursor is on the member written for [i]: a named read finds its
    name under the cursor, an unnamed one reads in sequence. *)
Lemma search_here doc it rest n c j e :
  itsType it = Object ->
  itsObjectItCurrent it = j ->
  nth_error (itsObjectRange it) j = Some (key_of n c, e) ->
  forall A (m : M A),
    named n (search ;; m) (mkArchive None doc (it :: rest)) =
    m (mkArchive None doc (it :: rest)).
Proof.
  intros Ht Hc Hn A m.
  destruct (object_at it j _ e Ht Hc Hn) as (_ & Hname & _).
  destruct n as [s |]; cbn [named key_of] in *.
  - cbv [bind setNextName search getNodeName back set_name itsNextName
         itsIteratorStack itsDocument set_stack ret].
    rewrite Hname, (strcmp_same s s eq_refl). cbn. now destruct it.
  - reflexivity.
Qed.


Lemma named_ext {A} n (m m' : M A) ar :
  (forall ar, m ar = m' ar) -> named n m ar = named n m' ar.
Proof.
  intros H. destruct n; cbn [named]; [| apply H].
  cbv [bind setNextName]. apply H.
Qed.

Lemma reads_members l :
  Forall reads_member l ->
  forall doc it rest j c,
    l = [] \/ itsType it = Object ->
    itsObjectItCurrent it = j ->
    skipn j (itsObjectRange it) =
      combine (keys_from c (map item_name l)) (map elem_of l) ->
    read_first read_item (List.length l) l (mkArchive None doc (it :: rest)) =
    Return l
      (mkArchive None doc
         (set_object_current (j + List.length l) it :: rest)).
Proof.
  induction 1 as [| i r Hi _ IH]; intros doc it rest j c Ht Hc Hs.
  - cbn. cbv [ret]. rewrite Nat.add_0_r, <- Hc, set_object_current_id.
    reflexivity.
  - destruct Ht as [Ht | Ht]; [discriminate |].
    cbn [map keys_from combine] in Hs.
    apply skipn_nth in Hs. destruct Hs as [Hn Hs].
    cbn [List.length read_first].
    rewrite (bind_Return _ _ _ _ _ (Hi doc it rest j c Ht Hc Hn)).
    rewrite (bind_Return _ _ _ _ _
               (IH doc (set_object_current (S j) it) rest (S j) _
                  (or_intror Ht) eq_refl Hs)).
    cbv [ret set_object_current]. cbn. repeat f_equal. lia.
Qed.

Lemma reads_elements l :
  Forall reads_element l ->
  Forall (fun c => item_name c = None) l ->
  forall doc it rest j,
    l = [] \/ itsType it = Array ->
    itsArrayItCurrent it = j ->
    skipn j (itsArrayRange it) = map elem_of l ->
    read_first read_item (List.length l) l (mkArchive None doc (it :: rest)) =
    Return l
      (mkArchive None doc
         (set_array_current (j + List.length l) it :: rest)).
Proof.
  induction 1 as [| i r Hi _ IH]; intros Hu doc it rest j Ht Hc Hs.
  - cbn. cbv [ret]. rewrite Nat.add_0_r, <- Hc, set_array_current_id.
    reflexivity.
  - destruct Ht as [Ht | Ht]; [discriminate |].
    inversion Hu as [| ? ? Hu1 Hu2]; subst.
    cbn [map] in Hs.
    apply skipn_nth in Hs. destruct Hs as [Hn Hs].
    cbn [List.length read_first].
    rewrite (bind_Return _ _ _ _ _ (Hi doc it rest _ Ht eq_refl Hn Hu1)).
    rewrite (bind_Return _ _ _ _ _
               (IH Hu2 doc (set_array_current (S (itsArrayItCurrent it)) it)
                  rest (S (itsArrayItCurrent it))
                  (or_intror Ht) eq_refl Hs)).
    cbv [ret set_array_current]. cbn. repeat f_equal. lia.
Qed.

(** The children of a compound, once its prologue has pushed a cursor over
    them, and its epilogue. *)
Lemma reads_body a cs doc parent rest e :
  Forall reads_member cs -> Forall reads_element cs ->
  (a = true -> Forall (fun c => item_name c = None) cs) ->
  e = elem_of (Branch None a cs) ->
  value parent = Return e parent ->
  forall A (k : list item -> M A),
    (size <- (if a then loadSize else ret (List.length cs)) ;;
     cs' <- read_first read_item size cs ;;
     finishNode ;; k cs')
      (mkArchive None doc
         ((if a then Iterator_array (map elem_of cs)
           else Iterator_object
                  (combine (keys_from 0 (map item_name cs))
                     (map elem_of cs))) :: parent :: rest)) =
    k cs (mkArchive None doc (advance parent :: rest)).
Proof.
  intros Hm He Hu -> Hv A k. cbn [elem_of] in Hv. destruct a.
  - rewrite (bind_Return _ _ (mkArchive _ _ _) (List.length cs)
               (mkArchive None doc
                  (Iterator_array (map elem_of cs) :: parent :: rest))).
    2:{ cbv [loadSize itsIteratorStack]. rewrite Hv. cbn.
        now rewrite length_map. }
    rewrite (bind_Return _ _ _ _ _
               (reads_elements cs He (Hu eq_refl) doc _ (parent :: rest) 0%nat
                  (match cs as l return
                     (l = [] \/ itsType (Iterator_array (map elem_of l)) = Array)
                   with [] => or_introl eq_refl | _ :: _ => or_intror eq_refl
                   end) eq_refl eq_refl)).
    reflexivity.
  - rewrite (bind_Return _ _ (mkArchive _ _ _) (List.length cs)
               (mkArchive None doc
                  (Iterator_object
                     (combine (keys_from 0 (map item_name cs))
                        (map elem_of cs)) :: parent :: rest)))
      by reflexivity.
    assert (Ht : cs = [] \/
                 itsType (Iterator_object
                            (combine (keys_from 0 (map item_name cs))
                               (map elem_of cs))) = Object).
    { destruct cs; [now left | now right]. }
    rewrite (bind_Return _ _ _ _ _
               (reads_members cs Hm doc _ (parent :: rest) 0%nat 0 Ht
                  eq_refl eq_refl)).
    reflexivity.
Qed.

Lemma reads_tree rb : forall i,
  good rb i -> reads_member i /\ reads_element i.
Proof.
  induction i as [n v | n a cs IH] using item_induction; intros Hg.
  - inversion Hg as [? ? Hw Hx |]; subst. split.
    + intros doc it rest j c Ht Hc Hn. cbn [read_item item_name elem_of] in *.
      erewrite bind_Return; [reflexivity |].
      rewrite (named_ext n _ _ _ (loadValue_decompose (type_of v))).
      rewrite (search_here doc it rest n c j _ Ht Hc Hn).
      apply (read_current_object (type_of v) None doc it rest j _ _ v Ht Hc Hn).
      now apply extract_stored.
    + intros doc it rest j Ht Hc Hn Hu. cbn [read_item item_name elem_of] in *.
      subst n. cbn [named]. erewrite bind_Return; [reflexivity |].
      destruct (array_at it j _ Ht Hc Hn) as (Hv & _ & Ha).
      rewrite loadValue_decompose. cbv [search bind itsNextName set_name
        itsDocument itsIteratorStack read_current back set_stack].
      rewrite Hv. rewrite (extract_stored v Hw). cbn. now rewrite Ha.
  - inversion Hg as [| ? ? ? Hcs Hnames]; subst.
    assert (Hm : Forall reads_member cs).
    { rewrite Forall_forall in *. intros x Hx. now apply IH, Hcs. }
    assert (He : Forall reads_element cs).
    { rewrite Forall_forall in *. intros x Hx. now apply IH, Hcs. }
    split.
    + intros doc it rest j c Ht Hc Hn. cbn [item_name] in Hn.
      destruct (object_at it j _ _ Ht Hc Hn) as (Hv & _ & Ha).
      cbn [read_item]. unfold bind at 1.
      change (named n startNode (mkArchive None doc (it :: rest)))
        with (named n (search ;; (currentValue <- back value ;;
                                  push_children currentValue))
                (mkArchive None doc (it :: rest))).
      rewrite (search_here doc it rest n c j _ Ht Hc Hn).
      unfold bind at 1. cbv [back itsIteratorStack set_stack itsNextName
                            itsDocument]. rewrite Hv.
      rewrite <- Ha.
      pose proof (reads_body a cs doc it rest _ Hm He Hnames eq_refl Hv item
                    (fun cs' => ret (Branch n a cs'))) as Hb.
      cbn [elem_of]. destruct a; cbn [push_children];
        cbv [emplace_back set_stack itsNextName itsDocument itsIteratorStack];
        exact Hb.
    + intros doc it rest j Ht Hc Hn Hu. cbn [item_name] in Hu. subst n.
      destruct (array_at it j _ Ht Hc Hn) as (Hv & _ & Ha).
      cbn [read_item named]. unfold bind at 1. cbv [startNode].
      unfold bind at 1. cbv [search itsNextName set_name itsDocument
                            itsIteratorStack].
      unfold bind at 1. cbv [back itsIteratorStack set_stack itsNextName
                            itsDocument]. rewrite Hv.
      rewrite <- Ha.
      pose proof (reads_body a cs doc it rest _ Hm He Hnames eq_refl Hv item
                    (fun cs' => ret (Branch None a cs'))) as Hb.
      cbn [elem_of]. destruct a; cbn [push_children];
        cbv [emplace_back set_stack itsNextName itsDocument itsIteratorStack];
        exact Hb.
Qed.

End TreeRead.

Section Trees.

Variable rb : double -> option double.

Lemma tree_output items :
  items <> [] ->
  Forall (good rb) items ->
  JSONOutputArchive.output (map exec (flat_map calls_of items)) =
  Some (value_tokens (Branch None false items)).
Proof.
  intros Hne Hg. cbv [JSONOutputArchive.output JSONOutputArchive.construct].
  assert (Hm : Forall writes_member items).
  { rewrite Forall_forall in *. intros x Hx. now apply (writes_tree rb), Hg. }
  rewrite (writes_members items Hm [] 0 [] StartObject [] eq_refl).
  destruct items as [| i r]; [congruence |].
  cbn [top_after opened lazy_opening opening JSONOutputArchive.destroy
       JSONOutputArchive.itsNodeStack JSONOutputArchive.write
       JSONOutputArchive.itsWriter value_tokens app].
  reflexivity.
Qed.

Lemma tree_parse items :
  Forall (good rb) items ->
  parse rb (value_tokens (Branch None false items)) =
  Some (elem_of (Branch None false items)).
Proof.
  intros Hg. cbv [parse].
  rewrite (parses_tree rb (Branch None false items)).
  - reflexivity.
  - constructor; [exact Hg | discriminate].
Qed.

(** X2.  The document of a tree.  A non-empty record of values written
    through the framework's calls (a scalar by [writeName] and [saveValue],
    a compound between [startNode] and [finishNode], a sequence with
    [makeArray]), closed by the destructor, parses to the JSON object of
    these values: members in write order, a named one under its name, an
    unnamed one under [value] and the count of unnamed members before it at
    its own level, a sequence as an array without keys. *)
Theorem tree_is_written items :
  items <> [] ->
  Forall (good rb) items ->
  option_map (parse rb)
    (JSONOutputArchive.output (map exec (flat_map calls_of items))) =
  Some (Some (JObject (combine (keys_from 0 (map item_name items))
                         (map elem_of items)))).
Proof.
  intros Hne Hg. rewrite (tree_output items Hne Hg). cbn [option_map].
  now rewrite (tree_parse items Hg).
Qed.

(** X3.  Round trip of a tree.  Read back by the mirrored calls (a named
    value after [setNextName], a compound between [startNode] and
    [finishNode], a sequence after [loadSize], which tells how many
    elements to read), every value of the record comes back.  The names
    need not be distinct: each named read finds its name under the
    cursor. *)
Theorem tree_roundtrip items :
  items <> [] ->
  Forall (good rb) items ->
  result_of
    (roundtrip rb (map exec (flat_map calls_of items))
       (read_first read_item (List.length items) items)) =
  Some (inr items).
Proof.
  intros Hne Hg. cbv [roundtrip open_input].
  rewrite (tree_output items Hne Hg), (tree_parse items Hg).
  cbn [elem_of]. cbv [bind JSONInputArchive.construct JSONInputArchive.Init
    JSONInputArchive.itsDocument JSONInputArchive.emplace_back
    JSONInputArchive.set_stack JSONInputArchive.itsNextName
    JSONInputArchive.itsIteratorStack].
  assert (Hm : Forall reads_member items).
  { rewrite Forall_forall in *. intros x Hx. now apply (reads_tree rb), Hg. }
  rewrite (reads_members items Hm _ _ [] 0%nat 0); try reflexivity.
  right. destruct items; [congruence | reflexivity].
Qed.

End Trees.

Lemma tree_is_written_witness :
  option_map (parse Some)
    (JSONOutputArchive.output (map exec (flat_map calls_of sample_tree))) =
  Some (Some (JObject
    [("id", JInt64 7);
     ("tags", JArray [JString "a"; JObject [("value0", JNull)]; JArray []]);
     ("value0", JObject []);
     ("value1", JUint64 (2 ^ 64 - 1))])).
Proof.
  apply (tree_is_written Some sample_tree); [discriminate |].
  repeat first
    [ apply Forall_nil | apply Forall_cons | apply good_leaf
    | apply good_branch | reflexivity | exact I | discriminate | intros _ ].
Defined.

Lemma tree_roundtrip_witness :
  result_of
    (roundtrip Some (map exec (flat_map calls_of sample_tree))
       (read_first read_item 4 sample_tree)) =
  Some (inr sample_tree).
Proof.
  apply (tree_roundtrip Some sample_tree); [discriminate |].
  repeat first
    [ apply Forall_nil | apply Forall_cons | apply good_leaf
    | apply good_branch | reflexivity | exact I | discriminate | intros _ ].
Defined.

Section RootSequence.

Variable rb : double -> option double.

Import JSONInputArchive.
Local Open Scope archive_scope.

(** X4.  A sequence at the top level.  After [makeArray] on a fresh
    archive the values are written as the elements of one top-level array,
    which the destructor closes; on the read side [loadSize] gives their
    number and they are read back in order. *)
Theorem root_sequence_roundtrip items :
  items <> [] ->
  Forall (good rb) items ->
  Forall (fun c => item_name c = None) items ->
  let written :=
    JSONOutputArchive.makeArray :: map exec (flat_map calls_of items) in
  option_map (parse rb) (JSONOutputArchive.output written) =
    Some (Some (JArray (map elem_of items))) /\
  result_of (roundtrip rb written loadSize) =
    Some (inr (List.length items)) /\
  result_of
    (roundtrip rb written
       (size <- loadSize ;; read_first read_item size items)) =
    Some (inr items).
Proof.
  intros Hne Hg Hu written.
  assert (Hw : Forall writes_element items).
  { rewrite Forall_forall in *. intros x Hx. now apply (writes_tree rb), Hg. }
  assert (Hr : Forall reads_element items).
  { rewrite Forall_forall in *. intros x Hx. now apply (reads_tree rb), Hg. }
  assert (Ho : JSONOutputArchive.output written =
               Some (value_tokens (Branch None true items))).
  { subst written.
    cbv [JSONOutputArchive.output JSONOutputArchive.construct].
    cbn [JSONOutputArchive.run]. 
    cbv [JSONOutputArchive.makeArray JSONOutputArchive.itsNodeStack
         JSONOutputArchive.set_top JSONOutputArchive.itsWriter
         JSONOutputArchive.itsNextName JSONOutputArchive.itsNameCounter tl].
    rewrite (writes_elements items Hw Hu [] [0] StartArray [] eq_refl).
    destruct items as [| i r]; [congruence |]. reflexivity. }
  assert (Hp : parse rb (value_tokens (Branch None true items)) =
               Some (JArray (map elem_of items))).
  { cbv [parse]. rewrite (parses_tree rb (Branch None true items)).
    - reflexivity.
    - constructor; [exact Hg | intros _; exact Hu]. }
  assert (Hs : forall A (m : M A),
             roundtrip rb written m =
             m (mkArchive None (JArray (map elem_of items))
                  [Iterator_array (map elem_of items)])).
  { intros A m. cbv [roundtrip open_input]. rewrite Ho, Hp. reflexivity. }
  assert (Hl : loadSize (mkArchive None (JArray (map elem_of items))
                           [Iterator_array (map elem_of items)]) =
               Return (List.length items)
                 (mkArchive None (JArray (map elem_of items))
                    [Iterator_array (map elem_of items)])).
  { cbv [loadSize itsIteratorStack itsDocument value_of size_of ret].
    now rewrite length_map. }
  split; [| split].
  - rewrite Ho. cbn [option_map]. now rewrite Hp.
  - now rewrite Hs, Hl.
  - rewrite Hs, (bind_Return _ _ _ _ _ Hl).
    rewrite (reads_elements items Hr Hu _ _ [] 0%nat); try reflexivity.
    right. destruct items; [congruence | reflexivity].
Qed.

End RootSequence.

Lemma root_sequence_roundtrip_witness :
  let items := [Leaf None (VInt 1); Branch None false [Leaf (Some "k") VNull];
                Leaf None (VString "z")] in
  let written :=
    JSONOutputArchive.makeArray :: map exec (flat_map calls_of items) in
  option_map (parse Some) (JSONOutputArchive.output written) =
    Some (Some (JArray [JInt64 1; JObject [("k", JNull)]; JString "z"])) /\
  result_of (roundtrip Some written JSONInputArchive.loadSize) =
    Some (inr 3%nat) /\
  result_of
    (roundtrip Some written
       (bind JSONInputArchive.loadSize
          (fun size => read_first read_item size items))) =
    Some (inr items).
Proof.
  intros items.
  apply (root_sequence_roundtrip Some items); [discriminate | |];
  repeat first
    [ apply Forall_nil | apply Forall_cons | apply good_leaf
    | apply good_branch | reflexivity | exact I | discriminate | intros _ ].
Defined.

(** ** Invariants of the write side *)

Section Levels.

Import JSONOutputArchive.

Lemma levels_writeName ar :
  levels_ok ar -> exists ar', writeName ar = Some ar' /\ levels_ok ar' /\
    opened (hd StartObject (itsNodeStack ar')) = hd StartObject (itsNodeStack ar') /\
    List.length (itsNodeStack ar') = List.length (itsNodeStack ar).
Proof.
  destruct ar as [w p cs nodes]. intros (Hne & Hl & Hb). cbn in *.
  destruct nodes as [| top below]; [congruence |].
  destruct cs as [| c cs]; [discriminate |]. cbn in Hb.
  destruct (is_array_level top) eqn:Ht.
  - rewrite (writeName_array w p (c :: cs) top below Ht).
    eexists. split; [reflexivity |]. cbv [levels_ok]. cbn.
    repeat split; try assumption; congruence.
  - rewrite (writeName_object w p c cs top below Ht).
    eexists. split; [reflexivity |]. cbv [levels_ok]. cbn.
    repeat split; try assumption; congruence.
Qed.

(** X5.  The write side keeps its two stacks in step and only the level on
    top unopened; while it does, no call has undefined behaviour: every
    call but a [finishNode] of the root level keeps this state, and the
    destructor is defined. *)
Theorem levels_stay_ok :
  levels_ok construct /\
  forall ar, levels_ok ar ->
    (forall n, levels_ok (setNextName n ar)) /\
    (forall v, levels_ok (saveValue v ar)) /\
    (exists ar', writeName ar = Some ar' /\ levels_ok ar') /\
    (forall v, exists ar', save v ar = Some ar' /\ levels_ok ar') /\
    (exists ar', startNode ar = Some ar' /\ levels_ok ar') /\
    (exists ar', makeArray ar = Some ar' /\ levels_ok ar') /\
    (forall data name,
       exists ar', saveBinaryValue data name ar = Some ar' /\ levels_ok ar') /\
    (exists ar', destroy ar = Some ar') /\
    (exists ar', finishNode ar = Some ar' /\
                 (tl (itsNodeStack ar) <> [] -> levels_ok ar')).
Proof.
  split.
  { cbv [levels_ok construct]. cbn. repeat split; [discriminate | constructor]. }
  intros ar Hok.
  assert (Hname : forall n, levels_ok (setNextName n ar)).
  { intros n. destruct ar. exact Hok. }
  split; [exact Hname |].
  split. { intros v. destruct ar. exact Hok. }
  split. { destruct (levels_writeName ar Hok) as (ar' & H & H' & _). eauto. }
  split.
  { intros v. destruct (levels_writeName ar Hok) as (ar' & H & H' & _).
    exists (saveValue v ar'). cbv [save]. rewrite H. split; [reflexivity |].
    destruct ar'. exact H'. }
  split.
  { destruct (levels_writeName ar Hok) as (ar' & H & (Hne & Hl & Hb) & Ho & _).
    cbv [startNode]. rewrite H. eexists. split; [reflexivity |].
    cbv [levels_ok]. cbn. repeat split; [discriminate | now rewrite Hl |].
    destruct (itsNodeStack ar') as [| top below]; [congruence |].
    cbn in *. now constructor. }
  split.
  { destruct ar as [w p cs nodes]. destruct Hok as (Hne & Hl & Hb). cbn in *.
    destruct nodes as [| top below]; [congruence |].
    eexists. split; [reflexivity |]. cbv [levels_ok]. cbn.
    repeat split; [discriminate | assumption | assumption]. }
  split.
  { intros data name.
    destruct (levels_writeName _ (Hname name)) as (ar' & H & H' & _).
    cbv [saveBinaryValue]. rewrite H. eexists. split; [reflexivity |].
    destruct ar'. exact H'. }
  split.
  { destruct Hok as (Hne & _). cbv [destroy].
    destruct (itsNodeStack ar) as [| [] ?]; [congruence | eauto ..]. }
  destruct ar as [w p cs nodes]. destruct Hok as (Hne & Hl & Hb). cbn in *.
  destruct nodes as [| top below]; [congruence |].
  destruct cs as [| c cs]; [discriminate |].
  cbv [finishNode itsNodeStack itsNameCounter]. eexists.
  split; [reflexivity |]. intros Hbelow. cbv [levels_ok]. cbn in *.
  repeat split; [assumption | congruence |].
  destruct below; [congruence |]. now inversion Hb.
Qed.

Lemma levels_stay_ok_witness :
  let ar := mkArchive [TkStartObject; TkString "a"] None [0; 1]
              [StartArray; InObject] in
  levels_ok ar /\
  (exists ar', writeName ar = Some ar' /\ levels_ok ar') /\
  (exists ar', finishNode ar = Some ar' /\
               (tl (itsNodeStack ar) <> [] -> levels_ok ar')).
Proof.
  intros ar.
  assert (H : levels_ok ar).
  { cbv [levels_ok ar]. cbn.
    repeat split; [discriminate | repeat constructor]. }
  split; [exact H |].
  split.
  - exact (proj1 (proj2 (proj2 (proj2 levels_stay_ok ar H)))).
  - exact (proj2 (proj2 (proj2 (proj2 (proj2 (proj2 (proj2 (proj2
             (proj2 levels_stay_ok ar H))))))))).
Defined.

End Levels.

Section Balanced.

Import JSONOutputArchive.

Lemma levels_with_name n ar :
  levels_ok ar -> levels_ok (with_name n ar) /\
  itsNodeStack (with_name n ar) = itsNodeStack ar.
Proof. intros H. destruct n, ar; now split. Qed.

Lemma levels_writeName_stack ar top below :
  levels_ok ar ->
  itsNodeStack ar = top :: below ->
  exists ar',
    writeName ar = Some ar' /\ levels_ok ar' /\
    itsNodeStack ar' = opened top :: below.
Proof.
  destruct ar as [w p cs nodes]. intros (Hne & Hl & Hb) Hs. cbn in *.
  subst nodes. destruct cs as [| c cs]; [discriminate |]. cbn in Hb.
  destruct (is_array_level top) eqn:Ht.
  - rewrite (writeName_array w p (c :: cs) top below Ht).
    eexists. split; [reflexivity |]. cbv [levels_ok]. cbn.
    rewrite (opened_array top Ht).
    repeat split; try assumption; congruence.
  - rewrite (writeName_object w p c cs top below Ht).
    eexists. split; [reflexivity |]. cbv [levels_ok]. cbn.
    rewrite (opened_object top Ht).
    repeat split; try assumption; congruence.
Qed.

Lemma balanced_stack cs :
  balanced cs ->
  forall ar top below,
    levels_ok ar ->
    itsNodeStack ar = top :: below ->
    exists ar',
      run (map exec cs) ar = Some ar' /\
      levels_ok ar' /\
      itsNodeStack ar' =
        match cs with [] => top | _ :: _ => opened top end :: below.
Proof.
  induction 1 as [| name v rest _ IHrest
                  | name array body rest _ IHbody _ IHrest];
    intros ar top below Hok Hs.
  - exists ar. split; [reflexivity | split; assumption].
  - destruct (levels_with_name name ar Hok) as (Hok1 & Hs1).
    rewrite Hs in Hs1.
    destruct (levels_writeName_stack _ top below Hok1 Hs1)
      as (ar1 & Hw & Hok2 & Hs2).
    assert (Hok3 : levels_ok (saveValue v ar1)) by (destruct ar1; exact Hok2).
    assert (Hs3 : itsNodeStack (saveValue v ar1) = opened top :: below)
      by (destruct ar1; exact Hs2).
    destruct (IHrest _ _ _ Hok3 Hs3) as (ar' & Hr & Hok' & Hs').
    exists ar'. cbn [map run exec]. cbv [save]. rewrite Hw.
    split; [exact Hr |]. split; [exact Hok' |].
    rewrite Hs'. destruct rest; [reflexivity | now rewrite opened_opened].
  - destruct (levels_with_name name ar Hok) as (Hok1 & Hs1).
    rewrite Hs in Hs1.
    destruct (levels_writeName_stack _ top below Hok1 Hs1)
      as (ar1 & Hw & (Hne2 & Hl2 & Hb2) & Hs2).
    set (kind := if array then StartArray else StartObject).
    set (ar2 := mkArchive (itsWriter ar1) (itsNextName ar1)
                  (0 :: itsNameCounter ar1) (kind :: itsNodeStack ar1)).
    assert (Hstart : exec (CallStart name array) ar = Some ar2).
    { cbv [exec startNode]. rewrite Hw. subst ar2 kind. now destruct array. }
    assert (Hok2 : levels_ok ar2).
    { subst ar2. cbv [levels_ok]. cbn. rewrite Hs2 in *. cbn in *.
      repeat split; [discriminate | now rewrite Hl2 |].
      constructor; [apply opened_opened | exact Hb2]. }
    destruct (IHbody ar2 kind (opened top :: below) Hok2)
      as (ar3 & Hr3 & Hok3 & Hs3).
    { subst ar2. cbn. now rewrite Hs2. }
    assert (Hfin : exists ar4,
               finishNode ar3 = Some ar4 /\ levels_ok ar4 /\
               itsNodeStack ar4 = opened top :: below).
    { destruct ar3 as [w3 p3 c3 n3]. destruct Hok3 as (Hne3 & Hl3 & Hb3).
      cbn in *. subst n3. destruct c3 as [| c c3]; [discriminate |].
      cbv [finishNode itsNodeStack itsNameCounter]. eexists.
      split; [reflexivity |]. cbn in *. split; [| reflexivity].
      cbv [levels_ok]. cbn.
      repeat split; [discriminate | congruence | now inversion Hb3]. }
    destruct Hfin as (ar4 & Hf & Hok4 & Hs4).
    destruct (IHrest ar4 _ _ Hok4 Hs4) as (ar' & Hr & Hok' & Hs').
    exists ar'.
    change (CallStart name array :: body ++ CallFinish :: rest)
      with ([CallStart name array] ++ body ++ [CallFinish] ++ rest).
    rewrite map_app, run_app. cbn [map run]. rewrite Hstart.
    rewrite map_app, run_app, Hr3.
    rewrite map_app, run_app. cbn [map run exec]. rewrite Hf.
    split; [exact Hr |]. split; [exact Hok' |].
    rewrite Hs'. destruct rest; [reflexivity | now rewrite opened_opened].
Qed.

(** X14.  Disciplined calls are always defined.  Whatever the values, a
    sequence of framework calls in which every started node is finished has
    no undefined behaviour, leaves the node stack as deep as it found it
    and can be closed by the destructor.  One [finishNode] more pops the
    root level, and the destructor then reads the top of an empty stack. *)
Theorem unmatched_finish cs :
  balanced cs ->
  (exists ts, output (map exec cs) = Some ts) /\
  output (map exec (cs ++ [CallFinish])) = None /\
  forall ar top below,
    levels_ok ar -> itsNodeStack ar = top :: below ->
    exists ar',
      run (map exec cs) ar = Some ar' /\ levels_ok ar' /\
      List.length (itsNodeStack ar') = List.length (itsNodeStack ar).
Proof.
  intros Hb.
  assert (Hc : levels_ok construct).
  { cbv [levels_ok construct]. cbn.
    repeat split; [discriminate | constructor]. }
  destruct (balanced_stack cs Hb construct StartObject [] Hc eq_refl)
    as (ar & Hr & Hok & Hs).
  split; [| split].
  - cbv [output]. rewrite Hr. cbv [destroy]. rewrite Hs.
    destruct (match cs with [] => _ | _ => _ end); eauto.
  - cbv [output]. rewrite map_app, run_app, Hr. cbn [map run exec].
    destruct ar as [w p c n]. destruct Hok as (_ & Hl & _). cbn in *.
    subst n. destruct c as [| c0 [| c1 c]]; try discriminate.
    reflexivity.
  - intros ar0 top below Hok0 Hs0.
    destruct (balanced_stack cs Hb ar0 top below Hok0 Hs0)
      as (ar' & Hr' & Hok' & Hs').
    exists ar'. split; [exact Hr' |]. split; [exact Hok' |].
    now rewrite Hs', Hs0.
Qed.

Lemma unmatched_finish_witness :
  (exists ts,
     output (map exec [CallStart None true; CallSave None (VInt 1);
                       CallFinish]) = Some ts) /\
  output (map exec [CallStart None true; CallSave None (VInt 1); CallFinish;
                    CallFinish]) = None.
Proof.
  assert (H : balanced [CallStart None true; CallSave None (VInt 1);
                        CallFinish]).
  { apply (balanced_node None true [CallSave None (VInt 1)] []);
      repeat constructor. }
  split.
  - exact (proj1 (unmatched_finish _ H)).
  - exact (proj1 (proj2 (unmatched_finish _ H))).
Defined.

End Balanced.

(** ** The destructor *)

Section Unfinished.

Import JSONOutputArchive.

Lemma open_depth_token v : open_depth [token_of v] = 0.
Proof. now destruct v. Qed.

Lemma depth_opened w top :
  open_depth (w ++ opening top) = open_depth (w ++ closing top) + 1.
Proof. rewrite !open_depth_app. destruct top; cbn; lia. Qed.

Lemma exec_empty c ar : itsNodeStack ar = [] -> exec c ar = None.
Proof.
  destruct ar as [w p cs nodes]. cbn. intros ->.
  destruct c as [[n |] v | [n |] [] |]; reflexivity.
Qed.

Lemma exec_depth c ar ar' :
  depth_ok ar -> exec c ar = Some ar' ->
  (itsNodeStack ar' = [] \/ depth_ok ar') /\
  Z.of_nat (List.length (itsNodeStack ar')) =
  Z.of_nat (List.length (itsNodeStack ar)) + unfinished [c].
Proof.
  destruct ar as [w p cs nodes]. intros ((Hne & Hl & Hb) & Hd) He.
  cbn in Hne, Hl, Hb, Hd.
  destruct nodes as [| top below]; [congruence |].
  destruct cs as [| c0 cs]; [discriminate |]. cbn in Hb, Hd, Hl.
  pose proof (depth_opened w top) as Ho.
  destruct c as [name v | name array |].
  - (* a scalar *)
    assert (E : with_name name (mkArchive w p (c0 :: cs) (top :: below)) =
                mkArchive w (match name with Some n => Some n | None => p end)
                  (c0 :: cs) (top :: below)) by now destruct name.
    cbn [exec] in He. rewrite E in He.
    destruct (is_array_level top) eqn:Ht.
    + rewrite (save_array v w _ (c0 :: cs) top below Ht) in He.
      injection He as <-. split; [right |]; cbn.
      * split; [cbv [levels_ok]; cbn; repeat split;
                [discriminate | assumption | assumption] |].
        cbn. rewrite !open_depth_app in *.
        pose proof (open_depth_token v) as Hv. cbn in *. lia.
      * cbn [List.length]. lia.
    + rewrite (save_object v w _ c0 cs top below Ht) in He.
      injection He as <-. split; [right |]; cbn.
      * split; [cbv [levels_ok]; cbn; repeat split;
                [discriminate | assumption | assumption] |].
        cbn. rewrite !open_depth_app in *.
        pose proof (open_depth_token v) as Hv. cbn in *. lia.
      * cbn [List.length]. lia.
  - (* a node is started *)
    assert (E : with_name name (mkArchive w p (c0 :: cs) (top :: below)) =
                mkArchive w (match name with Some n => Some n | None => p end)
                  (c0 :: cs) (top :: below)) by now destruct name.
    cbn [exec] in He. rewrite E in He.
    destruct (is_array_level top) eqn:Ht.
    + rewrite (startNode_array w _ (c0 :: cs) top below Ht) in He.
      assert (Hstack : itsNodeStack ar' =
                (if array then StartArray else StartObject) ::
                InArray :: below /\
              itsWriter ar' = w ++ opening top /\
              itsNameCounter ar' = 0 :: c0 :: cs).
      { destruct array; injection He as <-; now repeat split. }
      destruct Hstack as (Hs & Hw & Hc). split; [right |].
      * split.
        -- cbv [levels_ok]. rewrite Hs, Hc. cbn.
           repeat split; [discriminate | now rewrite Hl |].
           now constructor.
        -- rewrite Hs, Hw. cbn [hd tl List.length].
           replace (closing (if array then StartArray else StartObject))
             with (@nil token) by now destruct array.
           rewrite app_nil_r, Ho, Hd. lia.
      * rewrite Hs. cbn [itsNodeStack List.length unfinished]. lia.
    + rewrite (startNode_object w _ c0 cs top below Ht) in He.
      assert (Hstack : itsNodeStack ar' =
                (if array then StartArray else StartObject) ::
                InObject :: below /\
              itsWriter ar' = w ++ opening top ++ [TkString (key_of
                (match name with Some n => Some n | None => p end) c0)] /\
              List.length (itsNameCounter ar') = S (S (List.length cs))).
      { destruct array; injection He as <-; now repeat split. }
      destruct Hstack as (Hs & Hw & Hc). split; [right |].
      * split.
        -- cbv [levels_ok]. rewrite Hs, Hc. cbn.
           repeat split; [discriminate | now rewrite <- Hl |].
           now constructor.
        -- rewrite Hs, Hw. cbn [hd tl List.length].
           replace (closing (if array then StartArray else StartObject))
             with (@nil token) by now destruct array.
           rewrite app_nil_r, app_assoc, open_depth_app, Ho, Hd.
           cbn [open_depth]. lia.
      * rewrite Hs. cbn [itsNodeStack List.length unfinished]. lia.
  - (* a node is finished *)
    cbn [exec] in He. cbv [finishNode itsNodeStack itsNameCounter] in He.
    injection He as <-. cbn [itsNodeStack List.length unfinished].
    split; [| lia].
    destruct below as [| parent rest]; [now left | right].
    inversion Hb as [| ? ? Hp Hrest]; subst.
    split.
    + cbv [levels_ok]. cbn. repeat split; [discriminate | | assumption].
      cbn in Hl. lia.
    + cbn [hd tl List.length itsNodeStack itsWriter] in *.
      assert (Hclose : closing parent <> []) by (destruct parent; discriminate).
      assert (Hcd : open_depth (closing parent) = - 1).
      { destruct parent; try discriminate; reflexivity. }
      rewrite open_depth_app, Hcd.
      destruct top; cbv [write itsWriter itsNextName itsNameCounter
                         itsNodeStack]; cbn in Hd;
        rewrite ?open_depth_app in *; cbn [open_depth] in *;
        rewrite ?app_nil_r in Hd; lia.
Qed.

Lemma run_depth : forall cs ar ar',
  depth_ok ar -> run (map exec cs) ar = Some ar' ->
  (itsNodeStack ar' = [] \/ depth_ok ar') /\
  Z.of_nat (List.length (itsNodeStack ar')) =
  Z.of_nat (List.length (itsNodeStack ar)) + unfinished cs.
Proof.
  induction cs as [| c cs IH]; intros ar ar' Hok Hr.
  - injection Hr as <-. split; [now right | cbn; lia].
  - cbn [map run] in Hr. destruct (exec c ar) as [ar1 |] eqn:E; [| discriminate].
    destruct (exec_depth c ar ar1 Hok E) as ([Hempty | Hok1] & Hlen).
    + destruct cs as [| c' cs].
      * injection Hr as <-. split; [now left | exact Hlen].
      * cbn [map run] in Hr. now rewrite (exec_empty c' ar1 Hempty) in Hr.
    + destruct (IH ar1 ar' Hok1 Hr) as (H1 & H2). split; [exact H1 |].
      rewrite H2, Hlen. destruct c; cbn [unfinished]; lia.
Qed.

Lemma depth_ok_construct : depth_ok construct.
Proof.
  split; [| reflexivity]. cbv [levels_ok construct]. cbn.
  repeat split; [discriminate | constructor].
Qed.

Lemma destroy_unfinished rb cs ar :
  run (map exec cs) construct = Some ar ->
  0 <= unfinished cs ->
  exists ar',
    destroy ar = Some ar' /\
    Z.of_nat (List.length (itsNodeStack ar)) = 1 + unfinished cs /\
    open_depth (itsWriter ar') = unfinished cs /\
    (0 < unfinished cs -> parse rb (itsWriter ar') = None).
Proof.
  intros Hr Hn.
  destruct (run_depth cs construct ar depth_ok_construct Hr)
    as ([Hempty | (Hok & Hd)] & Hlen).
  - rewrite Hempty in Hlen. cbn [construct itsNodeStack List.length] in Hlen.
    lia.
  - cbn [construct itsNodeStack List.length] in Hlen.
    destruct (itsNodeStack ar) as [| top below] eqn:Hs;
      [now destruct Hok |].
    rewrite (destroy_spec ar top below Hs). eexists. split; [reflexivity |].
    cbn [itsWriter hd tl] in *. cbn [List.length] in *.
    change (Z.of_nat 1) with 1 in Hlen.
    split; [lia |]. split; [lia |].
    intros Hpos.
    destruct (parse rb (itsWriter ar ++ closing top)) eqn:Hp; [| reflexivity].
    apply parse_closed in Hp. lia.
Qed.

End Unfinished.

Section Destructor.

Import JSONOutputArchive.

(** C4 as stated fails: with one compound still open inside the root, the
    destructor closes the inner one and leaves the root open. *)
Lemma destructor_counterexample :
  match nested 1 (VInt 1) construct with
  | Some ar =>
      itsNodeStack ar = [InObject; InObject] /\
      option_map itsWriter (destroy ar) =
      Some [TkStartObject; TkString "value0";
            TkStartObject; TkString "value0"; TkInt 1; TkEndObject] /\
      option_map (fun a => parse Some (itsWriter a)) (destroy ar) = Some None /\
      option_map (fun a => open_depth (itsWriter a)) (destroy ar) = Some 1
  | None => False
  end.
Proof. cbn. repeat split. Qed.


(** C4 (amended).  The destructor closes only the compound on top of the
    node stack, and only if it has been opened: it writes one end token for
    an [InObject] or [InArray] top and nothing else.  After any sequence
    of framework calls that leaves [n] compounds started and not finished,
    exactly [n] compounds are left unclosed in the output, which for
    [n >= 1] is not a document.  The output is a complete document when
    something was written, every compound started has been finished and
    the writer printed a JSON value for every scalar; when nothing was
    written, nothing is emitted. *)
Theorem destructor_closes_top_only :
  (forall ar top nodes,
     itsNodeStack ar = top :: nodes ->
     destroy ar =
     Some (mkArchive (itsWriter ar ++ closing top) (itsNextName ar)
             (itsNameCounter ar) (itsNodeStack ar))) /\
  (forall rb n v,
     exists ar ar',
       nested n v construct = Some ar /\
       List.length (itsNodeStack ar) = S n /\
       destroy ar = Some ar' /\
       open_depth (itsWriter ar') = Z.of_nat n /\
       (n <> 0%nat -> parse rb (itsWriter ar') = None) /\
       (n = 0%nat -> forall e,
          scalar_element rb (token_of v) = Some e ->
          parse rb (itsWriter ar') = Some (JObject [("value0", e)]))) /\
  (forall rb cs,
     balanced cs -> cs <> [] -> Forall (readable rb) cs ->
     exists ts members,
       output (map exec cs) = Some ts /\
       parse rb ts = Some (JObject members)) /\
  (forall rb cs ar,
     run (map exec cs) construct = Some ar ->
     0 <= unfinished cs ->
     exists ar',
       destroy ar = Some ar' /\
       Z.of_nat (List.length (itsNodeStack ar)) = 1 + unfinished cs /\
       open_depth (itsWriter ar') = unfinished cs /\
       (0 < unfinished cs -> parse rb (itsWriter ar') = None)) /\
  (output [] = Some [] /\ forall rb, parse rb [] = None).
Proof.
  split; [exact destroy_spec|].
  split; [|split; [exact balanced_output_parses |
                   split; [exact destroy_unfinished | now split]]].
  intros rb n v.
  destruct (nested_spec v n [] [] []) as (w' & cs' & nodes' & Hn & Hd & Hl).
  exists (mkArchive w' None cs' (InObject :: nodes')).
  cbn [List.length] in Hl.
  eexists. split; [exact Hn|]. split; [cbn; lia|].
  split; [reflexivity|].
  cbn [itsWriter write]. rewrite open_depth_app, Hd.
  split; [cbn; lia|]. split.
  - intros Hn0. destruct (parse rb (w' ++ [TkEndObject])) eqn:Hp; [|reflexivity].
    apply parse_closed in Hp. rewrite open_depth_app, Hd in Hp.
    cbn in Hp. lia.
  - intros -> e He. cbn [nested] in Hn.
    unfold construct in Hn. rewrite save_object in Hn by reflexivity.
    inversion Hn; subst. cbn [app opening key_of].
    change (to_string 0) with "0". cbn [String.append].
    now apply parse_member.
Qed.

Lemma destructor_closes_top_only_witness :
  (exists ar ar',
     nested 2 (VInt 1) construct = Some ar /\
     destroy ar = Some ar' /\
     open_depth (itsWriter ar') = 2 /\
     parse Some (itsWriter ar') = None) /\
  (exists ts members,
     output (map exec [CallStart (Some "list") true; CallSave None (VInt 1);
                       CallFinish; CallSave (Some "x") VNull]) = Some ts /\
     parse Some ts = Some (JObject members)) /\
  (exists ar ar',
     run (map exec [CallStart (Some "list") true; CallSave None (VInt 1);
                    CallStart None false]) construct = Some ar /\
     destroy ar = Some ar' /\
     open_depth (itsWriter ar') = 2 /\
     parse Some (itsWriter ar') = None).
Proof.
  split; [| split].
  - destruct (proj1 (proj2 destructor_closes_top_only) Some 2%nat (VInt 1))
      as (ar & ar' & H1 & _ & H3 & H4 & H5 & _).
    exists ar, ar'.
    repeat split; [exact H1 | exact H3 | exact H4 | apply H5; discriminate].
  - apply (proj1 (proj2 (proj2 destructor_closes_top_only)) Some).
    + apply (balanced_node (Some "list") true [CallSave None (VInt 1)]
               [CallSave (Some "x") VNull]);
        repeat constructor.
    + discriminate.
    + repeat constructor; eexists; reflexivity.
  - eexists.
    destruct (proj1 (proj2 (proj2 (proj2 destructor_closes_top_only))) Some
                [CallStart (Some "list") true; CallSave None (VInt 1);
                 CallStart None false] _ eq_refl ltac:(cbn; lia))
      as (ar' & H1 & _ & H3 & H4).
    exists ar'. repeat split; [exact H1 | exact H3 | apply H4; cbn; lia].
Defined.

End Destructor.


(** ** Invariants of the read side *)

Section Sound.

Import JSONInputArchive.
Local Open Scope archive_scope.

Lemma ranges_over_moved it it' e :
  moved it it' -> ranges_over it e -> ranges_over it' e.
Proof.
  intros (Ho & Ha & Ht & _). destruct e; cbn; try tauto;
    rewrite Ho, Ha, Ht; tauto.
Qed.

Lemma sound_moved p p' doc it it' rest :
  moved it it' ->
  sound (mkArchive p doc (it :: rest)) ->
  sound (mkArchive p' doc (it' :: rest)).
Proof.
  intros Hm (Hl & Hr). split;
    cbn [linked itsDocument itsIteratorStack] in *.
  - destruct rest as [| parent rest].
    + exact (ranges_over_moved it it' doc Hm Hl).
    + destruct Hl as ((e & Hv & Hro) & Hl). split; [| exact Hl].
      exists e. split; [exact Hv |]. exact (ranges_over_moved it it' e Hm Hro).
  - inversion Hr; subst. constructor; [apply Hm | assumption].
Qed.

Lemma moved_refl it : in_range it -> moved it it.
Proof. intros H. cbv [moved]. auto. Qed.

Lemma moved_advance it : in_range it -> moved it (advance it).
Proof.
  intros (Ho & Ha). cbv [advance].
  destruct (itsType it) eqn:Ht.
  - destruct (Nat.eqb_spec (itsArrayItCurrent it) (itsArrayItEnd it));
      [now apply moved_refl |].
    cbv [moved in_range set_array_current itsArrayItEnd itsObjectItEnd] in *.
    cbn. repeat split; try assumption; lia.
  - destruct (Nat.eqb_spec (itsObjectItCurrent it) (itsObjectItEnd it));
      [now apply moved_refl |].
    cbv [moved in_range set_object_current itsArrayItEnd itsObjectItEnd] in *.
    cbn. repeat split; try assumption; lia.
  - now apply moved_refl.
Qed.

Lemma scan_bound n : forall ms i0,
  (i0 <= fst (scan n ms i0) <= i0 + List.length ms)%nat.
Proof.
  induction ms as [| [k e] ms IH]; intros i0; cbn; [lia |].
  destruct (String.eqb k n); cbn; [lia |].
  specialize (IH (S i0)). lia.
Qed.

Lemma moved_search n it :
  in_range it ->
  match Iterator_search n it with
  | Return _ it' | Throw _ it' => moved it it'
  | Undefined => False
  end.
Proof.
  intros Hr. cbv [Iterator_search].
  destruct (itsType it) eqn:Ht; try now apply moved_refl.
  pose proof (scan_bound (c_str n) (itsObjectRange it) 0) as Hb.
  destruct (scan (c_str n) (itsObjectRange it) 0) as [i found]. cbn in Hb.
  assert (Hm : moved it (set_object_current i it)).
  { destruct Hr as (Ho & Ha).
    cbv [moved in_range set_object_current itsArrayItEnd itsObjectItEnd] in *.
    cbn. repeat split; try assumption; lia. }
  now destruct found.
Qed.

Lemma value_defined it :
  in_range it ->
  match value it with
  | Return _ it' | Throw _ it' => it' = it
  | Undefined => False
  end.
Proof.
  intros (Ho & Ha). cbv [value itsObjectItEnd itsArrayItEnd] in *.
  destruct (itsType it); try reflexivity.
  - destruct (Nat.eqb_spec (itsArrayItCurrent it)
                (List.length (itsArrayRange it))); [reflexivity |].
    destruct (nth_error (itsArrayRange it) (itsArrayItCurrent it)) eqn:E;
      [reflexivity |].
    apply nth_error_None in E. lia.
  - destruct (Nat.eqb_spec (itsObjectItCurrent it)
                (List.length (itsObjectRange it))); [reflexivity |].
    destruct (nth_error (itsObjectRange it) (itsObjectItCurrent it))
      as [[k e] |] eqn:E; [reflexivity |].
    apply nth_error_None in E. lia.
Qed.

Lemma moved_trans a b c : moved a b -> moved b c -> moved a c.
Proof.
  intros (H1 & H2 & H3 & _) (H4 & H5 & H6 & H7).
  cbv [moved]. repeat split; try congruence; apply H7.
Qed.

Lemma moved_children it it' : moved it it' -> children it' = children it.
Proof.
  intros (Ho & Ha & _). cbv [children itsObjectItEnd itsArrayItEnd].
  now rewrite Ho, Ha.
Qed.

(** A member function of the cursor on top that only moves it. *)
Lemma keeps_level_back {A} (m : Iterator -> outcome Iterator A) :
  (forall it, in_range it ->
     match m it with
     | Return _ it' | Throw _ it' => moved it it'
     | Undefined => False
     end) ->
  keeps_level (back m).
Proof.
  intros Hm p doc it rest Hr. cbv [back itsIteratorStack].
  specialize (Hm it Hr).
  destruct (m it); try assumption; cbv [set_stack]; cbn; eauto.
Qed.

Lemma keeps_level_bind {A B} (m : M A) (f : A -> M B) :
  keeps_level m -> (forall a, keeps_level (f a)) -> keeps_level (bind m f).
Proof.
  intros Hm Hf p doc it rest Hr. cbv [bind]. specialize (Hm p doc it rest Hr).
  destruct (m _) as [a ar1 | e ar1 |]; try assumption.
  destruct Hm as (p1 & it1 & -> & Hm1).
  specialize (Hf a p1 doc it1 rest (proj2 (proj2 (proj2 Hm1)))).
  destruct (f a _) as [b ar2 | e ar2 |]; try assumption;
    destruct Hf as (p2 & it2 & -> & Hm2);
    exists p2, it2; (split; [reflexivity | now apply (moved_trans it it1)]).
Qed.

Ltac stay_here :=
  do 2 eexists; split; [reflexivity | now apply moved_refl].

Lemma keeps_level_ret {A} (a : A) : keeps_level (ret a).
Proof. intros p doc it rest Hr. cbv [ret]. stay_here. Qed.

Lemma keeps_level_throw {A} e : keeps_level (throw (A := A) e).
Proof. intros p doc it rest Hr. cbv [throw]. stay_here. Qed.

Lemma keeps_level_value_of {A} (r : simdjson_result A) :
  keeps_level (value_of r).
Proof. destruct r; [apply keeps_level_throw | apply keeps_level_ret]. Qed.

Lemma keeps_level_setNextName n : keeps_level (setNextName n).
Proof.
  intros p doc it rest Hr.
  cbv [setNextName set_name itsDocument itsIteratorStack]. stay_here.
Qed.

Lemma keeps_level_value : keeps_level (back value).
Proof.
  apply keeps_level_back. intros it Hr. pose proof (value_defined it Hr) as H.
  destruct (value it); try assumption; subst; now apply moved_refl.
Qed.

Lemma keeps_level_advance :
  keeps_level (back (fun it => Return tt (advance it))).
Proof. apply keeps_level_back. intros it Hr. now apply moved_advance. Qed.

Lemma keeps_level_getNodeName : keeps_level getNodeName.
Proof. apply keeps_level_back. intros it Hr. now apply moved_refl. Qed.

Lemma keeps_level_search : keeps_level search.
Proof.
  intros p doc it rest Hr. cbv [search itsNextName].
  destruct p as [n |];
    [| cbv [set_name itsDocument itsIteratorStack]; stay_here].
  refine (keeps_level_bind getNodeName _ keeps_level_getNodeName _
            None doc it rest Hr).
  intros [a |].
  - destruct (negb (strcmp n a =? 0)); [| apply keeps_level_ret].
    apply keeps_level_back. intros it0 Hr0. apply (moved_search n it0 Hr0).
  - apply keeps_level_back. intros it0 Hr0. apply (moved_search n it0 Hr0).
Qed.

Lemma keeps_level_load {A} (get : element -> simdjson_result A) :
  keeps_level (load get).
Proof.
  cbv [load]. apply keeps_level_bind; [apply keeps_level_search | intros _].
  apply keeps_level_bind; [apply keeps_level_value | intros e].
  apply keeps_level_bind; [apply keeps_level_value_of | intros val].
  apply keeps_level_bind; [apply keeps_level_advance | intros _].
  apply keeps_level_ret.
Qed.

Lemma keeps_level_loadValue t : keeps_level (loadValue t).
Proof.
  destruct t; cbv [loadValue loadValue_bool loadValue_small_signed
    loadValue_small_unsigned loadValue_int64 loadValue_uint64
    loadValue_double loadValue_string];
    try (apply keeps_level_bind;
         [apply keeps_level_load | intros ?; apply keeps_level_ret]).
  apply keeps_level_bind; [| intros ?; apply keeps_level_ret].
  cbv [loadValue_nullptr].
  apply keeps_level_bind; [apply keeps_level_search | intros _].
  apply keeps_level_bind; [apply keeps_level_value | intros e].
  apply keeps_level_bind; [| intros _; apply keeps_level_advance].
  cbv [RAPIDJSON_ASSERT]. destruct (is_null e);
    [apply keeps_level_ret | apply keeps_level_throw].
Qed.

Lemma keeps_level_loadValue_exotic {T} (stringToNumber : string -> exn + T) :
  keeps_level (loadValue_exotic stringToNumber).
Proof.
  cbv [loadValue_exotic loadValue_string].
  apply keeps_level_bind; [apply keeps_level_load | intros s].
  destruct (stringToNumber s); [apply keeps_level_throw | apply keeps_level_ret].
Qed.

Lemma keeps_level_safe {A} (m : M A) : keeps_level m -> safe m.
Proof.
  intros Hk [p doc stack] Hs.
  destruct stack as [| it rest]; [now destruct Hs |].
  assert (Hr : in_range it) by (destruct Hs as (_ & Hr); now inversion Hr).
  specialize (Hk p doc it rest Hr).
  destruct (m _) as [a ar' | e ar' |]; try assumption;
    destruct Hk as (p' & it' & -> & Hm);
    now apply (sound_moved p p' doc it it' rest).
Qed.

Lemma safe_search : safe search.
Proof. apply keeps_level_safe, keeps_level_search. Qed.

Lemma ranges_over_array arr : ranges_over (Iterator_array arr) (JArray arr).
Proof. now cbn. Qed.

Lemma ranges_over_object obj :
  ranges_over (Iterator_object obj) (JObject obj).
Proof. now cbn. Qed.

Lemma in_range_array arr : in_range (Iterator_array arr).
Proof. cbv [in_range]. cbn. lia. Qed.

Lemma in_range_object obj : in_range (Iterator_object obj).
Proof. cbv [in_range]. cbn. lia. Qed.

Lemma safe_startNode : safe startNode.
Proof.
  intros ar Hs. cbv [startNode]. unfold bind at 1.
  pose proof (safe_search ar Hs) as H1.
  destruct (search ar) as [[] ar1 | e ar1 |]; try assumption.
  destruct ar1 as [p doc stack]. cbv [bind back itsIteratorStack].
  destruct stack as [| it rest]; [now destruct H1 |].
  assert (Hr : in_range it) by (destruct H1 as (_ & Hr); now inversion Hr).
  pose proof (value_defined it Hr) as Hv.
  destruct (value it) as [e it' | e it' |] eqn:E; try assumption; subst it';
    cbv [set_stack itsNextName itsDocument]; [| exact H1].
  destruct H1 as (Hl & Hf). cbn in Hl, Hf.
  destruct e; cbn [push_children]; try (split; assumption).
  - cbv [emplace_back set_stack itsNextName itsDocument itsIteratorStack].
    split; cbn.
    + split; [| exact Hl]. exists (JArray items). now split.
    + constructor; [apply in_range_array | exact Hf].
  - cbv [emplace_back set_stack itsNextName itsDocument itsIteratorStack].
    split; cbn.
    + split; [| exact Hl]. exists (JObject members). now split.
    + constructor; [apply in_range_object | exact Hf].
Qed.

Lemma ranges_over_size it e :
  ranges_over it e ->
  is_array e || is_object e = true /\ size_of e = inr (children it).
Proof.
  cbv [children itsObjectItEnd itsArrayItEnd].
  destruct e; cbn; try tauto; intros (-> & -> & _); cbn;
    split; try reflexivity; f_equal; lia.
Qed.

Lemma loadSize_sound ar :
  sound ar ->
  exists it rest,
    itsIteratorStack ar = it :: rest /\
    loadSize ar = Return (children it) ar.
Proof.
  destruct ar as [p doc stack]. intros (Hl & Hr). cbn in *.
  destruct stack as [| it rest]; [now destruct Hl |].
  exists it, rest. split; [reflexivity |].
  cbv [loadSize itsIteratorStack itsDocument].
  destruct rest as [| parent rest].
  - cbn in Hl. destruct (ranges_over_size it doc Hl) as (_ & ->). reflexivity.
  - destruct Hl as ((e & Hv & Hro) & _). rewrite Hv.
    destruct (ranges_over_size it e Hro) as (-> & ->). reflexivity.
Qed.

Lemma safe_loadSize : safe loadSize.
Proof.
  intros ar Hs. destruct (loadSize_sound ar Hs) as (it & rest & _ & ->).
  exact Hs.
Qed.

Lemma sound_finishNode ar :
  sound ar ->
  (2 <= List.length (itsIteratorStack ar))%nat ->
  exists ar', finishNode ar = Return tt ar' /\ sound ar' /\
    List.length (itsIteratorStack ar') =
    pred (List.length (itsIteratorStack ar)).
Proof.
  destruct ar as [p doc stack]. intros (Hl & Hr) Hn. cbn in *.
  destruct stack as [| it [| parent rest]]; cbn in Hn; try lia.
  cbv [finishNode itsIteratorStack set_stack itsNextName itsDocument].
  eexists. split; [reflexivity |]. split; [| reflexivity].
  destruct Hl as (_ & Hl). inversion Hr as [| ? ? _ Hr']; subst.
  apply (sound_moved p p doc parent).
  - apply moved_advance. now inversion Hr'.
  - split; assumption.
Qed.

Lemma sound_construct doc :
  match construct doc with
  | Return _ ar => sound ar /\ is_array doc || is_object doc = true
  | Throw e _ =>
      e = Exception "JSON root element is not an object or array" /\
      is_array doc || is_object doc = false
  | Undefined => False
  end.
Proof.
  cbv [construct Init itsDocument emplace_back set_stack itsIteratorStack
       itsNextName].
  destruct doc; try (split; reflexivity).
  - split; [| reflexivity]. split; cbn.
    + now repeat split.
    + constructor; [apply in_range_array | constructor].
  - split; [| reflexivity]. split; cbn.
    + now repeat split.
    + constructor; [apply in_range_object | constructor].
Qed.

End Sound.

Section SoundTheorems.

Import JSONInputArchive.
Local Open Scope archive_scope.

Lemma safe_loadBinaryValue size name ar dst :
  sound ar ->
  (size <= List.length dst)%nat ->
  match loadBinaryValue size name (ar, dst) with
  | Return _ (ar', _) | Throw _ (ar', _) => sound ar'
  | Undefined => False
  end.
Proof.
  intros Hs Hd. cbv [loadBinaryValue].
  assert (Hs' : sound (set_name name ar)) by (destruct ar; exact Hs).
  pose proof (keeps_level_safe _ (keeps_level_load get_string) _ Hs') as H.
  change (load get_string) with loadValue_string in H.
  destruct (loadValue_string (set_name name ar)) as [s ar1 | e ar1 |];
    try assumption.
  destruct (Nat.eqb_spec size (List.length (base64.decode s))) as [E | E];
    cbn [negb]; [| exact H].
  destruct (Nat.ltb_spec (List.length dst) (List.length (base64.decode s)));
    [lia |].
  destruct ar1. exact H.
Qed.

(** X6.  A scalar read stays at its level.  With the cursor on top within
    its range, [search], [getNodeName], [setNextName] and every [loadValue]
    overload have no undefined behaviour and, returning or throwing, leave
    the document and the cursors below untouched and the cursor on top
    within the same range. *)
Theorem scalar_reads_keep_level :
  keeps_level search /\
  keeps_level getNodeName /\
  (forall n, keeps_level (setNextName n)) /\
  (forall t, keeps_level (loadValue t)) /\
  (forall w, keeps_level (loadValue_small_signed w)) /\
  (forall w, keeps_level (loadValue_small_unsigned w)) /\
  (forall (T : Type) (stringToNumber : string -> exn + T),
     keeps_level (loadValue_exotic stringToNumber)).
Proof.
  split; [apply keeps_level_search |].
  split; [apply keeps_level_getNodeName |].
  split; [apply keeps_level_setNextName |].
  split; [apply keeps_level_loadValue |].
  split; [intros w; apply keeps_level_load |].
  split; [intros w; apply keeps_level_load |].
  intros T f. apply keeps_level_loadValue_exotic.
Qed.

Lemma scalar_reads_keep_level_witness :
  let it := set_object_current 1 (Iterator_object [("a", JNull); ("b", JNull)]) in
  match loadValue TBool (mkArchive (Some "zz") JNull [it; Iterator_default]) with
  | Return _ ar' | Throw _ ar' =>
      exists p' it',
        ar' = mkArchive p' JNull [it'; Iterator_default] /\ moved it it'
  | Undefined => False
  end.
Proof.
  intros it.
  apply (proj1 (proj2 (proj2 (proj2 scalar_reads_keep_level))) TBool
           (Some "zz") JNull it [Iterator_default]).
  cbv [in_range it]. cbn. lia.
Defined.

(** X7.  The cursor stack follows the document.  The constructor accepts
    exactly an array or object root and starts with one cursor over it; from
    then on each cursor ranges over the value its parent is on, whatever
    reads, [startNode], [loadSize], [loadBinaryValue] into a large enough
    buffer and [finishNode] above the root do, and none of them has
    undefined behaviour. *)
Theorem cursor_stack_follows_document :
  (forall doc,
     match construct doc with
     | Return _ ar => sound ar /\ is_array doc || is_object doc = true
     | Throw e _ =>
         e = Exception "JSON root element is not an object or array" /\
         is_array doc || is_object doc = false
     | Undefined => False
     end) /\
  (forall (A : Type) (m : M A), keeps_level m -> safe m) /\
  safe startNode /\
  safe loadSize /\
  (forall ar,
     sound ar ->
     (2 <= List.length (itsIteratorStack ar))%nat ->
     exists ar',
       finishNode ar = Return tt ar' /\ sound ar' /\
       List.length (itsIteratorStack ar') =
       pred (List.length (itsIteratorStack ar))) /\
  (forall size name ar dst,
     sound ar ->
     (size <= List.length dst)%nat ->
     match loadBinaryValue size name (ar, dst) with
     | Return _ (ar', _) | Throw _ (ar', _) => sound ar'
     | Undefined => False
     end).
Proof.
  split; [apply sound_construct |].
  split; [intros A m; apply keeps_level_safe |].
  split; [apply safe_startNode |].
  split; [apply safe_loadSize |].
  split; [apply sound_finishNode | apply safe_loadBinaryValue].
Qed.

(** X8.  [loadSize] counts the children of the node being read: at the
    root the members of the document, below it those of the value the
    parent cursor is on; the count does not depend on how many of them
    have been read. *)
Theorem loadSize_counts_children ar it rest :
  sound ar ->
  itsIteratorStack ar = it :: rest ->
  loadSize ar = Return (children it) ar /\
  forall (A : Type) (m : M A),
    keeps_level m ->
    match m ar with
    | Return _ ar' | Throw _ ar' => loadSize ar' = Return (children it) ar'
    | Undefined => False
    end.
Proof.
  intros Hs Hst. split.
  - destruct (loadSize_sound ar Hs) as (it0 & rest0 & E & H). congruence.
  - intros A m Hk. destruct ar as [p doc stack]. cbn in Hst. subst stack.
    assert (Hr : in_range it) by (destruct Hs as (_ & Hr); now inversion Hr).
    specialize (Hk p doc it rest Hr).
    destruct (m _) as [a ar' | e ar' |]; try assumption;
      destruct Hk as (p' & it' & -> & Hm);
      pose proof (sound_moved p p' doc it it' rest Hm Hs) as Hs';
      destruct (loadSize_sound _ Hs') as (it0 & rest0 & E & H);
      injection E as <- <-; now rewrite H, (moved_children it it' Hm).
Qed.

Lemma cursor_stack_follows_document_witness :
  let doc := JObject [("a", JArray [JInt64 1; JInt64 2])] in
  (exists ar, construct doc = Return tt ar /\ sound ar) /\
  (exists e ar, construct (JInt64 1) = Throw e ar) /\
  forall ar, construct doc = Return tt ar ->
    match startNode ar with
    | Return _ ar' | Throw _ ar' => sound ar'
    | Undefined => False
    end.
Proof.
  intros doc.
  pose proof (proj1 cursor_stack_follows_document doc) as Hc.
  split; [| split].
  - eexists. split; [reflexivity |]. exact (proj1 Hc).
  - do 2 eexists. reflexivity.
  - intros ar Har.
    apply (proj1 (proj2 (proj2 cursor_stack_follows_document))).
    injection Har as <-. exact (proj1 Hc).
Defined.

Lemma loadSize_counts_children_witness :
  let ms := [("a", JArray [JInt64 1; JInt64 2; JInt64 3])] in
  let ar := mkArchive None (JObject ms)
              [Iterator_array [JInt64 1; JInt64 2; JInt64 3];
               Iterator_object ms] in
  loadSize ar = Return 3%nat ar /\
  match (loadValue TInt64 ;; loadValue TInt64) ar with
  | Return _ ar' | Throw _ ar' => loadSize ar' = Return 3%nat ar'
  | Undefined => False
  end.
Proof.
  intros ms ar.
  assert (Hs : sound ar).
  { split.
    - split; [| now cbn]. exists (JArray [JInt64 1; JInt64 2; JInt64 3]).
      split; [reflexivity | now cbn].
    - repeat constructor; cbn; lia. }
  destruct (loadSize_counts_children ar _ _ Hs eq_refl) as [H1 H2].
  split; [exact H1 |].
  apply (H2 _ (loadValue TInt64 ;; loadValue TInt64)).
  apply keeps_level_bind; [| intros _]; apply keeps_level_loadValue.
Defined.

End SoundTheorems.

(** ** Errors and edges of the read side *)

Section Edges.

Import JSONInputArchive.
Local Open Scope archive_scope.

Lemma value_exhausted it :
  isValid it = false -> value it = Throw (exhausted it) it.
Proof.
  cbv [isValid value exhausted]. destruct (itsType it); try reflexivity;
    intros H; apply negb_false_iff in H; now rewrite H.
Qed.

Lemma value_valid it :
  in_range it -> isValid it = true -> exists e, value it = Return e it.
Proof.
  intros Hr Hv. pose proof (value_defined it Hr) as Hd.
  destruct (value it) as [e it' | e it' |] eqn:E; [| | now destruct Hd].
  - subst. eauto.
  - exfalso. revert E Hv. cbv [value isValid].
    destruct (itsType it); try discriminate.
    + destruct (_ =? _)%nat; [discriminate |].
      now destruct (nth_error _ _).
    + destruct (_ =? _)%nat; [discriminate |].
      now destruct (nth_error _ _) as [[] |].
Qed.

(** X9.  A failed unnamed read consumes nothing.  With no name pending, a
    value of the wrong type makes [loadValue] throw and leaves the cursor
    on it, so it can still be read with the right type; on a cursor past
    its last child, or over an empty node, [loadValue] and [startNode]
    throw and the cursor stays; a cursor that [isValid] accepts is on a
    value.  (With a name pending the search comes first and may move the
    cursor.) *)
Theorem failed_read_consumes_nothing doc it rest :
  let ar := mkArchive None doc (it :: rest) in
  (forall t e ex,
     value it = Return e it -> extract t e = inl ex ->
     loadValue t ar = Throw ex ar) /\
  (isValid it = false ->
   (forall t, loadValue t ar = Throw (exhausted it) ar) /\
   startNode ar = Throw (exhausted it) ar) /\
  (in_range it -> isValid it = true -> exists e, value it = Return e it).
Proof.
  intros ar. split; [| split].
  - intros t e ex Hv He. rewrite loadValue_decompose.
    cbv [ar search bind itsNextName set_name itsDocument itsIteratorStack
         read_current back set_stack throw].
    now rewrite Hv, He.
  - intros Hv. apply value_exhausted in Hv. split.
    + intros t. rewrite loadValue_decompose.
      cbv [ar search bind itsNextName set_name itsDocument itsIteratorStack
           read_current back set_stack throw].
      now rewrite Hv.
    + cbv [ar startNode search bind itsNextName set_name itsDocument
           itsIteratorStack back set_stack].
      now rewrite Hv.
  - apply value_valid.
Qed.

Lemma failed_read_consumes_nothing_witness :
  let doc := JArray [JString "7"] in
  let it := Iterator_array [JString "7"] in
  loadValue TInt (mkArchive None doc [it]) =
    Throw (simdjson_error INCORRECT_TYPE) (mkArchive None doc [it]) /\
  loadValue TString (mkArchive None doc [it]) =
    Return (VString "7") (mkArchive None doc [advance it]) /\
  loadValue TString (mkArchive None doc [advance it]) =
    Throw (Exception "No more objects in input")
      (mkArchive None doc [advance it]).
Proof.
  intros doc it. split; [| split].
  - exact (proj1 (failed_read_consumes_nothing doc it []) TInt
             (JString "7") _ eq_refl eq_refl).
  - reflexivity.
  - exact (proj1 (proj1 (proj2 (failed_read_consumes_nothing doc
                                  (advance it) [])) eq_refl) TString).
Defined.






End Edges.

Section Narrow.

Import JSONInputArchive.
Local Open Scope archive_scope.

Lemma roundtrip_single rb v e (A : Type) (m : M A) :
  scalar_element rb (JSONOutputArchive.token_of v) = Some e ->
  roundtrip rb [JSONOutputArchive.save v] m =
  m (mkArchive None (JObject [("value0", e)])
       [mkIterator [("value0", e)] 0 [] 0 Object]).
Proof.
  intros He. cbv [roundtrip]. rewrite output_save. cbv [bind].
  now rewrite (open_single rb "value0" _ e He).
Qed.

(** X12.  A narrow integer keeps its value.  An integer in the range of a
    signed or unsigned type of [w < 64] bits, written by any of the integer
    overloads of [saveValue], is loaded unchanged by the [loadValue]
    overload of that type. *)
Theorem narrow_roundtrip (read_back : double -> option double) w z v :
  0 < w < 64 ->
  In v [VInt z; VUint z; VInt64 z; VUint64 z] ->
  well_typed v = true ->
  (- 2 ^ (w - 1) <= z < 2 ^ (w - 1) ->
   result_of (roundtrip read_back [JSONOutputArchive.save v]
                (loadValue_small_signed w)) = Some (inr z)) /\
  (0 <= z < 2 ^ w ->
   result_of (roundtrip read_back [JSONOutputArchive.save v]
                (loadValue_small_unsigned w)) = Some (inr z)).
Proof.
  intros Hw Hv Ht.
  assert (Hp : 2 ^ w <= 2 ^ 63) by (apply Z.pow_le_mono_r; lia).
  assert (Hq : 2 ^ (w - 1) <= 2 ^ 63) by (apply Z.pow_le_mono_r; lia).
  assert (He : - 2 ^ 63 <= z < 2 ^ 63 ->
             scalar_element read_back (JSONOutputArchive.token_of v) =
             Some (JInt64 z)).
  { intros Hz.
    assert (E : integer_element z = Some (JInt64 z)).
    { cbv [integer_element]. now rewrite in_int64_intro. }
    cbn in Hv. destruct Hv as [<- | [<- | [<- | [<- | []]]]]; exact E. }
  split; intros Hz.
  - rewrite (roundtrip_single read_back v (JInt64 z)) by (apply He; lia).
    cbv [loadValue_small_signed].
    rewrite (load_here _ _ _ [] (JInt64 z) (cast_signed w z));
      try reflexivity.
    cbn. now rewrite cast_signed_id by lia.
  - rewrite (roundtrip_single read_back v (JInt64 z)) by (apply He; lia).
    cbv [loadValue_small_unsigned].
    rewrite (load_here _ _ _ [] (JInt64 z) (cast_unsigned w z)).
    + cbn. cbv [cast_unsigned]. now rewrite Z.mod_small by lia.
    + reflexivity.
    + cbn. destruct (Z.ltb_spec z 0); [lia | reflexivity].
Qed.

Lemma narrow_roundtrip_witness :
  result_of (roundtrip Some [JSONOutputArchive.save (VInt (- 128))]
               (loadValue_small_signed 8)) = Some (inr (- 128)) /\
  result_of (roundtrip Some [JSONOutputArchive.save (VInt 65535)]
               (loadValue_small_unsigned 16)) = Some (inr 65535).
Proof.
  split.
  - apply (narrow_roundtrip Some 8 (- 128) (VInt (- 128)));
      [lia | now left | reflexivity | lia].
  - apply (narrow_roundtrip Some 16 65535 (VInt 65535));
      [lia | now left | reflexivity | lia].
Defined.

End Narrow.

(** ** The flavours of [long] *)

Section Long.

Import JSONInputArchive.
Local Open Scope archive_scope.

(** X13.  A [long] survives on both kinds of platform: written through
    [saveLong] and read through [loadLong] or the overload for small types,
    whether [long] has 32 or 64 bits, signed or unsigned. *)
Theorem long_roundtrip (read_back : double -> option double) unsigned bits l :
  bits = 32 \/ bits = 64 ->
  long_range unsigned bits l ->
  result_of (roundtrip read_back [save_long unsigned bits l]
               (loadValue_long unsigned bits)) = Some (inr l).
Proof.
  intros Hb Hl.
  assert (Hrt : forall e (A : Type) (m : M A) t,
            (forall ar, save_long unsigned bits l ar =
                        JSONOutputArchive.save t ar) ->
            scalar_element read_back (JSONOutputArchive.token_of t) = Some e ->
            roundtrip read_back [save_long unsigned bits l] m =
            m (mkArchive None (JObject [("value0", e)])
                 [mkIterator [("value0", e)] 0 [] 0 Object])).
  { intros e A m t Hsave He.
    rewrite <- (roundtrip_single read_back t e A m He).
    cbv [roundtrip JSONOutputArchive.output JSONOutputArchive.run].
    now rewrite Hsave. }
  destruct Hb as [-> | ->]; destruct unsigned; cbv [long_range] in Hl;
    cbv [loadValue_long loadLong loadLong_unsigned];
    change (64 <=? 32) with false; change (64 <=? 64) with true;
    change (64 =? 32) with false; change (32 =? 32) with true; cbv iota.
  - (* unsigned, 32 bits *)
    rewrite (Hrt (JInt64 l) _ _ (VUint l)).
    + cbv [loadValue_small_unsigned].
      rewrite (load_here _ _ _ [] (JInt64 l) l); try reflexivity.
      cbn. destruct (Z.ltb_spec l 0); [lia |]. cbn.
      cbv [cast_unsigned]. now rewrite Z.mod_small by lia.
    + intros ar. cbv [save_long JSONOutputArchive.save saveLong_unsigned].
      cbn [Z.eqb]. change (32 =? 32) with true. cbv iota.
      cbv [cast_unsigned]. now rewrite Z.mod_small by lia.
    + cbn. cbv [integer_element]. rewrite in_int64_intro by lia. reflexivity.
  - (* signed, 32 bits *)
    rewrite (Hrt (JInt64 l) _ _ (VInt l)).
    + cbv [loadValue_small_signed].
      rewrite (load_here _ _ _ [] (JInt64 l) l); try reflexivity.
      cbn. now rewrite cast_signed_id by lia.
    + intros ar. cbv [save_long JSONOutputArchive.save saveLong].
      change (32 =? 32) with true. cbv iota.
      now rewrite cast_signed_id by lia.
    + cbn. cbv [integer_element]. rewrite in_int64_intro by lia. reflexivity.
  - (* unsigned, 64 bits *)
    assert (Hs : forall ar, save_long true 64 l ar =
                            JSONOutputArchive.save (VUint64 l) ar).
    { intros ar. cbv [save_long JSONOutputArchive.save saveLong_unsigned].
      change (64 =? 32) with false. cbv iota.
      cbv [cast_unsigned]. now rewrite Z.mod_small by lia. }
    destruct (in_int64 l) eqn:E.
    + rewrite (Hrt (JInt64 l) _ _ (VUint64 l) Hs).
      * cbv [loadValue_uint64].
        rewrite (load_here _ _ _ [] (JInt64 l) l); try reflexivity.
        cbn. destruct (Z.ltb_spec l 0); [lia | reflexivity].
      * cbn. cbv [integer_element]. now rewrite E.
    + rewrite (Hrt (JUint64 l) _ _ (VUint64 l) Hs).
      * cbv [loadValue_uint64].
        rewrite (load_here _ _ _ [] (JUint64 l) l); reflexivity.
      * cbn. cbv [integer_element]. rewrite E.
        cbv [in_uint64].
        destruct (Z.leb_spec 0 l); [| lia].
        destruct (Z.ltb_spec l (2 ^ 64)); [reflexivity | lia].
  - (* signed, 64 bits *)
    rewrite (Hrt (JInt64 l) _ _ (VInt64 l)).
    + cbv [loadValue_int64].
      rewrite (load_here _ _ _ [] (JInt64 l) l); reflexivity.
    + intros ar. cbv [save_long JSONOutputArchive.save saveLong].
      change (64 =? 32) with false. cbv iota.
      now rewrite cast_signed_id by lia.
    + cbn. cbv [integer_element]. rewrite in_int64_intro by lia. reflexivity.
Qed.

Lemma long_roundtrip_witness :
  result_of (roundtrip Some [save_long false 32 (- 2 ^ 31)]
               (loadValue_long false 32)) = Some (inr (- 2 ^ 31)) /\
  result_of (roundtrip Some [save_long true 64 (2 ^ 64 - 1)]
               (loadValue_long true 64)) = Some (inr (2 ^ 64 - 1)).
Proof.
  split.
  - apply (long_roundtrip Some false 32 (- 2 ^ 31)); [now left | cbv [long_range]; lia].
  - apply (long_roundtrip Some true 64 (2 ^ 64 - 1)); [now right | cbv [long_range]; lia].
Defined.

End Long.

(** ** Opening an output, and the string fallback *)

Section Opening.

Import JSONInputArchive.
Local Open Scope archive_scope.

Variable rb : double -> option double.





End Opening.


Section Exotic.

Import JSONInputArchive.
Local Open Scope archive_scope.



End Exotic.
